(** * cppdlr: the discrete Lehmann representation, imaginary-frequency part

    A shallow embedding of the kernels (dlr_kernels.cpp), the fine-grid
    parameters and DLR frequency selection (dlr_build.cpp), and the
    imaginary-frequency operator [imfreq_ops] (dlr_imfreq.hpp,
    dlr_imfreq.cpp), with the properties of these that the specification
    states.

    Conventions of the embedding.
    - [double] is read in exact arithmetic as [R], [std::complex<double>]
      as a pair of reals.  Where rounding decides an integer result (the
      quotient of logarithms whose ceiling is a number of panels) the
      rounded value is a parameter, and the kernel has a second reading in
      which every operation rounds.
    - The [int] fields of [fineparams] are 32-bit: conversions and products
      that leave the range are written out.
    - A C++ call either returns, throws [std::runtime_error], or violates a
      precondition of the array library; [result] has one constructor for
      each.
    - Code that the sources call but do not contain (pivoted Gram-Schmidt,
      LAPACK's LU, the quadrature nodes) is a parameter of the functions
      that call it. *)

From Stdlib Require Import String.
From Stdlib Require Import Reals Lra Lia ZArith Bool Arith List.
From Stdlib Require Import Permutation Sorted.
Import ListNotations.

Set Implicit Arguments.

(* ================================================================== *)
(** * Part I: the model *)
(* ================================================================== *)

(** ** Outcomes of a call *)

Inductive result (A : Type) : Type :=
| Ok (a : A)
| Throw (what : string)
| Abort (why : string).

Arguments Ok {A} a.
Arguments Throw {A} what.
Arguments Abort {A} why.

Definition bind {A B : Type} (m : result A) (k : A -> result B) : result B :=
  match m with
  | Ok a => k a
  | Throw w => Throw w
  | Abort w => Abort w
  end.

Notation "x <- m ;; k" := (bind m (fun x => k))
  (at level 61, m at next level, right associativity).

Definition returns {A : Type} (m : result A) : Prop := exists a, m = Ok a.

Definition throws {A : Type} (m : result A) : Prop := exists w, m = Throw w.

(** ** Complex numbers in exact arithmetic *)

Definition dcomplex : Type := (R * R)%type.

Definition RtoC (x : R) : dcomplex := (x, 0%R).
Definition C0 : dcomplex := RtoC 0.
Definition C1 : dcomplex := RtoC 1.
Definition Ci : dcomplex := (0%R, 1%R).

Definition Cadd (a b : dcomplex) : dcomplex := (fst a + fst b, snd a + snd b)%R.
Definition Copp (a : dcomplex) : dcomplex := (- fst a, - snd a)%R.
Definition Csub (a b : dcomplex) : dcomplex := (fst a - fst b, snd a - snd b)%R.
Definition Cmul (a b : dcomplex) : dcomplex :=
  (fst a * fst b - snd a * snd b, fst a * snd b + snd a * fst b)%R.
Definition Cconj (a : dcomplex) : dcomplex := (fst a, - snd a)%R.
Definition Cnorm2 (a : dcomplex) : R := (fst a * fst a + snd a * snd a)%R.
Definition Cinv (a : dcomplex) : dcomplex :=
  (fst a / Cnorm2 a, - snd a / Cnorm2 a)%R.
Definition Cdiv (a b : dcomplex) : dcomplex := Cmul a (Cinv b).

(** [double * complex] and [complex / double], [complex - double]. *)
Definition Cscale (x : R) (a : dcomplex) : dcomplex := (x * fst a, x * snd a)%R.
Definition Cdiv_real (a : dcomplex) (x : R) : dcomplex := (fst a / x, snd a / x)%R.
Definition Csub_real (a : dcomplex) (x : R) : dcomplex := (fst a - x, snd a)%R.

(** ** Particle statistic *)

(** Modelled from the spec: the enumeration [statistic_t] is declared in
    dlr_kernels.hpp, which is not among the sources; the specification
    gives its integer values, 1 for fermions and 0 for bosons. *)
Inductive statistic_t : Type := Boson | Fermion.

Definition statistic_int (s : statistic_t) : Z :=
  match s with Boson => 0 | Fermion => 1 end.

Definition statistic_eqb (a b : statistic_t) : bool :=
  match a, b with
  | Boson, Boson | Fermion, Fermion => true
  | _, _ => false
  end.

(** ** Kernels (dlr_kernels.cpp) *)

Definition k_it_abs (t om : R) : R :=
  if Rge_dec om 0 then (exp (- t * om) / (1 + exp (- om)))%R
  else (exp ((1 - t) * om) / (1 + exp om))%R.

Definition k_it (t om : R) : R :=
  if Rge_dec t 0 then k_it_abs t om else k_it_abs (- t) (- om).

(** The same two functions with the rounding of [double] arithmetic made
    explicit: [rnd] rounds the result of a product, a sum, a difference or
    a quotient to a [double], and [fexp] is the exponential of the C
    library.  The unary minus is exact. *)
Section RoundedKernel.

Variables rnd fexp : R -> R.

Definition k_it_abs_fl (t om : R) : R :=
  if Rge_dec om 0 then rnd (fexp (rnd (- t * om)) / rnd (1 + fexp (- om)))%R
  else rnd (fexp (rnd (rnd (1 - t) * om)) / rnd (1 + fexp om))%R.

Definition k_it_fl (t om : R) : R :=
  if Rge_dec t 0 then k_it_abs_fl t om else k_it_abs_fl (- t) (- om).

End RoundedKernel.

(** [-1.0 / (n * pi * 1i - om)] *)
Definition k_if (n : Z) (om : R) : dcomplex :=
  Cdiv (RtoC (-1)) (Csub_real (Cscale (IZR n * PI) Ci) om).

(** Modelled from the spec: the three-argument overload of [k_if] is
    defined in a version of dlr_kernels.cpp that is not among the sources.
    The specification gives K(n, om, s) = -1 / ((2n + s) pi i - om); the
    two-argument kernel above is called with [2 * n + statistic] where the
    sources predate the overload. *)
Definition k_if_stat (n : Z) (om : R) (statistic : statistic_t) : dcomplex :=
  k_if (2 * n + statistic_int statistic) om.

(** ** 32-bit [int] *)

Definition INT_MAX : Z := 2147483647.
Definition INT_MIN : Z := -2147483648.

Definition in_int (z : Z) : Prop := (INT_MIN <= z <= INT_MAX)%Z.

Definition in_intb (z : Z) : bool := ((INT_MIN <=? z) && (z <=? INT_MAX))%Z.

(** Two's-complement result of an [int] operation whose exact value is [z]. *)
Definition wrap_int (z : Z) : Z := ((z - INT_MIN) mod 4294967296 + INT_MIN)%Z.

Definition int_mul (a b : Z) : Z := wrap_int (a * b).

(** Truncation toward zero. *)
Definition Ztrunc (x : R) : Z := if Rlt_dec x 0 then Zceil x else Zfloor x.

(** [static_cast<int>(x)]: the truncated value when it is an [int]; when it
    is not, the C++ standard leaves the conversion undefined and the x86-64
    conversion instruction delivers [INT_MIN]. *)
Definition double_to_int (x : R) : Z :=
  let z := Ztrunc x in if in_intb z then z else INT_MIN.

Definition ceil (x : R) : R := IZR (Zceil x).

(** ** Fine-grid parameters (dlr_build.hpp, dlr_build.cpp) *)

Record fineparams : Type := mk_fineparams {
  fp_lambda : R;
  fp_p : Z;
  fp_nmax : Z;
  fp_npom : Z;
  fp_npt : Z;
  fp_nom : Z;
  fp_nt : Z
}.

(** The constructor [fineparams::fineparams(double lambda, int p)]: the
    member initialisers are evaluated, then the body checks its arguments.

    [log2q lambda] is the [double] that the expression
    [log(lambda) / log(2.0)] evaluates to.  The logarithm of the C library
    and the division round their results, so that this value need not be
    the quotient of the real logarithms (for [lambda = 2^29] it is
    [29.000000000000004] in IEEE double arithmetic); the constructor takes
    it as a parameter.  The ceiling, the maximum and the subtraction of 2
    are exact on the values they meet. *)
Definition fineparams_ctor (log2q : R -> R) (lambda : R) (p : Z)
  : result fineparams :=
  let nmax := Z.max (double_to_int (ceil lambda)) 20 in
  let npom := double_to_int (Rmax (ceil (log2q lambda)) 1) in
  let npt := double_to_int (Rmax (ceil (log2q lambda) - 2) 1) in
  let nom := int_mul (int_mul 2 p) npom in
  let nt := int_mul (int_mul 2 p) npt in
  if Rle_dec lambda 0 then Throw "Choose lambda > 0."
  else if (p <=? 0)%Z then Throw "Choose p > 0."
  else Ok (mk_fineparams lambda p nmax npom npt nom nt).

(** The numbers of panels for a computed quotient [q], before they are
    stored in an [int]. *)
Definition panels_om (q : R) : Z := Z.max (Zceil q) 1.
Definition panels_t (q : R) : Z := Z.max (Zceil q - 2) 1.

(** The quotient of the logarithms without rounding, [log2 lambda]. *)
Definition log2_exact (lambda : R) : R := ln lambda / ln 2.

(** The default argument [int p = 24] of the declaration. *)
Definition default_p : Z := 24.

Definition fineparams_default (log2q : R -> R) (lambda : R)
  : result fineparams :=
  fineparams_ctor log2q lambda default_p.

(** ** Arrays (nda): a shape and the elements in row-major order *)

Record array (T : Type) : Type := mk_array {
  shape : list nat;
  data : list T
}.

(** Number of elements of a shape. *)
Definition extent (s : list nat) : nat := fold_right Nat.mul 1 s.

Definition size {T : Type} (a : array T) : nat := extent (shape a).

(** [a.shape(0)] *)
Definition shape0 {T : Type} (a : array T) : nat := hd 0 (shape a).

Definition wf_array {T : Type} (a : array T) : Prop :=
  length (data a) = size a.

Definition map_array {T U : Type} (f : T -> U) (a : array T) : array U :=
  mk_array (shape a) (map f (data a)).

(** [nda::reshape]: the same elements under a new shape; the library
    requires the number of elements to agree. *)
Definition reshape {T : Type} (a : array T) (new_shape : list nat)
  : result (array T) :=
  if extent new_shape =? size a then Ok (mk_array new_shape (data a))
  else Abort "reshape: new shape has an incorrect number of elements".

(** Integer division of extents, [g.size() / r]. *)
Definition int_div (a b : nat) : result nat :=
  if b =? 0 then Abort "integer division by zero" else Ok (a / b).

(** [k] consecutive rows of [n] elements. *)
Fixpoint chunks {T : Type} (n k : nat) (l : list T) : list (list T) :=
  match k with
  | O => []
  | S k' => firstn n l :: chunks n k' (skipn n l)
  end.

Definition nrows {T : Type} (a : array T) : nat := nth 0 (shape a) 0.
Definition ncols {T : Type} (a : array T) : nat := nth 1 (shape a) 0.

(** The rows of a matrix. *)
Definition rows {T : Type} (a : array T) : list (list T) :=
  chunks (ncols a) (nrows a) (data a).

Definition matrix_of_rows {T : Type} (n : nat) (rs : list (list T)) : array T :=
  mk_array [length rs; n] (concat rs).

Definition is_matrix {T : Type} (a : array T) : bool :=
  length (shape a) =? 2.

(** Scalars: [double] and [std::complex<double>]. *)
Class Scalar (T : Type) : Type := {
  szero : T;
  sadd : T -> T -> T;
  ssub : T -> T -> T;
  smul : T -> T -> T;
  sconj : T -> T;
  sabs2 : T -> R;
  sreal : R -> T
}.

#[export] Instance R_Scalar : Scalar R := {
  szero := 0%R;
  sadd := Rplus;
  ssub := Rminus;
  smul := Rmult;
  sconj := fun x => x;
  sabs2 := fun x => (x * x)%R;
  sreal := fun x => x
}.

#[export] Instance C_Scalar : Scalar dcomplex := {
  szero := C0;
  sadd := Cadd;
  ssub := Csub;
  smul := Cmul;
  sconj := Cconj;
  sabs2 := Cnorm2;
  sreal := RtoC
}.

Section Matrices.
Context {T : Type} `{Scalar T}.

Definition transpose_rows (n : nat) (rs : list (list T)) : list (list T) :=
  map (fun j => map (fun row => nth j row szero) rs) (seq 0 n).

(** Element [(i, j)] of a list of rows. *)
Definition mget (rs : list (list T)) (i j : nat) : T := nth j (nth i rs []) szero.

(** [transpose] of a matrix, materialised. *)
Definition transpose (a : array T) : array T :=
  matrix_of_rows (nrows a) (transpose_rows (ncols a) (rows a)).

(** Sum of products, in index order. *)
Definition dot (u v : list T) : T :=
  fold_left (fun acc ab => sadd acc (smul (fst ab) (snd ab))) (combine u v) szero.

(** Matrix times matrix; the inner extents must agree. *)
Definition matmul (a b : array T) : result (array T) :=
  if is_matrix a && is_matrix b && (ncols a =? nrows b) then
    Ok (matrix_of_rows (ncols b)
          (map (fun ar => map (fun bc => dot ar bc)
                            (transpose_rows (ncols b) (rows b)))
               (rows a)))
  else Abort "matmul: dimension mismatch".

(** Matrix times vector. *)
Definition matvec (a : array T) (v : list T) : result (list T) :=
  if is_matrix a && (ncols a =? length v) then
    Ok (map (fun ar => dot ar v) (rows a))
  else Abort "matvec: dimension mismatch".

(** Element [(i, j)] of a matrix, [a(i, j)]; out of range is a violated
    precondition. *)
Definition entry (a : array T) (i j : nat) : result T :=
  match nth_error (rows a) i with
  | Some row =>
      match nth_error row j with
      | Some x => Ok x
      | None => Abort "index out of range"
      end
  | None => Abort "index out of range"
  end.

(** Element [i] of a vector, [v(i)]. *)
Definition at_ {U : Type} (v : list U) (i : nat) : result U :=
  match nth_error v i with
  | Some x => Ok x
  | None => Abort "index out of range"
  end.

End Matrices.

(** A loop [for (i = 0; i < n; ++i) out(i) = f i] whose body may fail. *)
Fixpoint for_each {A B : Type} (f : A -> result B) (l : list A) : result (list B) :=
  match l with
  | [] => Ok []
  | x :: l' => y <- f x ;; ys <- for_each f l' ;; Ok (y :: ys)
  end.

(** A matrix filled by the double loop [for i < m, for j < n: a(i,j) = f i j]. *)
Definition fill_matrix {T : Type} (m n : nat) (f : nat -> nat -> result T)
  : result (array T) :=
  rs <- for_each (fun i => for_each (f i) (seq 0 n)) (seq 0 m) ;;
  Ok (matrix_of_rows n rs).

(** [std::sort] on a vector of row indices: ascending order. *)
Fixpoint insert_sorted (x : nat) (l : list nat) : list nat :=
  match l with
  | [] => [x]
  | y :: l' => if x <=? y then x :: l else y :: insert_sorted x l'
  end.

Fixpoint sort (l : list nat) : list nat :=
  match l with
  | [] => []
  | x :: l' => insert_sorted x (sort l')
  end.

(** ** Code outside the sources

    The pivoted Gram-Schmidt routines (utils.hpp), LAPACK's LU
    factorisation and solve, and the quadrature and interpolation nodes
    are called by the sources but are not among them.  The functions below
    take them as a parameter.  Each Gram-Schmidt routine returns
    [(q, norms, piv)]; [getrf] returns the factors, the pivot vector and
    LAPACK's [info]; [ext_log2] is [log(lambda) / log(2.0)] as the C
    library and the division in [double] compute it. *)
Record externals : Type := mk_externals {
  ext_pivrgs : array dcomplex -> R -> array dcomplex * list R * list nat;
  ext_pivrgs_sym : array dcomplex -> nat -> array dcomplex * list R * list nat;
  ext_getrf : array dcomplex -> array dcomplex * list Z * Z;
  ext_getrs : array dcomplex -> list Z -> array dcomplex -> result (array dcomplex);
  ext_pivrgs_real : array R -> R -> array R * list R * list nat;
  ext_pivrgs_sym_real : array R -> R -> array R * list R * list nat;
  ext_gaussquad : Z -> list R * list R;
  ext_barycheb_nodes : Z -> list R;
  ext_log2 : R -> R
}.

(** ** The imaginary-frequency kernel matrix (dlr_build.cpp) *)

Definition build_k_if (nmax : Z) (om : list R) (statistic : statistic_t)
  : array dcomplex :=
  let count :=
    match statistic with
    | Fermion => Z.to_nat (2 * nmax)
    | Boson => Z.to_nat (2 * nmax + 1)
    end in
  matrix_of_rows (length om)
    (map (fun k => map (fun omj => k_if_stat (Z.of_nat k - nmax) omj statistic) om)
         (seq 0 count)).

(** ** The operator object (dlr_imfreq.hpp) *)

Record imfreq_ops : Type := mk_imfreq_ops {
  lambda_ : R;
  statistic : statistic_t;
  r : nat;
  niom : nat;
  dlr_rf : list R;
  dlr_if : list Z;
  cf2if : array dcomplex;
  if2cf_lu : array dcomplex;
  if2cf_piv : list Z
}.

Definition get_ifnodes (m : imfreq_ops) : list Z := dlr_if m.
Definition get_rfnodes (m : imfreq_ops) : list R := dlr_rf m.
Definition get_cf2if (m : imfreq_ops) : array dcomplex := cf2if m.
Definition get_if2cf_lu (m : imfreq_ops) : array dcomplex := if2cf_lu m.
Definition get_if2cf_piv (m : imfreq_ops) : list Z := if2cf_piv m.
Definition rank (m : imfreq_ops) : nat := r m.
Definition lambda (m : imfreq_ops) : R := lambda_ m.
Definition get_statistic (m : imfreq_ops) : statistic_t := statistic m.

(** An operator object with one frequency and one node. *)
Definition sample_ops : imfreq_ops :=
  mk_imfreq_ops 1 Fermion 1 1 [1%R] [0%Z]
    (mk_array [1; 1] [C1]) (mk_array [1; 1] [C1]) [1%Z].

(** A default-constructed matrix. *)
Definition empty_matrix : array dcomplex := mk_array [0; 0] [].

Definition symmetrized_boson (statistic : statistic_t) (symmetrize : bool) : bool :=
  statistic_eqb statistic Boson && symmetrize.

(** [complex *= double] *)
Definition Cmul_real (a : dcomplex) (x : R) : dcomplex := (fst a * x, snd a * x)%R.

Section Construction.
Variable E : externals.

(** The number of sampling nodes: [r + 1] for the symmetrized bosonic
    case, [r] otherwise. *)
Definition node_count (rk : nat) (statistic : statistic_t) (symmetrize : bool)
  : nat :=
  if symmetrized_boson statistic symmetrize then rk + 1 else rk.

(** The pivots that the Gram-Schmidt routine selects: the symmetrized
    routine with the number of nodes as target rank, or the plain routine
    with tolerance [1e-100]. *)
Definition selected_pivots (kmat : array dcomplex) (nnodes : nat)
           (symmetrize : bool) : list nat :=
  let '(_, _, piv) :=
    if symmetrize then ext_pivrgs_sym E kmat nnodes
    else ext_pivrgs E kmat 1e-100 in
  piv.

(** The pivots after [std::sort]. *)
Definition sorted_pivots (kmat : array dcomplex) (nnodes : nat)
           (symmetrize : bool) : list nat :=
  sort (selected_pivots kmat nnodes symmetrize).

(** [imfreq_ops::imfreq_ops(lambda, dlr_rf, statistic, symmetrize)]
    (dlr_imfreq.cpp). *)
Definition imfreq_ops_ctor (lam : R) (rf : list R) (stat : statistic_t)
           (symmetrize : bool) : result imfreq_ops :=
  let rk := length rf in
  let nnodes := node_count rk stat symmetrize in
  fine <- fineparams_default (ext_log2 E) lam ;;
  let nmax := fp_nmax fine in
  let kmat := build_k_if nmax rf stat in
  let piv := sorted_pivots kmat nnodes symmetrize in
  nodes <- for_each (fun i => p <- at_ piv i ;; Ok (Z.of_nat p - nmax)%Z)
                    (seq 0 nnodes) ;;
  c2v <- fill_matrix nnodes rk (fun i j => p <- at_ piv i ;; entry kmat p j) ;;
  if negb (symmetrized_boson stat symmetrize) then
    let '(lu, ipiv, _) := ext_getrf E c2v in
    Ok (mk_imfreq_ops lam stat rk nnodes rf nodes c2v lu ipiv)
  else
    Ok (mk_imfreq_ops lam stat rk nnodes rf nodes c2v empty_matrix []).

(** The three-argument constructor of the older dlr_imfreq.cpp: no
    symmetrization, and for bosons the columns of [cf2if] are scaled by
    [tanh(0.5 * dlr_rf(j))]. *)
Definition imfreq_ops_ctor_legacy (lam : R) (rf : list R) (stat : statistic_t)
  : result imfreq_ops :=
  let rk := length rf in
  fine <- fineparams_default (ext_log2 E) lam ;;
  let nmax := fp_nmax fine in
  let kmat := build_k_if nmax rf stat in
  let piv := sorted_pivots kmat rk false in
  nodes <- for_each (fun i => p <- at_ piv i ;; Ok (Z.of_nat p - nmax)%Z)
                    (seq 0 rk) ;;
  c2v <- fill_matrix rk rk (fun i j => p <- at_ piv i ;; entry kmat p j) ;;
  c2v' <- (if statistic_eqb stat Boson then
             fill_matrix rk rk
               (fun i j => x <- entry c2v i j ;; om <- at_ rf j ;;
                           Ok (Cmul_real x (tanh (0.5 * om))))
           else Ok c2v) ;;
  let '(lu, ipiv, _) := ext_getrf E c2v' in
  Ok (mk_imfreq_ops lam stat rk rk rf nodes c2v' lu ipiv).

(** ** Transformations (dlr_imfreq.hpp) *)

Definition dim_error : string := "First dim of g != DLR rank r.".

(** [vals2coefs(g)] *)
Definition vals2coefs (m : imfreq_ops) (g : array dcomplex)
  : result (array dcomplex) :=
  if negb (r m =? shape0 g) then Throw dim_error
  else
    nrhs <- int_div (size g) (r m) ;;
    g_rs <- reshape g [r m; nrhs] ;;
    let gct := transpose g_rs in
    gct' <- ext_getrs E (if2cf_lu m) (if2cf_piv m) gct ;;
    let gc := transpose gct' in
    reshape gc (shape g).

(** [vals2coefs(beta, g)] *)
Definition vals2coefs_beta (m : imfreq_ops) (beta : R) (g : array dcomplex)
  : result (array dcomplex) :=
  vals2coefs m (map_array (fun x => Cdiv_real x beta) g).

End Construction.

(** The kernel at the nodes [nodes] and the frequencies [rf]. *)
Definition kernel_rows (nodes : list Z) (rf : list R) (stat : statistic_t)
  : list (list dcomplex) :=
  map (fun n => map (fun om => k_if_stat n om stat) rf) nodes.

(** Number of rows of the kernel matrix of [build_k_if]. *)
Definition k_if_rows (nmax : Z) (stat : statistic_t) : nat :=
  match stat with
  | Fermion => Z.to_nat (2 * nmax)
  | Boson => Z.to_nat (2 * nmax + 1)
  end.

(** What the constructor establishes: the extents, and [cf2if] as the
    kernel at the nodes and the frequencies. *)
Definition kernel_ops (m : imfreq_ops) : Prop :=
  r m = length (dlr_rf m) /\
  niom m = length (dlr_if m) /\
  cf2if m = matrix_of_rows (r m) (kernel_rows (dlr_if m) (dlr_rf m) (statistic m)).

(** [coefs2vals(gc)] *)
Definition coefs2vals (m : imfreq_ops) (gc : array dcomplex)
  : result (array dcomplex) :=
  if negb (r m =? shape0 gc) then Throw dim_error
  else
    nrhs <- int_div (size gc) (r m) ;;
    gc_rs <- reshape gc [r m; nrhs] ;;
    g <- matmul (cf2if m) gc_rs ;;
    reshape g (shape gc).

(** [coefs2vals(beta, gc)] *)
Definition coefs2vals_beta (m : imfreq_ops) (beta : R) (gc : array dcomplex)
  : result (array dcomplex) :=
  coefs2vals m (map_array (Cscale beta) gc).

(** [build_evalvec(n)] *)
Definition build_evalvec (m : imfreq_ops) (n : Z) : list dcomplex :=
  map (fun l => k_if_stat n (nth l (dlr_rf m) 0%R) (statistic m)) (seq 0 (r m)).

(** [coefs2eval(gc, n)]: a scalar (an array of empty shape) for a
    coefficient vector, an array without the leading axis otherwise. *)
Definition coefs2eval (m : imfreq_ops) (gc : array dcomplex) (n : Z)
  : result (array dcomplex) :=
  if negb (r m =? shape0 gc) then Throw dim_error
  else if length (shape gc) =? 1 then
    Ok (mk_array []
          [fold_left
             (fun g l => Cadd g (Cmul (k_if_stat n (nth l (dlr_rf m) 0%R) (statistic m))
                                     (nth l (data gc) C0)))
             (seq 0 (r m)) C0])
  else
    nrhs <- int_div (size gc) (r m) ;;
    gc_rs <- reshape gc [r m; nrhs] ;;
    let shape_out := tl (shape gc) in
    let kvec := build_evalvec m n in
    v <- matvec (transpose gc_rs) kvec ;;
    reshape (mk_array [length v] v) shape_out.

(** [coefs2eval(beta, gc, n)] *)
Definition coefs2eval_beta (m : imfreq_ops) (beta : R) (gc : array dcomplex)
           (n : Z) : result (array dcomplex) :=
  v <- coefs2eval m gc n ;; Ok (map_array (Cscale beta) v).

(** The part of an array at leading index [i]. *)
Definition slice0 {T : Type} (a : array T) (i : nat) : array T :=
  mk_array (tl (shape a))
           (nth i (chunks (extent (tl (shape a))) (shape0 a) (data a)) []).

(** ** Serialisation (dlr_imfreq.hpp)

    An HDF5 group: a format tag, datasets by name, and subgroups by name. *)

Inductive h5_value : Type :=
| H5_double (x : R)
| H5_int (z : Z)
| H5_doubles (v : list R)
| H5_ints (v : list Z)
| H5_complex_matrix (a : array dcomplex).

#[warnings="-register-all"]
Inductive h5_group : Type :=
| H5_group (format : option string)
           (datasets : list (string * h5_value))
           (subgroups : list (string * h5_group)).

Definition h5_format (g : h5_group) : option string :=
  match g with H5_group f _ _ => f end.

Definition h5_datasets (g : h5_group) : list (string * h5_value) :=
  match g with H5_group _ d _ => d end.

Definition h5_subgroups (g : h5_group) : list (string * h5_group) :=
  match g with H5_group _ _ s => s end.

Definition h5_empty_group : h5_group := H5_group None [] [].

Definition write_hdf5_format_as_string (g : h5_group) (tag : string) : h5_group :=
  H5_group (Some tag) (h5_datasets g) (h5_subgroups g).

Definition h5_write_dataset (g : h5_group) (name : string) (v : h5_value)
  : h5_group :=
  H5_group (h5_format g) (h5_datasets g ++ [(name, v)]) (h5_subgroups g).

Definition h5_attach (fg : h5_group) (name : string) (g : h5_group) : h5_group :=
  H5_group (h5_format fg) (h5_datasets fg) (h5_subgroups fg ++ [(name, g)]).

Definition h5_open_group (fg : h5_group) (name : string) : option h5_group :=
  match find (fun kv => String.eqb (fst kv) name) (rev (h5_subgroups fg)) with
  | Some kv => Some (snd kv)
  | None => None
  end.

Definition hdf5_format : string := "cppdlr::imfreq_ops".

(** The subgroup that [h5_write] fills. *)
Definition h5_imfreq_ops_group (m : imfreq_ops) : h5_group :=
  let gr := h5_empty_group in
  let gr := write_hdf5_format_as_string gr "cppdlr::imfreq_ops" in
  let gr := h5_write_dataset gr "lambda" (H5_double (lambda m)) in
  let gr := h5_write_dataset gr "statistic"
              (H5_int (statistic_int (get_statistic m))) in
  let gr := h5_write_dataset gr "rf" (H5_doubles (get_rfnodes m)) in
  let gr := h5_write_dataset gr "if" (H5_ints (get_ifnodes m)) in
  let gr := h5_write_dataset gr "cf2if" (H5_complex_matrix (get_cf2if m)) in
  let gr := h5_write_dataset gr "if2cf_lu" (H5_complex_matrix (get_if2cf_lu m)) in
  h5_write_dataset gr "if2cf_piv" (H5_ints (get_if2cf_piv m)).

(** [h5_write(fg, subgroup_name, m)] *)
Definition h5_write (fg : h5_group) (subgroup_name : string) (m : imfreq_ops)
  : h5_group :=
  h5_attach fg subgroup_name (h5_imfreq_ops_group m).

(** ** DLR frequencies (dlr_build.cpp) *)

Section Build.
Variable E : externals.

(** One dyadic panel after another: [a] is the left end, [b i] the right
    end of panel [i]. *)
Fixpoint panels (b : nat -> R) (x : list R) (a : R) (idx : list nat)
  : list (list R) :=
  match idx with
  | [] => []
  | i :: idx' => map (fun xk => a + (b i - a) * xk)%R x :: panels b x (b i) idx'
  end.

(** Assignment to a range of [p] elements needs [p] values. *)
Definition check_extent {T : Type} (p : Z) (x : list T) : result unit :=
  if length x =? Z.to_nat p then Ok tt
  else Abort "assignment: extents differ".

Definition build_rf_fine (fine : fineparams) : result (list R) :=
  let p := fp_p fine in
  let npom := Z.to_nat (fp_npom fine) in
  let xc := map (fun x => (x + 1) / 2)%R (ext_barycheb_nodes E p) in
  _ <- check_extent p xc ;;
  let pos := concat (panels (fun i => fp_lambda fine / 2 ^ (npom - i - 1))%R
                            xc 0%R (seq 0 npom)) in
  Ok (rev (map Ropp pos) ++ pos).

Definition build_it_fine (fine : fineparams) : result (list R * list R) :=
  let p := fp_p fine in
  let npt := Z.to_nat (fp_npt fine) in
  let xgl := map (fun x => (x + 1) / 2)%R (fst (ext_gaussquad E p)) in
  let wgl := snd (ext_gaussquad E p) in
  _ <- check_extent p xgl ;;
  _ <- check_extent p wgl ;;
  let b := (fun i => 1 / 2 ^ (npt - i))%R in
  let t := concat (panels b xgl 0%R (seq 0 npt)) in
  let w := concat (map (fun i =>
                          let a := match i with O => 0%R | S j => b j end in
                          map (fun wk => sqrt (((b i - a) / 2) * wk))%R wgl)
                       (seq 0 npt)) in
  Ok (t ++ rev (map Ropp t), w ++ rev w).

(** [build_k_it(t, w, om)]: the kernel with rows weighted by [w]. *)
Definition build_k_it (t w om : list R) : array R :=
  matrix_of_rows (length om)
    (map (fun tw => map (fun omj => (snd tw * k_it (fst tw) omj)%R) om)
         (combine t w)).

Definition eps_warning : string :=
  "Warning: Selection of DLR frequencies might fail for eps near or below machine precision. Considering increasing eps.".

(** [build_dlr_rf(lambda, eps, symmetrize)]: what is written to the
    error stream, and the outcome. *)
Definition build_dlr_rf (lam eps : R) (symmetrize : bool)
  : list string * result (list R) :=
  (if Rlt_dec eps 1e-14 then [eps_warning] else [],
   fine <- fineparams_default (ext_log2 E) lam ;;
   tw <- build_it_fine fine ;;
   om <- build_rf_fine fine ;;
   let kmat := build_k_it (fst tw) (snd tw) om in
   let '(_, norms, piv) :=
     if symmetrize then ext_pivrgs_sym_real E (transpose kmat) eps
     else ext_pivrgs_real E (transpose kmat) eps in
   let rk := length norms in
   let piv := sort piv in
   for_each (fun i => p <- at_ piv i ;; at_ om p) (seq 0 rk)).

End Build.

(** ** The matrix product of [coefs2vals], row by row *)

(** The columns of the coefficient array, seen as an [r x n] matrix. *)
Definition coef_columns (rk n : nat) (d : list dcomplex) : list (list dcomplex) :=
  transpose_rows n (chunks n rk d).

(** The product that [coefs2vals] forms before it restores the shape. *)
Definition c2v_product (m : imfreq_ops) (n : nat) (d : list dcomplex)
  : list (list dcomplex) :=
  map (fun ar => map (fun bc => @dot dcomplex C_Scalar ar bc) (coef_columns (r m) n d))
      (rows (cf2if m)).

(** ** Memory: arrays at addresses

    The transformations take their argument by reference and return a new
    array.  Here the arrays live in a heap, a view shares the address of
    the array it views, and a copy is an allocation. *)

Definition addr : Type := nat.
Definition heap : Type := list (array dcomplex).
Definition M (A : Type) : Type := heap -> heap * result A.

Definition ret {A : Type} (a : A) : M A := fun h => (h, Ok a).

Definition lift {A : Type} (x : result A) : M A := fun h => (h, x).

Definition bindM {A B : Type} (m : M A) (k : A -> M B) : M B :=
  fun h =>
    match m h with
    | (h', Ok a) => k a h'
    | (h', Throw w) => (h', Throw w)
    | (h', Abort w) => (h', Abort w)
    end.

Notation "x <~ m ;; k" := (bindM m (fun x => k))
  (at level 61, m at next level, right associativity).

Definition alloc (a : array dcomplex) : M addr :=
  fun h => (h ++ [a], Ok (length h)).

Definition load (p : addr) : M (array dcomplex) :=
  fun h => (h, match nth_error h p with
               | Some a => Ok a
               | None => Abort "dangling reference"
               end).

Fixpoint replace_nth {T : Type} (p : nat) (x : T) (l : list T) : list T :=
  match l, p with
  | [], _ => []
  | _ :: l', O => x :: l'
  | y :: l', S p' => y :: replace_nth p' x l'
  end.

Definition store_at (p : addr) (a : array dcomplex) : M unit :=
  fun h => (replace_nth p a h, Ok tt).

Section Memory.
Variable E : externals.

(** [vals2coefs(g)] with [g] a reference: [g_rs] is a view of [g],
    [gct] and [gc] are new matrices, [getrs] overwrites [gct], the
    returned array is a copy. *)
Definition vals2coefs_mem (m : imfreq_ops) (g : addr) : M addr :=
  gv <~ load g ;;
  if negb (r m =? shape0 gv) then lift (Throw dim_error)
  else
    nrhs <~ lift (int_div (size gv) (r m)) ;;
    g_rs <~ lift (reshape gv [r m; nrhs]) ;;
    gct <~ alloc (transpose g_rs) ;;
    b <~ load gct ;;
    x <~ lift (ext_getrs E (if2cf_lu m) (if2cf_piv m) b) ;;
    _ <~ store_at gct x ;;
    b' <~ load gct ;;
    gc <~ alloc (transpose b') ;;
    gcv <~ load gc ;;
    res <~ lift (reshape gcv (shape gv)) ;;
    alloc res.

(** [vals2coefs(beta, g)]: the quotient [g / beta] is a temporary. *)
Definition vals2coefs_beta_mem (m : imfreq_ops) (beta : R) (g : addr) : M addr :=
  gv <~ load g ;;
  tmp <~ alloc (map_array (fun x => Cdiv_real x beta) gv) ;;
  vals2coefs_mem m tmp.

Definition coefs2vals_mem (m : imfreq_ops) (gc : addr) : M addr :=
  gv <~ load gc ;;
  if negb (r m =? shape0 gv) then lift (Throw dim_error)
  else
    nrhs <~ lift (int_div (size gv) (r m)) ;;
    gc_rs <~ lift (reshape gv [r m; nrhs]) ;;
    gval <~ lift (matmul (cf2if m) gc_rs) ;;
    g <~ alloc gval ;;
    gv' <~ load g ;;
    res <~ lift (reshape gv' (shape gv)) ;;
    alloc res.

Definition coefs2vals_beta_mem (m : imfreq_ops) (beta : R) (gc : addr) : M addr :=
  gv <~ load gc ;;
  tmp <~ alloc (map_array (Cscale beta) gv) ;;
  coefs2vals_mem m tmp.

End Memory.

(** What a call that is pure with respect to the caller's data leaves
    behind: every cell of the heap [h] is as it was; a returned address is
    new and holds the array [v] that the transformation computes from the
    value [gv] of the argument, with the shape of [gv]; a failure is the
    failure of the transformation. *)
Definition pure_call (h : heap) (gv : array dcomplex)
           (val : result (array dcomplex)) (run : heap * result addr) : Prop :=
  firstn (length h) (fst run) = h /\
  match snd run with
  | Ok q =>
      length h <= q /\
      exists v, nth_error (fst run) q = Some v /\ val = Ok v /\
                shape v = shape gv
  | Throw w => val = Throw w
  | Abort w => val = Abort w
  end.

(** ** Pivoted reorthogonalized Gram-Schmidt *)

(** Modelled from the spec: [pivrgs] is defined in utils.hpp, which is not
    among the sources.  The specification (section 4.3) describes it: at
    each step the remaining row of largest Euclidean norm is the pivot, the
    lowest index winning a tie; it is normalised and the other remaining
    rows are orthogonalised against it by two passes of classical
    Gram-Schmidt; the procedure stops when the pivot norm is below [eps]
    times the first pivot norm, or when the number of selected rows reaches
    the target rank.  It returns the orthonormal rows, the pivot norms and
    the selected row indices in the order chosen. *)
Section PivRGS.
Context {T : Type} `{Scalar T}.

Definition dotc (u v : list T) : T := dot (map sconj u) v.

Definition norm2 (a : list T) : R :=
  fold_left (fun acc x => (acc + sabs2 x)%R) a 0%R.

Definition norm (a : list T) : R := sqrt (norm2 a).

Definition normalize (a : list T) : list T :=
  map (fun x => smul (sreal (1 / norm a)) x) a.

(** One pass: remove from [a] its component along the unit row [q]. *)
Definition gs_pass (q a : list T) : list T :=
  map (fun aq => ssub (fst aq) (smul (dotc q a) (snd aq))) (combine a q).

Definition orthogonalize (q a : list T) : list T := gs_pass q (gs_pass q a).

(** A remaining row with its index in the input matrix. *)
Definition indexed_row : Type := (nat * list T)%type.

(** The row of largest norm; a later row wins only if it is strictly
    larger. *)
Fixpoint pick_pivot (best : indexed_row) (rest : list indexed_row)
  : indexed_row :=
  match rest with
  | [] => best
  | c :: rest' =>
      if Rlt_dec (norm (snd best)) (norm (snd c)) then pick_pivot c rest'
      else pick_pivot best rest'
  end.

Definition remove_row (i : nat) (rem : list indexed_row) : list indexed_row :=
  filter (fun c => negb (fst c =? i)) rem.

Definition reduce_rows (q : list T) (rem : list indexed_row)
  : list indexed_row :=
  map (fun c => (fst c, orthogonalize q (snd c))) rem.

(** A selected row: its index, the orthonormal row, the pivot norm. *)
Record pick : Type := mk_pick {
  pick_index : nat;
  pick_q : list T;
  pick_norm : R
}.

Definition reached (target : option nat) (count : nat) : bool :=
  match target with
  | Some rt => rt <=? count
  | None => false
  end.

(** At most [fuel] steps; [first] is the first pivot norm once known,
    [count] the number of rows selected so far. *)
Fixpoint pivrgs_loop (fuel : nat) (eps : R) (target : option nat)
         (first : option R) (count : nat) (rem : list indexed_row)
  : list pick :=
  match fuel with
  | O => []
  | S fuel' =>
      match rem with
      | [] => []
      | c :: rest =>
          if reached target count then []
          else
            let pv := pick_pivot c rest in
            let nrm := norm (snd pv) in
            let first_nrm := match first with Some x => x | None => nrm end in
            if Rlt_dec nrm (eps * first_nrm) then []
            else
              let q := normalize (snd pv) in
              mk_pick (fst pv) q nrm
                :: pivrgs_loop fuel' eps target (Some first_nrm) (S count)
                     (reduce_rows q (remove_row (fst pv) rem))
      end
  end.

Definition pivrgs_rows (rs : list (list T)) (eps : R) (target : option nat)
  : list pick :=
  pivrgs_loop (length rs) eps target None 0 (combine (seq 0 (length rs)) rs).

Definition pivrgs_result (n : nat) (picks : list pick)
  : array T * list R * list nat :=
  (matrix_of_rows n (map pick_q picks), map pick_norm picks,
   map pick_index picks).

(** [pivrgs(a, eps)] *)
Definition pivrgs (a : array T) (eps : R) : array T * list R * list nat :=
  pivrgs_result (ncols a) (pivrgs_rows (rows a) eps None).

(** [pivrgs(a, r)]: a target rank in place of a tolerance. *)
Definition pivrgs_rank (a : array T) (rt : nat) : array T * list R * list nat :=
  pivrgs_result (ncols a) (pivrgs_rows (rows a) 0 (Some rt)).

(** The remaining row of index [i]. *)
Definition get_row (i : nat) (rem : list indexed_row) : list T :=
  match find (fun c => fst c =? i) rem with
  | Some c => snd c
  | None => []
  end.

(** The picks with their indices replaced by [j], [j + 1], ... *)
Definition renumber (j : nat) (picks : list pick) : list pick :=
  map (fun kp => mk_pick (fst kp) (pick_q (snd kp)) (pick_norm (snd kp)))
      (combine (seq j (length picks)) picks).

(** The rows of indices [idxs] as they stand in [rem], numbered from [j]. *)
Definition sub_state (j : nat) (rem : list indexed_row) (idxs : list nat)
  : list indexed_row :=
  combine (seq j (length idxs)) (map (fun i => get_row i rem) idxs).

(** Modelled from the spec: [pivrgs_sym] is defined in utils.hpp, which is
    not among the sources.  The specification (section 4.3) describes it
    for a matrix of [m] rows paired as [(i, m-1-i)]: at each step the pivot
    is chosen as in [pivrgs]; if it is its own partner it is selected
    alone, otherwise it is selected jointly with its partner, which is
    orthogonalised against it and normalised; the remaining rows are
    orthogonalised against both.  The stopping rule and tie-breaking are
    those of [pivrgs]. *)
Fixpoint pivrgs_sym_loop (fuel m : nat) (eps : R) (target : option nat)
         (first : option R) (count : nat) (rem : list indexed_row)
  : list pick :=
  match fuel with
  | O => []
  | S fuel' =>
      match rem with
      | [] => []
      | c :: rest =>
          if reached target count then []
          else
            let pv := pick_pivot c rest in
            let i := fst pv in
            let nrm := norm (snd pv) in
            let first_nrm := match first with Some x => x | None => nrm end in
            if Rlt_dec nrm (eps * first_nrm) then []
            else
              let q := normalize (snd pv) in
              if i =? m - 1 - i then
                mk_pick i q nrm
                  :: pivrgs_sym_loop fuel' m eps target (Some first_nrm) (S count)
                       (reduce_rows q (remove_row i rem))
              else
                let i' := m - 1 - i in
                let a' := orthogonalize q (get_row i' rem) in
                let q' := normalize a' in
                mk_pick i q nrm :: mk_pick i' q' (norm a')
                  :: pivrgs_sym_loop fuel' m eps target (Some first_nrm)
                       (S (S count))
                       (reduce_rows q'
                          (reduce_rows q (remove_row i' (remove_row i rem))))
      end
  end.

Definition pivrgs_sym_rows (rs : list (list T)) (eps : R) (target : option nat)
  : list pick :=
  pivrgs_sym_loop (length rs) (length rs) eps target None 0
                  (combine (seq 0 (length rs)) rs).

(** [pivrgs_sym(a, eps)] *)
Definition pivrgs_sym (a : array T) (eps : R) : array T * list R * list nat :=
  pivrgs_result (ncols a) (pivrgs_sym_rows (rows a) eps None).

(** [pivrgs_sym(a, r)] *)
Definition pivrgs_sym_rank (a : array T) (rt : nat)
  : array T * list R * list nat :=
  pivrgs_result (ncols a) (pivrgs_sym_rows (rows a) 0 (Some rt)).

(** The matrix of the rows [piv] of [a], in that order. *)
Definition pivot_rows (a : array T) (piv : list nat) : array T :=
  matrix_of_rows (ncols a) (map (fun p => nth p (rows a) []) piv).

End PivRGS.

(** A matrix has two extents and as many elements as they say. *)
Definition wf_matrix {T : Type} (a : array T) : Prop :=
  length (shape a) = 2 /\ length (data a) = nrows a * ncols a.

(** ** A reference for the factor-and-solve interface

    Gaussian elimination on the equations [(coefficients, right-hand side)]:
    an equation with a nonzero leading coefficient is the pivot, the
    unknown is eliminated from the others, and the smaller system is
    solved first. *)

Definition Ceq_dec (a b : dcomplex) : {a = b} + {a <> b}.
Proof.
  destruct a as [a1 a2], b as [b1 b2].
  destruct (Req_dec_T a1 b1) as [E1|N1].
  - destruct (Req_dec_T a2 b2) as [E2|N2].
    + left. now subst.
    + right. intros E. apply N2. now inversion E.
  - right. intros E. apply N1. now inversion E.
Defined.

Definition equation : Type := (list dcomplex * dcomplex)%type.

Definition leading (e : equation) : dcomplex := hd C0 (fst e).

(** The first equation with a nonzero leading coefficient, and the others. *)
Fixpoint find_pivot (eqs : list equation) : option (equation * list equation) :=
  match eqs with
  | [] => None
  | e :: eqs' =>
      if Ceq_dec (leading e) C0 then
        match find_pivot eqs' with
        | Some (pv, others) => Some (pv, e :: others)
        | None => None
        end
      else Some (e, eqs')
  end.

Definition axpy (k : dcomplex) (x y : list dcomplex) : list dcomplex :=
  map (fun xy => Csub (snd xy) (Cmul k (fst xy))) (combine x y).

Definition eliminate (pv e : equation) : equation :=
  let k := Cdiv (leading e) (leading pv) in
  (axpy k (tl (fst pv)) (tl (fst e)), Csub (snd e) (Cmul k (snd pv))).

Fixpoint gauss_solve (n : nat) (eqs : list equation) : option (list dcomplex) :=
  match n with
  | O => Some []
  | S n' =>
      match find_pivot eqs with
      | None => None
      | Some (pv, others) =>
          match gauss_solve n' (map (eliminate pv) others) with
          | None => None
          | Some x' =>
              Some (Cdiv (Csub (snd pv) (dot (tl (fst pv)) x')) (leading pv) :: x')
          end
      end
  end.

(** The equation [e] holds at [x]. *)
Definition holds (x : list dcomplex) (e : equation) : Prop :=
  dot (fst e) x = snd e.

Definition ref_getrf (a : array dcomplex) : array dcomplex * list Z * Z :=
  match gauss_solve (ncols a) (map (fun row => (row, C0)) (rows a)) with
  | Some _ => (a, [], 0%Z)
  | None => (a, [], 1%Z)
  end.

Definition ref_getrs (lu : array dcomplex) (piv : list Z) (b : array dcomplex)
  : result (array dcomplex) :=
  if is_matrix lu && is_matrix b && (ncols lu =? ncols b) && (nrows lu =? ncols lu)
  then
    xs <- for_each (fun rhs =>
                      match gauss_solve (ncols lu) (combine (rows lu) rhs) with
                      | Some x => Ok x
                      | None => Abort "singular matrix"
                      end)
                   (rows b) ;;
    Ok (matrix_of_rows (ncols b) xs)
  else Abort "getrs: dimension mismatch".


(** ** Reference instances of the code outside the sources

    The Gram-Schmidt routines as the specification describes them and the
    elimination above, with quadrature and interpolation nodes supplied by
    the caller, and the quotient of the logarithms without rounding. *)
Definition spec_externals (gaussquad : Z -> list R * list R)
           (barycheb_nodes : Z -> list R) : externals :=
  mk_externals pivrgs pivrgs_sym_rank ref_getrf ref_getrs
               pivrgs pivrgs_sym gaussquad barycheb_nodes log2_exact.

(** Equispaced stand-ins for the nodes, all weights one. *)
Definition equispaced (p : Z) : list R :=
  map (fun k => (2 * (INR k + 1) / (IZR p + 1) - 1)%R) (seq 0 (Z.to_nat p)).

Definition reference_externals : externals :=
  spec_externals (fun p => (equispaced p, map (fun _ => 1%R) (equispaced p)))
                 equispaced.

(** ** The contract of LAPACK's factor and solve

    When [getrf] reports success ([info = 0]) on a square matrix [a],
    [getrs] with the factors replaces each right-hand side, a row of [b],
    by the solution [x] of [a x = rhs]. *)
Definition lapack_contract (E : externals) : Prop :=
  forall a lu piv b,
    wf_matrix a -> nrows a = ncols a ->
    ext_getrf E a = (lu, piv, 0%Z) ->
    wf_matrix b -> ncols b = ncols a ->
    exists x,
      ext_getrs E lu piv b = Ok x /\ wf_matrix x /\ shape x = shape b /\
      Forall2 (fun xr br => map (fun ar => dot ar xr) (rows a) = br)
              (rows x) (rows b).

(** The operator holds the factors of its own square matrix [cf2if], and
    the factorisation succeeded. *)
Definition factored (E : externals) (m : imfreq_ops) : Prop :=
  ext_getrf E (cf2if m) = (if2cf_lu m, if2cf_piv m, 0%Z) /\
  wf_matrix (cf2if m) /\ nrows (cf2if m) = r m /\ ncols (cf2if m) = r m.

(* ================================================================== *)
(** * Part I, continued: the remaining functions of the sources *)
(* ================================================================== *)

(** ** Evaluation vectors (dlr_imfreq.cpp) *)

(** [build_evalvec(beta, n)] *)
Definition build_evalvec_beta (m : imfreq_ops) (beta : R) (n : Z)
  : list dcomplex :=
  map (fun l => Cscale beta (k_if_stat n (nth l (dlr_rf m) 0%R) (statistic m)))
      (seq 0 (r m)).

(** ** Reading an operator back (dlr_imfreq.hpp) *)

(** The constructor from the parts,
    [imfreq_ops(lambda, dlr_rf, statistic, dlr_if, cf2if, if2cf_lu, if2cf_piv)]:
    the rank is the number of frequencies.  The member [niom] that
    dlr_imfreq.cpp assigns is not among the members that this constructor
    of the header initialises; [niom0] is the value it is left with. *)
Definition imfreq_ops_of_parts (niom0 : nat) (lam : R) (rf : list R)
           (stat : statistic_t) (nodes : list Z) (c2v lu : array dcomplex)
           (piv : list Z) : imfreq_ops :=
  mk_imfreq_ops lam stat (length rf) niom0 rf nodes c2v lu piv.

(** The dataset of a group under a name: the one written last. *)
Definition h5_find_dataset (g : h5_group) (name : string) : option h5_value :=
  match find (fun kv => String.eqb (fst kv) name) (rev (h5_datasets g)) with
  | Some kv => Some (snd kv)
  | None => None
  end.

(** [h5::read] of each type of dataset; a missing dataset or one of
    another type is an error of the library. *)
Definition h5_read_double (g : h5_group) (name : string) : result R :=
  match h5_find_dataset g name with
  | Some (H5_double x) => Ok x
  | _ => Throw "h5::read: no such dataset of this type"
  end.

Definition h5_read_int (g : h5_group) (name : string) : result Z :=
  match h5_find_dataset g name with
  | Some (H5_int z) => Ok z
  | _ => Throw "h5::read: no such dataset of this type"
  end.

Definition h5_read_doubles (g : h5_group) (name : string) : result (list R) :=
  match h5_find_dataset g name with
  | Some (H5_doubles v) => Ok v
  | _ => Throw "h5::read: no such dataset of this type"
  end.

Definition h5_read_ints (g : h5_group) (name : string) : result (list Z) :=
  match h5_find_dataset g name with
  | Some (H5_ints v) => Ok v
  | _ => Throw "h5::read: no such dataset of this type"
  end.

Definition h5_read_complex_matrix (g : h5_group) (name : string)
  : result (array dcomplex) :=
  match h5_find_dataset g name with
  | Some (H5_complex_matrix a) => Ok a
  | _ => Throw "h5::read: no such dataset of this type"
  end.

(** [assert_hdf5_format_as_string(gr, tag, true)]: the tag of the group
    must be [tag]. *)
Definition assert_hdf5_format_as_string (g : h5_group) (tag : string)
  : result unit :=
  match h5_format g with
  | Some t => if String.eqb t tag then Ok tt
              else Throw "h5_read: format tag mismatch"
  | None => Throw "h5_read: format tag mismatch"
  end.

(** [statistic_t(int)]: the enumerator with that value. *)
Definition statistic_of_int (z : Z) : result statistic_t :=
  if (z =? 0)%Z then Ok Boson
  else if (z =? 1)%Z then Ok Fermion
  else Abort "not an enumerator of statistic_t".

(** [h5_read(fg, subgroup_name, m)]: the object assigned to [m]. *)
Definition h5_read (niom0 : nat) (fg : h5_group) (subgroup_name : string)
  : result imfreq_ops :=
  match h5_open_group fg subgroup_name with
  | None => Throw "h5::group::open_group: no such group"
  | Some gr =>
      _ <- assert_hdf5_format_as_string gr "cppdlr::imfreq_ops" ;;
      lam <- h5_read_double gr "lambda" ;;
      s <- h5_read_int gr "statistic" ;;
      stat <- statistic_of_int s ;;
      rf <- h5_read_doubles gr "rf" ;;
      if_ <- h5_read_ints gr "if" ;;
      c2v <- h5_read_complex_matrix gr "cf2if" ;;
      lu <- h5_read_complex_matrix gr "if2cf_lu" ;;
      piv <- h5_read_ints gr "if2cf_piv" ;;
      Ok (imfreq_ops_of_parts niom0 lam rf stat if_ c2v lu piv)
  end.

(** ** The other overloads of [build_k_it] (dlr_build.cpp) *)

(** [build_k_it(t, om)]: the kernel on the grids, [nt] by [nom]. *)
Definition build_k_it_grid (t om : list R) : array R :=
  matrix_of_rows (length om)
    (map (fun ti => map (fun omj => k_it ti omj) om) t).

(** [build_k_it(double t, om)]: one time, all frequencies. *)
Definition build_k_it_time (t : R) (om : list R) : list R :=
  map (fun omj => k_it t omj) om.

(** [build_k_it(t, double om)]: all times, one frequency. *)
Definition build_k_it_freq (t : list R) (om : R) : list R :=
  map (fun ti => k_it ti om) t.

(** [build_k_it(t, w, double om)]: all times with weights [w(i)], one
    frequency; the loop runs over the extent of [t] and indexes [w]. *)
Definition build_k_it_freq_weighted (t w : list R) (om : R) : result (list R) :=
  for_each (fun i => ti <- at_ t i ;; wi <- at_ w i ;; Ok (wi * k_it ti om)%R)
           (seq 0 (length t)).
(* ================================================================== *)
(** * Part II: properties *)
(* ================================================================== *)

(** ** Kernels *)

Lemma k_it_abs_nonneg_om (t om : R) :
  (om >= 0)%R -> k_it_abs t om = (exp (- t * om) / (1 + exp (- om)))%R.
Proof.
  intros H. unfold k_it_abs. destruct (Rge_dec om 0) as [_|n]; [reflexivity|].
  contradiction.
Qed.

Lemma k_it_abs_neg_om (t om : R) :
  (om < 0)%R -> k_it_abs t om = (exp ((1 - t) * om) / (1 + exp om))%R.
Proof.
  intros H. unfold k_it_abs. destruct (Rge_dec om 0) as [g|_]; [|reflexivity].
  exfalso. lra.
Qed.

Lemma k_it_nonneg_t (t om : R) : (t >= 0)%R -> k_it t om = k_it_abs t om.
Proof.
  intros H. unfold k_it. destruct (Rge_dec t 0); [reflexivity|contradiction].
Qed.

Lemma k_it_neg_t (t om : R) : (t < 0)%R -> k_it t om = k_it_abs (- t) (- om).
Proof.
  intros H. unfold k_it. destruct (Rge_dec t 0); [exfalso; lra|reflexivity].
Qed.

(** C5. For every imaginary time [t] (in particular every relative-format
    [t] in [-1,1] other than 0) and every real frequency [om], [k_it t om]
    is [exp(-t om) / (1 + exp(-om))] when [t >= 0] and [om >= 0], is
    [exp((1-t) om) / (1 + exp om)] when [t >= 0] and [om < 0], and is
    [k_it (-t) (-om)] when [t < 0]: the code evaluates the two-branch form. *)
Theorem k_it_two_branch_form (t om : R) :
  ((t >= 0)%R -> (om >= 0)%R ->
     k_it t om = (exp (- t * om) / (1 + exp (- om)))%R) /\
  ((t >= 0)%R -> (om < 0)%R ->
     k_it t om = (exp ((1 - t) * om) / (1 + exp om))%R) /\
  ((t < 0)%R -> k_it t om = k_it (- t) (- om)).
Proof.
  repeat split.
  - intros Ht Hom. rewrite k_it_nonneg_t by assumption.
    now apply k_it_abs_nonneg_om.
  - intros Ht Hom. rewrite k_it_nonneg_t by assumption.
    now apply k_it_abs_neg_om.
  - intros Ht. rewrite k_it_neg_t by assumption.
    symmetry. apply k_it_nonneg_t. lra.
Qed.

Lemma k_it_two_branch_form_witness :
  k_it (1 / 2) 3 = (exp (- (1 / 2) * 3) / (1 + exp (- 3)))%R /\
  k_it (1 / 2) (- 3) = (exp ((1 - 1 / 2) * - 3) / (1 + exp (- 3)))%R /\
  k_it (- (1 / 2)) 3 = k_it (- - (1 / 2)) (- 3).
Proof.
  split; [|split].
  - apply (proj1 (k_it_two_branch_form (1 / 2) 3)); lra.
  - apply (proj1 (proj2 (k_it_two_branch_form (1 / 2) (- 3)))); lra.
  - apply (proj2 (proj2 (k_it_two_branch_form (- (1 / 2)) 3))); lra.
Defined.

(** ** 32-bit conversions *)

Lemma Zceil_IZR (z : Z) : Zceil (IZR z) = z.
Proof. unfold Zceil. rewrite ZfloorNZ. lia. Qed.

Lemma Ztrunc_IZR (z : Z) : Ztrunc (IZR z) = z.
Proof.
  unfold Ztrunc. destruct (Rlt_dec (IZR z) 0).
  - apply Zceil_IZR.
  - apply ZfloorZ.
Qed.

Lemma in_intb_true (z : Z) : in_int z -> in_intb z = true.
Proof.
  unfold in_int, in_intb. intros [H1 H2].
  apply andb_true_intro. split; now apply Z.leb_le.
Qed.

Lemma in_intb_false (z : Z) : (INT_MAX < z)%Z -> in_intb z = false.
Proof.
  unfold in_intb. intros H. apply andb_false_intro2. now apply Z.leb_gt.
Qed.

Lemma double_to_int_IZR (z : Z) : in_int z -> double_to_int (IZR z) = z.
Proof.
  intros H. unfold double_to_int. rewrite Ztrunc_IZR.
  now rewrite in_intb_true.
Qed.

Lemma double_to_int_above (z : Z) :
  (INT_MAX < z)%Z -> double_to_int (IZR z) = INT_MIN.
Proof.
  intros H. unfold double_to_int. rewrite Ztrunc_IZR.
  now rewrite in_intb_false.
Qed.

Lemma double_to_int_in_int (x : R) : in_int (double_to_int x).
Proof.
  unfold double_to_int, in_intb, in_int.
  destruct ((INT_MIN <=? Ztrunc x)%Z && (Ztrunc x <=? INT_MAX)%Z) eqn:E.
  - apply andb_prop in E. destruct E as [E1 E2].
    apply Z.leb_le in E1. apply Z.leb_le in E2. lia.
  - unfold INT_MIN, INT_MAX. lia.
Qed.

Lemma wrap_int_id (z : Z) : in_int z -> wrap_int z = z.
Proof.
  unfold in_int, wrap_int, INT_MIN, INT_MAX. intros H.
  rewrite Z.mod_small; lia.
Qed.

Lemma wrap_int_in_int (z : Z) : in_int (wrap_int z).
Proof.
  unfold in_int, wrap_int, INT_MIN, INT_MAX.
  pose proof (Z.mod_pos_bound (z - -2147483648) 4294967296). lia.
Qed.

Lemma Rmax_IZR (a b : Z) : Rmax (IZR a) (IZR b) = IZR (Z.max a b).
Proof.
  unfold Rmax. destruct (Rle_dec (IZR a) (IZR b)) as [H|H].
  - apply le_IZR in H. now rewrite Z.max_r.
  - rewrite Z.max_l; [reflexivity|].
    apply Z.lt_le_incl. apply lt_IZR. lra.
Qed.

Lemma Zceil_pos (x : R) : (0 < x)%R -> (1 <= Zceil x)%Z.
Proof.
  intros H. pose proof (Zceil_bound x) as [_ Hb].
  assert (0 < IZR (Zceil x))%R as Hc by lra.
  apply lt_IZR in Hc. lia.
Qed.

(** ** Fine-grid parameters *)


Lemma panels_t_le_om (q : R) : (1 <= panels_t q <= panels_om q)%Z.
Proof. unfold panels_t, panels_om. lia. Qed.

Lemma fineparams_ctor_throws_lambda (log2q : R -> R) (lambda : R) (p : Z) :
  (lambda <= 0)%R -> fineparams_ctor log2q lambda p = Throw "Choose lambda > 0.".
Proof.
  intros H. unfold fineparams_ctor.
  destruct (Rle_dec lambda 0); [reflexivity|contradiction].
Qed.

Lemma fineparams_ctor_throws_p (log2q : R -> R) (lambda : R) (p : Z) :
  (0 < lambda)%R -> (p <= 0)%Z ->
  fineparams_ctor log2q lambda p = Throw "Choose p > 0.".
Proof.
  intros Hl Hp. unfold fineparams_ctor.
  destruct (Rle_dec lambda 0); [exfalso; lra|].
  apply Z.leb_le in Hp. now rewrite Hp.
Qed.

Lemma fineparams_ctor_ok (log2q : R -> R) (lambda : R) (p : Z) :
  (0 < lambda)%R -> (0 < p)%Z ->
  fineparams_ctor log2q lambda p =
  Ok (mk_fineparams lambda p
        (Z.max (double_to_int (ceil lambda)) 20)
        (double_to_int (Rmax (ceil (log2q lambda)) 1))
        (double_to_int (Rmax (ceil (log2q lambda) - 2) 1))
        (int_mul (int_mul 2 p) (double_to_int (Rmax (ceil (log2q lambda)) 1)))
        (int_mul (int_mul 2 p)
           (double_to_int (Rmax (ceil (log2q lambda) - 2) 1)))).
Proof.
  intros Hl Hp. unfold fineparams_ctor.
  destruct (Rle_dec lambda 0); [exfalso; lra|].
  apply Z.leb_gt in Hp. now rewrite Hp.
Qed.

(** C6, as amended. Let [q] be the [double] that [log(lambda) / log(2.0)]
    evaluates to.  For every cutoff [lambda > 0] whose ceiling is an [int]
    and every panel order [p > 0] for which [2 p max(ceil q, 1)] is an
    [int], the constructor sets [nmax = max(ceil lambda, 20)],
    [npom = max(ceil q, 1)], [npt = max(ceil q - 2, 1)], [nom = 2 p npom]
    and [nt = 2 p npt]; the default panel order is 24. *)
Theorem fineparams_fields (log2q : R -> R) (lambda : R) (p : Z) :
  (0 < lambda)%R -> (Zceil lambda <= INT_MAX)%Z ->
  (0 < p)%Z -> (2 * p * panels_om (log2q lambda) <= INT_MAX)%Z ->
  fineparams_ctor log2q lambda p =
    Ok (mk_fineparams lambda p
          (Z.max (Zceil lambda) 20)
          (panels_om (log2q lambda))
          (panels_t (log2q lambda))
          (2 * p * panels_om (log2q lambda))
          (2 * p * panels_t (log2q lambda)))
  /\ default_p = 24%Z.
Proof.
  intros Hl Hc Hp Hn. split; [|reflexivity].
  rewrite fineparams_ctor_ok by assumption.
  set (q := log2q lambda) in *.
  pose proof (Zceil_pos Hl) as Hc1.
  pose proof (panels_t_le_om q) as [Ht1 Ht2].
  assert (in_int (Zceil lambda)) as Hin1
      by (unfold in_int, INT_MIN, INT_MAX in *; lia).
  assert (panels_om q <= INT_MAX)%Z as Hom by nia.
  assert (in_int (panels_om q)) as Hin2
      by (unfold in_int, INT_MIN, INT_MAX in *; lia).
  assert (in_int (panels_t q)) as Hin3
      by (unfold in_int, INT_MIN, INT_MAX in *; lia).
  assert (in_int (2 * p)) as Hin4
      by (unfold in_int, INT_MIN, INT_MAX in *; nia).
  assert (in_int (2 * p * panels_om q)) as Hin5
      by (unfold in_int, INT_MIN, INT_MAX in *; nia).
  assert (in_int (2 * p * panels_t q)) as Hin6
      by (unfold in_int, INT_MIN, INT_MAX in *; nia).
  assert (double_to_int (ceil lambda) = Zceil lambda) as E1
      by (unfold ceil; now apply double_to_int_IZR).
  assert (double_to_int (Rmax (ceil q) 1) = panels_om q) as E2.
  { unfold ceil. rewrite Rmax_IZR. now apply double_to_int_IZR. }
  assert (double_to_int (Rmax (ceil q - 2) 1) = panels_t q) as E3.
  { unfold ceil. rewrite <- minus_IZR, Rmax_IZR. now apply double_to_int_IZR. }
  rewrite E1, E2, E3. unfold int_mul.
  rewrite (wrap_int_id Hin4), (wrap_int_id Hin5), (wrap_int_id Hin6).
  reflexivity.
Qed.

Lemma ln_2_pos : (0 < ln 2)%R.
Proof. rewrite <- ln_1. apply ln_increasing; lra. Qed.

Lemma log2_exact_pow (n : nat) : log2_exact (2 ^ n) = INR n.
Proof.
  unfold log2_exact. rewrite ln_pow by lra.
  pose proof ln_2_pos. field. lra.
Qed.

Lemma log2_exact_le_pow (x : R) (n : nat) :
  (0 < x <= 2 ^ n)%R -> (log2_exact x <= INR n)%R.
Proof.
  intros [H0 Hx]. rewrite <- (log2_exact_pow n). unfold log2_exact.
  pose proof ln_2_pos as H2.
  apply Rmult_le_compat_r; [left; now apply Rinv_0_lt_compat|].
  destruct Hx as [Hx|Hx]; [left; now apply ln_increasing | rewrite Hx; lra].
Qed.

Lemma fineparams_fields_witness :
  fineparams_ctor log2_exact 1000 24 =
    Ok (mk_fineparams 1000 24
          (Z.max (Zceil 1000) 20)
          (panels_om (log2_exact 1000))
          (panels_t (log2_exact 1000))
          (2 * 24 * panels_om (log2_exact 1000))
          (2 * 24 * panels_t (log2_exact 1000)))
  /\ default_p = 24%Z.
Proof.
  assert (Zceil (log2_exact 1000) <= 10)%Z as Hlog.
  { assert (log2_exact 1000 <= 10)%R as Hq.
    { assert (log2_exact 1000 <= INR 10)%R as H
          by (apply log2_exact_le_pow; simpl; lra).
      simpl in H. lra. }
    rewrite <- (Zceil_IZR 10). now apply Zceil_le. }
  apply fineparams_fields.
  - lra.
  - rewrite (Zceil_IZR 1000). unfold INT_MAX. lia.
  - lia.
  - unfold panels_om, INT_MAX. lia.
Defined.

(** C6, the claim as stated fails in two ways.  The number of panels is the
    ceiling of the quotient that [double] arithmetic computes, not of
    [log2 lambda]: at [lambda = 2^29], where that quotient is
    [29.000000000000004], the field [npom] holds 30 and [npt] holds 28,
    while [max(ceil(log2 lambda), 1) = 29] and
    [max(ceil(log2 lambda) - 2, 1) = 27].  And where the ceiling of
    [lambda] is not an [int] the field [nmax] does not hold it: at
    [lambda = 2^31] it holds 20, not [max(ceil lambda, 20) = 2^31], a value
    that no [int] holds. *)
Lemma fineparams_nmax_not_ceiling :
  (exists fp,
      fineparams_ctor (fun _ => 29.000000000000004%R) 536870912 24 = Ok fp /\
      fp_npom fp = 30%Z /\ fp_npt fp = 28%Z) /\
  panels_om (log2_exact 536870912) = 29%Z /\
  panels_t (log2_exact 536870912) = 27%Z /\
  (exists fp, fineparams_ctor log2_exact 2147483648 24 = Ok fp /\
              fp_nmax fp = 20%Z) /\
  Z.max (Zceil 2147483648) 20 = 2147483648%Z /\
  ~ in_int (Z.max (Zceil 2147483648) 20).
Proof.
  assert (Zceil 29.000000000000004 = 30%Z) as Hq.
  { apply Zceil_eq. lra. }
  assert (log2_exact 536870912 = 29%R) as Hlog.
  { replace 536870912%R with (2 ^ 29)%R by (simpl; lra).
    rewrite log2_exact_pow. simpl. lra. }
  split; [|split; [|split; [|split; [|split]]]].
  - eexists. split; [|split].
    + apply fineparams_ctor_ok; [lra|lia].
    + cbn [fp_npom]. unfold ceil. rewrite Hq, Rmax_IZR.
      rewrite double_to_int_IZR by (unfold in_int, INT_MIN, INT_MAX; lia).
      reflexivity.
    + cbn [fp_npt]. unfold ceil. rewrite Hq, <- minus_IZR, Rmax_IZR.
      rewrite double_to_int_IZR by (unfold in_int, INT_MIN, INT_MAX; lia).
      reflexivity.
  - unfold panels_om. rewrite Hlog, (Zceil_IZR 29). reflexivity.
  - unfold panels_t. rewrite Hlog, (Zceil_IZR 29). reflexivity.
  - eexists. split.
    + apply fineparams_ctor_ok; [lra|lia].
    + cbn [fp_nmax]. unfold ceil. rewrite (Zceil_IZR 2147483648).
      rewrite double_to_int_above by (unfold INT_MAX; lia).
      reflexivity.
  - rewrite (Zceil_IZR 2147483648). reflexivity.
  - rewrite (Zceil_IZR 2147483648). unfold in_int, INT_MIN, INT_MAX. lia.
Qed.

(** ** Outcomes *)

Lemma throws_Throw {A : Type} (w : string) : throws (@Throw A w).
Proof. now exists w. Qed.

Lemma not_throws_Ok {A : Type} (a : A) : ~ throws (Ok a).
Proof. intros [w Hw]. discriminate. Qed.

Lemma not_throws_Abort {A : Type} (w : string) : ~ throws (@Abort A w).
Proof. intros [w' Hw]. discriminate. Qed.

Lemma not_throws_bind {A B : Type} (m : result A) (k : A -> result B) :
  ~ throws m -> (forall a, ~ throws (k a)) -> ~ throws (bind m k).
Proof.
  intros Hm Hk. destruct m as [a|w|w]; simpl.
  - apply Hk.
  - exfalso. apply Hm. apply throws_Throw.
  - apply not_throws_Abort.
Qed.

Lemma not_throws_at {U : Type} (v : list U) (i : nat) : ~ throws (at_ v i).
Proof.
  unfold at_. destruct (nth_error v i).
  - apply not_throws_Ok.
  - apply not_throws_Abort.
Qed.

Lemma not_throws_for_each {A B : Type} (f : A -> result B) (l : list A) :
  (forall x, ~ throws (f x)) -> ~ throws (for_each f l).
Proof.
  intros Hf. induction l as [|x l IH]; simpl.
  - apply not_throws_Ok.
  - apply not_throws_bind; [apply Hf|]. intros y.
    apply not_throws_bind; [exact IH|]. intros ys. apply not_throws_Ok.
Qed.

Lemma not_throws_check_extent {T : Type} (p : Z) (x : list T) :
  ~ throws (check_extent p x).
Proof.
  unfold check_extent. destruct (length x =? Z.to_nat p).
  - apply not_throws_Ok.
  - apply not_throws_Abort.
Qed.

(** ** Serialisation *)

(** C8, as amended. Serialising an [imfreq_ops] object writes a subgroup
    whose format tag is the string "cppdlr::imfreq_ops" (the value of
    [hdf5_format]), alongside the fields [lambda], [statistic], [rf], [if],
    [cf2if], [if2cf_lu] and [if2cf_piv], holding what the accessors return. *)
Theorem h5_write_subgroup (fg : h5_group) (name : string) (m : imfreq_ops) :
  h5_open_group (h5_write fg name m) name =
    Some (H5_group (Some "cppdlr::imfreq_ops"%string)
            [("lambda"%string, H5_double (lambda m));
             ("statistic"%string, H5_int (statistic_int (get_statistic m)));
             ("rf"%string, H5_doubles (get_rfnodes m));
             ("if"%string, H5_ints (get_ifnodes m));
             ("cf2if"%string, H5_complex_matrix (get_cf2if m));
             ("if2cf_lu"%string, H5_complex_matrix (get_if2cf_lu m));
             ("if2cf_piv"%string, H5_ints (get_if2cf_piv m))]
            [])
  /\ hdf5_format = "cppdlr::imfreq_ops"%string.
Proof.
  split; [|reflexivity].
  unfold h5_open_group, h5_write, h5_attach. cbn [h5_subgroups].
  rewrite rev_app_distr. cbn [rev app find fst snd].
  rewrite String.eqb_refl. reflexivity.
Qed.


(** C8, the claim as stated fails: the tag written is not "dlr::imfreq_ops". *)
Lemma h5_write_tag_is_not_dlr :
  (exists g, h5_open_group (h5_write h5_empty_group "ops"%string sample_ops) "ops"%string = Some g
             /\ h5_format g = Some "cppdlr::imfreq_ops"%string)
  /\ "cppdlr::imfreq_ops"%string <> "dlr::imfreq_ops"%string.
Proof.
  split.
  - eexists. split.
    + unfold h5_open_group, h5_write, h5_attach. cbn [h5_subgroups h5_empty_group].
      cbn [rev app find fst snd]. rewrite String.eqb_refl. reflexivity.
    + reflexivity.
  - discriminate.
Qed.

(** ** Rejected arguments *)

Lemma fineparams_default_throws (log2q : R -> R) (lam : R) :
  (lam <= 0)%R -> fineparams_default log2q lam = Throw "Choose lambda > 0.".
Proof. apply fineparams_ctor_throws_lambda. Qed.

Lemma fineparams_default_ok (log2q : R -> R) (lam : R) :
  (0 < lam)%R -> exists fine, fineparams_default log2q lam = Ok fine.
Proof.
  intros H. eexists. unfold fineparams_default.
  apply fineparams_ctor_ok; [exact H|unfold default_p; lia].
Qed.

Lemma build_dlr_rf_no_throw (E : externals) (lam eps : R) (sym : bool) :
  (0 < lam)%R -> ~ throws (snd (build_dlr_rf E lam eps sym)).
Proof.
  intros Hl. unfold build_dlr_rf. cbn [snd].
  destruct (fineparams_default_ok (ext_log2 E) Hl) as [fine Hf].
  rewrite Hf. cbn [bind].
  apply not_throws_bind.
  { unfold build_it_fine.
    apply not_throws_bind; [apply not_throws_check_extent|]. intros _.
    apply not_throws_bind; [apply not_throws_check_extent|]. intros _.
    apply not_throws_Ok. }
  intros tw. apply not_throws_bind.
  { unfold build_rf_fine.
    apply not_throws_bind; [apply not_throws_check_extent|]. intros _.
    apply not_throws_Ok. }
  intros om.
  destruct (if sym then _ else _) as [[q norms] piv].
  apply not_throws_for_each. intros i.
  apply not_throws_bind; [apply not_throws_at|]. intros p. apply not_throws_at.
Qed.

(** C4, as amended. [fineparams] throws a runtime error for [lambda <= 0]
    or [p <= 0]; so do [build_dlr_rf] and the [imfreq_ops] constructor for
    [lambda <= 0], and they deliver no object.  [build_dlr_rf] makes no
    check of [eps]: for [lambda > 0] it throws no runtime error whatever
    [eps] is, and for [eps < 1e-14] it writes a warning and goes on. *)
Theorem construction_rejects_bad_cutoff :
  (forall log2q lam p, (lam <= 0)%R \/ (p <= 0)%Z ->
     throws (fineparams_ctor log2q lam p)) /\
  (forall E lam eps sym, (lam <= 0)%R ->
     snd (build_dlr_rf E lam eps sym) = Throw "Choose lambda > 0."%string) /\
  (forall E lam rf stat sym, (lam <= 0)%R ->
     imfreq_ops_ctor E lam rf stat sym = Throw "Choose lambda > 0.") /\
  (forall E lam eps sym, (0 < lam)%R ->
     ~ throws (snd (build_dlr_rf E lam eps sym)) /\
     ((eps < 1e-14)%R -> fst (build_dlr_rf E lam eps sym) = [eps_warning])).
Proof.
  repeat split.
  - intros log2q lam p [Hl|Hp].
    + rewrite fineparams_ctor_throws_lambda by exact Hl. apply throws_Throw.
    + destruct (Rle_dec lam 0) as [Hl|Hl].
      * rewrite fineparams_ctor_throws_lambda by exact Hl. apply throws_Throw.
      * rewrite fineparams_ctor_throws_p by (try lra; exact Hp).
        apply throws_Throw.
  - intros E lam eps sym Hl. unfold build_dlr_rf. cbn [snd].
    now rewrite fineparams_default_throws.
  - intros E lam rf stat sym Hl. unfold imfreq_ops_ctor.
    now rewrite fineparams_default_throws.
  - now apply build_dlr_rf_no_throw.
  - intros He. unfold build_dlr_rf. cbn [fst].
    destruct (Rlt_dec eps 1e-14); [reflexivity|contradiction].
Qed.

(** C4, the claim as stated fails: with [lambda = 1] and [eps = 2], which is
    not in the open interval (0,1), [build_dlr_rf] throws no runtime error. *)
Lemma build_dlr_rf_accepts_eps_2 :
  ~ (0 < 2 < 1)%R /\
  (forall E sym, ~ throws (snd (build_dlr_rf E 1 2 sym))) /\
  (forall E sym, fst (build_dlr_rf E 1 2 sym) = []).
Proof.
  split; [lra|]. split.
  - intros E sym. apply build_dlr_rf_no_throw. lra.
  - intros E sym. unfold build_dlr_rf. cbn [fst].
    destruct (Rlt_dec 2 1e-14) as [H|H]; [exfalso; lra|reflexivity].
Qed.

(** ** Rows, chunks and transposes *)

Section MatrixFacts.
Context {T : Type} `{Scalar T}.

Lemma chunks_length (n k : nat) (l : list T) : length (chunks n k l) = k.
Proof.
  revert l. induction k as [|k IH]; intros l; simpl; [reflexivity|].
  now rewrite IH.
Qed.

Lemma chunks_row_length (n k : nat) (l : list T) :
  length l = k * n -> Forall (fun row => length row = n) (chunks n k l).
Proof.
  revert l. induction k as [|k IH]; intros l Hl; simpl; constructor.
  - rewrite length_firstn. simpl in Hl. lia.
  - apply IH. rewrite length_skipn. simpl in Hl. lia.
Qed.

Lemma concat_chunks (n k : nat) (l : list T) :
  length l = k * n -> concat (chunks n k l) = l.
Proof.
  revert l. induction k as [|k IH]; intros l Hl; simpl.
  - simpl in Hl. symmetry. now apply length_zero_iff_nil.
  - rewrite IH.
    + apply firstn_skipn.
    + rewrite length_skipn. simpl in Hl. lia.
Qed.

Lemma chunks_concat (n : nat) (rs : list (list T)) :
  Forall (fun row => length row = n) rs ->
  chunks n (length rs) (concat rs) = rs.
Proof.
  induction 1 as [|row rs Hrow _ IH]; simpl; [reflexivity|].
  rewrite firstn_app, skipn_app, Hrow, Nat.sub_diag. simpl.
  rewrite firstn_all2 by lia. rewrite skipn_all2 by lia.
  rewrite app_nil_r. simpl. now rewrite IH.
Qed.

Lemma chunks_map {U : Type} (f : T -> U) (n k : nat) (l : list T) :
  chunks n k (map f l) = map (map f) (chunks n k l).
Proof.
  revert l. induction k as [|k IH]; intros l; simpl; [reflexivity|].
  now rewrite firstn_map, skipn_map, IH.
Qed.

Lemma rows_matrix_of_rows (n : nat) (rs : list (list T)) :
  Forall (fun row => length row = n) rs -> rows (matrix_of_rows n rs) = rs.
Proof. intros Hrs. unfold rows, matrix_of_rows. simpl. now apply chunks_concat. Qed.

Lemma length_concat_rows (n : nat) (rs : list (list T)) :
  Forall (fun row => length row = n) rs -> length (concat rs) = length rs * n.
Proof.
  induction 1 as [|row rs Hrow _ IH]; simpl; [reflexivity|].
  rewrite length_app, IH, Hrow. reflexivity.
Qed.

Lemma wf_matrix_of_rows (n : nat) (rs : list (list T)) :
  Forall (fun row => length row = n) rs -> wf_matrix (matrix_of_rows n rs).
Proof.
  intros Hrs. split; [reflexivity|].
  unfold matrix_of_rows, nrows, ncols. simpl. now apply length_concat_rows.
Qed.

Lemma rows_length (a : array T) : length (rows a) = nrows a.
Proof. unfold rows. apply chunks_length. Qed.

Lemma rows_row_length (a : array T) :
  wf_matrix a -> Forall (fun row => length row = ncols a) (rows a).
Proof. intros [_ Hd]. unfold rows. now apply chunks_row_length. Qed.

Lemma concat_rows (a : array T) : wf_matrix a -> concat (rows a) = data a.
Proof. intros [_ Hd]. unfold rows. now apply concat_chunks. Qed.


Lemma mat_ext (m n : nat) (rs1 rs2 : list (list T)) :
  length rs1 = m -> length rs2 = m ->
  Forall (fun row => length row = n) rs1 ->
  Forall (fun row => length row = n) rs2 ->
  (forall i j, i < m -> j < n -> mget rs1 i j = mget rs2 i j) ->
  rs1 = rs2.
Proof.
  intros L1 L2 F1 F2 Hget.
  apply (nth_ext rs1 rs2 [] []); [lia|].
  intros i Hi.
  assert (length (nth i rs1 []) = n) as R1.
  { rewrite Forall_forall in F1. apply F1. apply nth_In. lia. }
  assert (length (nth i rs2 []) = n) as R2.
  { rewrite Forall_forall in F2. apply F2. apply nth_In. lia. }
  apply (nth_ext _ _ szero szero); [lia|].
  intros j Hj. apply Hget; lia.
Qed.

Lemma transpose_rows_length (n : nat) (rs : list (list T)) :
  length (transpose_rows n rs) = n.
Proof. unfold transpose_rows. now rewrite length_map, length_seq. Qed.

Lemma transpose_rows_row_length (n : nat) (rs : list (list T)) :
  Forall (fun row => length row = length rs) (transpose_rows n rs).
Proof.
  unfold transpose_rows. apply Forall_forall. intros row Hin.
  apply in_map_iff in Hin. destruct Hin as [j [<- _]]. now rewrite length_map.
Qed.

Lemma nth_transpose_rows (n : nat) (rs : list (list T)) (j : nat) :
  j < n -> nth j (transpose_rows n rs) [] = map (fun row => nth j row szero) rs.
Proof.
  intros Hj. unfold transpose_rows.
  rewrite (nth_indep _ [] (map (fun row => nth 0 row szero) rs))
    by (now rewrite length_map, length_seq).
  rewrite (map_nth (fun j => map (fun row => nth j row szero) rs) (seq 0 n) 0 j).
  now rewrite seq_nth.
Qed.

Lemma mget_transpose_rows (n : nat) (rs : list (list T)) (i j : nat) :
  i < n -> mget (transpose_rows n rs) i j = mget rs j i.
Proof.
  intros Hi. unfold mget. rewrite nth_transpose_rows by exact Hi.
  destruct (Nat.lt_ge_cases j (length rs)) as [Hj|Hj].
  - rewrite (nth_indep _ szero (nth i [] szero)) by (now rewrite length_map).
    now rewrite (map_nth (fun row => nth i row szero) rs [] j).
  - rewrite nth_overflow by (now rewrite length_map).
    rewrite (nth_overflow rs) by exact Hj. now destruct i.
Qed.

Lemma transpose_rows_involutive (n : nat) (rs : list (list T)) :
  Forall (fun row => length row = n) rs ->
  transpose_rows (length rs) (transpose_rows n rs) = rs.
Proof.
  intros Hrs. apply (@mat_ext (length rs) n).
  - apply transpose_rows_length.
  - reflexivity.
  - pose proof (transpose_rows_row_length (length rs) (transpose_rows n rs)) as F.
    now rewrite transpose_rows_length in F.
  - exact Hrs.
  - intros i j Hi Hj. rewrite mget_transpose_rows by exact Hi.
    now apply mget_transpose_rows.
Qed.

Lemma transpose_rows_map {U : Type} `{Scalar U} (f : T -> U) (n : nat)
      (rs : list (list T)) :
  f szero = szero ->
  transpose_rows n (map (map f) rs) = map (map f) (transpose_rows n rs).
Proof.
  intros Hf. unfold transpose_rows. rewrite map_map. apply map_ext.
  intros j. rewrite !map_map. apply map_ext. intros row.
  rewrite <- Hf. apply map_nth.
Qed.

Lemma rows_transpose (a : array T) :
  rows (transpose a) = transpose_rows (ncols a) (rows a).
Proof.
  unfold transpose. apply rows_matrix_of_rows.
  pose proof (transpose_rows_row_length (ncols a) (rows a)) as F.
  now rewrite rows_length in F.
Qed.

Lemma shape_transpose (a : array T) : shape (transpose a) = [ncols a; nrows a].
Proof.
  unfold transpose, matrix_of_rows. simpl. now rewrite transpose_rows_length.
Qed.

Lemma wf_transpose (a : array T) : wf_matrix (transpose a).
Proof.
  unfold transpose. apply wf_matrix_of_rows.
  pose proof (transpose_rows_row_length (ncols a) (rows a)) as F.
  now rewrite rows_length in F.
Qed.

End MatrixFacts.

(** ** Complex arithmetic *)

Lemma dcomplex_eq (a b : dcomplex) : fst a = fst b -> snd a = snd b -> a = b.
Proof. destruct a, b. simpl. intros -> ->. reflexivity. Qed.

Ltac csimpl :=
  unfold Cadd, Csub, Cmul, Copp, Cscale, Cmul_real, Cdiv_real, Csub_real, RtoC,
    C0, C1, Ci in *; simpl fst in *; simpl snd in *.

Ltac cring := intros; apply dcomplex_eq; csimpl; ring.

Lemma Cadd_comm (a b : dcomplex) : Cadd a b = Cadd b a.
Proof. cring. Qed.

Lemma Cadd_assoc (a b c : dcomplex) : Cadd a (Cadd b c) = Cadd (Cadd a b) c.
Proof. cring. Qed.

Lemma Cadd_0_l (a : dcomplex) : Cadd C0 a = a.
Proof. cring. Qed.

Lemma Cadd_0_r (a : dcomplex) : Cadd a C0 = a.
Proof. cring. Qed.

Lemma Cmul_comm (a b : dcomplex) : Cmul a b = Cmul b a.
Proof. cring. Qed.

Lemma Cmul_assoc (a b c : dcomplex) : Cmul a (Cmul b c) = Cmul (Cmul a b) c.
Proof. cring. Qed.

Lemma Cmul_1_l (a : dcomplex) : Cmul C1 a = a.
Proof. cring. Qed.

Lemma Cmul_0_l (a : dcomplex) : Cmul C0 a = C0.
Proof. cring. Qed.

Lemma Cmul_0_r (a : dcomplex) : Cmul a C0 = C0.
Proof. cring. Qed.

Lemma Cmul_add_distr_r (a b c : dcomplex) :
  Cmul (Cadd a b) c = Cadd (Cmul a c) (Cmul b c).
Proof. cring. Qed.

Lemma Cmul_add_distr_l (a b c : dcomplex) :
  Cmul a (Cadd b c) = Cadd (Cmul a b) (Cmul a c).
Proof. cring. Qed.

Lemma Csub_def (a b : dcomplex) : Csub a b = Cadd a (Copp b).
Proof. cring. Qed.

Lemma Cadd_opp_r (a : dcomplex) : Cadd a (Copp a) = C0.
Proof. cring. Qed.

Lemma dcomplex_ring : ring_theory C0 C1 Cadd Cmul Csub Copp eq.
Proof.
  constructor.
  - exact Cadd_0_l.
  - exact Cadd_comm.
  - exact Cadd_assoc.
  - exact Cmul_1_l.
  - exact Cmul_comm.
  - exact Cmul_assoc.
  - exact Cmul_add_distr_r.
  - exact Csub_def.
  - exact Cadd_opp_r.
Qed.

Add Ring dcomplex_ring_inst : dcomplex_ring.

Lemma Cscale_mul (x : R) (a : dcomplex) : Cscale x a = Cmul (RtoC x) a.
Proof. cring. Qed.

Lemma Cscale_add (x : R) (a b : dcomplex) :
  Cscale x (Cadd a b) = Cadd (Cscale x a) (Cscale x b).
Proof. cring. Qed.

Lemma Cscale_mul_r (x : R) (a b : dcomplex) :
  Cmul a (Cscale x b) = Cscale x (Cmul a b).
Proof. cring. Qed.

Lemma Cscale_0 (x : R) : Cscale x C0 = C0.
Proof. cring. Qed.

Lemma Cscale_div_real (x : R) (a : dcomplex) :
  x <> 0%R -> Cscale x (Cdiv_real a x) = a.
Proof.
  intros Hx. apply dcomplex_eq; csimpl; field; exact Hx.
Qed.

Lemma Cnorm2_pos (a : dcomplex) : a <> C0 -> (0 < Cnorm2 a)%R.
Proof.
  intros Ha. unfold Cnorm2. destruct a as [x y]. simpl.
  destruct (Req_dec x 0) as [Hx|Hx].
  - destruct (Req_dec y 0) as [Hy|Hy].
    + exfalso. apply Ha. subst. reflexivity.
    + assert (0 < y * y)%R by nra. nra.
  - assert (0 < x * x)%R by nra. nra.
Qed.

Lemma Cmul_inv_r (a : dcomplex) : a <> C0 -> Cmul a (Cinv a) = C1.
Proof.
  intros Ha. pose proof (Cnorm2_pos Ha) as Hn.
  apply dcomplex_eq; unfold Cinv, Cmul, C1, RtoC; simpl;
    unfold Cnorm2 in *; field; lra.
Qed.

Lemma Cdiv_mul_cancel (a b : dcomplex) : b <> C0 -> Cmul (Cdiv a b) b = a.
Proof.
  intros Hb. unfold Cdiv.
  replace (Cmul (Cmul a (Cinv b)) b) with (Cmul a (Cmul b (Cinv b))) by ring.
  rewrite Cmul_inv_r by exact Hb. ring.
Qed.

(** ** Sums of products *)

Notation "'cdot'" := (@dot dcomplex C_Scalar).

Lemma fold_dot_acc (l : list (dcomplex * dcomplex)) (acc : dcomplex) :
  fold_left (fun acc ab => Cadd acc (Cmul (fst ab) (snd ab))) l acc =
  Cadd acc (fold_left (fun acc ab => Cadd acc (Cmul (fst ab) (snd ab))) l C0).
Proof.
  revert acc. induction l as [|ab l IH]; intros acc; simpl.
  - ring.
  - rewrite IH. rewrite (IH (Cadd C0 _)). ring.
Qed.

Lemma dot_nil_l (v : list dcomplex) : cdot [] v = C0.
Proof. reflexivity. Qed.

Lemma dot_nil_r (u : list dcomplex) : cdot u [] = C0.
Proof. unfold dot. now rewrite combine_nil. Qed.

Lemma dot_cons (a b : dcomplex) (u v : list dcomplex) :
  cdot (a :: u) (b :: v) = Cadd (Cmul a b) (cdot u v).
Proof.
  unfold dot. simpl. rewrite fold_dot_acc. ring.
Qed.

Lemma dot_comm (u v : list dcomplex) : cdot u v = cdot v u.
Proof.
  revert v. induction u as [|a u IH]; intros [|b v].
  - reflexivity.
  - now rewrite dot_nil_r.
  - now rewrite dot_nil_r.
  - rewrite !dot_cons, IH. ring.
Qed.

Lemma dot_scale_r (x : R) (u v : list dcomplex) :
  cdot u (map (Cscale x) v) = Cscale x (cdot u v).
Proof.
  revert v. induction u as [|a u IH]; intros [|b v]; simpl map.
  - rewrite dot_nil_l. now rewrite Cscale_0.
  - rewrite !dot_nil_l. now rewrite Cscale_0.
  - rewrite !dot_nil_r. now rewrite Cscale_0.
  - rewrite !dot_cons, IH, Cscale_add, Cscale_mul_r. reflexivity.
Qed.

Lemma dot_app (u1 u2 v1 v2 : list dcomplex) :
  length u1 = length v1 ->
  cdot (u1 ++ u2) (v1 ++ v2) = Cadd (cdot u1 v1) (cdot u2 v2).
Proof.
  revert v1. induction u1 as [|a u1 IH]; intros [|b v1] Hl; simpl in Hl;
    try discriminate.
  - simpl. rewrite dot_nil_l. ring.
  - simpl app. rewrite !dot_cons, IH by lia. ring.
Qed.

Lemma fold_left_ext_in {A B : Type} (f g : A -> B -> A) (l : list B) (a : A) :
  (forall a x, In x l -> f a x = g a x) -> fold_left f l a = fold_left g l a.
Proof.
  revert a. induction l as [|x l IH]; intros a Hfg; simpl; [reflexivity|].
  rewrite Hfg by now left. apply IH. intros a' y Hy. apply Hfg. now right.
Qed.

Lemma firstn_succ_nth {A : Type} (n : nat) (l : list A) (d : A) :
  n < length l -> firstn (S n) l = firstn n l ++ [nth n l d].
Proof.
  revert l. induction n as [|n IH]; intros [|x l] Hl; simpl in Hl; try lia.
  - reflexivity.
  - cbn [firstn nth app]. f_equal. apply IH. lia.
Qed.

(** The loop [for l < n: g += k(l) * x(l)] is the sum of products. *)
Lemma fold_seq_dot (k x : list dcomplex) (n : nat) :
  n <= length k -> n <= length x ->
  fold_left (fun g l => Cadd g (Cmul (nth l k C0) (nth l x C0))) (seq 0 n) C0 =
  cdot (firstn n k) (firstn n x).
Proof.
  induction n as [|n IH]; intros Hk Hx.
  - reflexivity.
  - rewrite seq_S, fold_left_app, IH by lia. cbn [fold_left Nat.add].
    rewrite (firstn_succ_nth k C0), (firstn_succ_nth x C0) by lia.
    rewrite dot_app by (rewrite !length_firstn; lia).
    rewrite dot_cons, dot_nil_l. ring.
Qed.

(** ** Loops *)

Lemma bind_Ok_inv {A B : Type} (m : result A) (k : A -> result B) (b : B) :
  bind m k = Ok b -> exists a, m = Ok a /\ k a = Ok b.
Proof.
  destruct m as [a|w|w]; simpl; intros Hb; try discriminate.
  now exists a.
Qed.

Lemma for_each_Forall2 {A B : Type} (f : A -> result B) (l : list A)
      (ys : list B) :
  for_each f l = Ok ys <-> Forall2 (fun x y => f x = Ok y) l ys.
Proof.
  revert ys. induction l as [|x l IH]; intros ys; simpl.
  - split.
    + intros Hy. inversion Hy. constructor.
    + intros Hy. inversion Hy. reflexivity.
  - split.
    + intros Hy. apply bind_Ok_inv in Hy. destruct Hy as [y [Hfx Hy]].
      apply bind_Ok_inv in Hy. destruct Hy as [ys' [Hl Hy]].
      inversion Hy; subst. constructor; [exact Hfx|]. now apply IH.
    + intros Hy. inversion Hy as [|x' y l' ys' Hfx Hl]; subst.
      rewrite Hfx. simpl. apply IH in Hl. rewrite Hl. reflexivity.
Qed.

Lemma for_each_map {A B : Type} (f : A -> result B) (g : A -> B) (l : list A) :
  (forall x, In x l -> f x = Ok (g x)) -> for_each f l = Ok (map g l).
Proof.
  intros Hfg. apply for_each_Forall2. induction l as [|x l IH]; simpl.
  - constructor.
  - constructor.
    + apply Hfg. now left.
    + apply IH. intros y Hy. apply Hfg. now right.
Qed.

Lemma for_each_map_inv {A B : Type} (f : A -> result B) (g : A -> B)
      (l : list A) (ys : list B) :
  for_each f l = Ok ys -> (forall x y, In x l -> f x = Ok y -> y = g x) ->
  ys = map g l.
Proof.
  intros Hy Hg. apply for_each_Forall2 in Hy.
  induction Hy as [|x y l ys Hfx _ IH]; simpl; [reflexivity|].
  f_equal.
  - apply Hg; [now left|exact Hfx].
  - apply IH. intros x' y' Hin. apply Hg. now right.
Qed.

Lemma for_each_Ok_In {A B : Type} (f : A -> result B) (l : list A)
      (ys : list B) (x : A) :
  for_each f l = Ok ys -> In x l -> exists y, f x = Ok y.
Proof.
  intros Hy Hin. apply for_each_Forall2 in Hy.
  induction Hy as [|x' y l ys Hfx _ IH]; [contradiction|].
  destruct Hin as [->|Hin]; [now exists y|now apply IH].
Qed.

Lemma at_Ok {U : Type} (v : list U) (i : nat) (x : U) :
  at_ v i = Ok x <-> nth_error v i = Some x.
Proof.
  unfold at_. destruct (nth_error v i) as [y|].
  - split; intros Hx; inversion Hx; reflexivity.
  - split; intros Hx; discriminate.
Qed.

Lemma skipn_nth_error {U : Type} (v : list U) (s : nat) (p : U) :
  nth_error v s = Some p -> skipn s v = p :: skipn (S s) v.
Proof.
  revert v. induction s as [|s IH]; intros [|x v] Hp; simpl in Hp;
    try discriminate.
  - now inversion Hp.
  - simpl. now apply IH.
Qed.

Lemma indexed_loop_skipn {U B : Type} (v : list U) (g : U -> result B)
      (s n : nat) (ys : list B) :
  for_each (fun i => p <- at_ v i ;; g p) (seq s n) = Ok ys ->
  (n = 0 \/ s + n <= length v) /\ for_each g (firstn n (skipn s v)) = Ok ys.
Proof.
  revert s ys. induction n as [|n IH]; intros s ys Hy.
  - simpl in Hy. split; [now left|]. exact Hy.
  - simpl in Hy. apply bind_Ok_inv in Hy. destruct Hy as [y [Hs Hy]].
    apply bind_Ok_inv in Hs. destruct Hs as [p [Hp Hgp]].
    apply bind_Ok_inv in Hy. destruct Hy as [ys' [Hl Hy]].
    apply at_Ok in Hp.
    destruct (IH _ _ Hl) as [Hn Hys'].
    assert (s < length v) as Hlt by (apply nth_error_Some; congruence).
    split; [right; lia|].
    rewrite (skipn_nth_error _ _ Hp). cbn [firstn for_each].
    rewrite Hgp. cbn [bind]. rewrite Hys'. exact Hy.
Qed.

(** A loop over the first [n] indices of a vector that ran without a
    violation read [n] elements of it. *)
Lemma indexed_loop_firstn {U B : Type} (v : list U) (g : U -> result B)
      (n : nat) (ys : list B) :
  for_each (fun i => p <- at_ v i ;; g p) (seq 0 n) = Ok ys ->
  n <= length v /\ for_each g (firstn n v) = Ok ys.
Proof.
  intros Hy. destruct (indexed_loop_skipn _ _ _ _ Hy) as [Hn Hys].
  split; [lia|exact Hys].
Qed.

Lemma indexed_loop_app {U B : Type} (g : U -> result B) (u w pre : list U) :
  for_each (fun i => p <- at_ (pre ++ u ++ w) i ;; g p)
           (seq (length pre) (length u)) = for_each g u.
Proof.
  revert pre. induction u as [|x u IH]; intros pre.
  - reflexivity.
  - cbn [length seq for_each]. unfold at_ at 1.
    rewrite nth_error_app2 by lia. rewrite Nat.sub_diag. cbn [nth_error app bind].
    replace (pre ++ x :: u ++ w) with ((pre ++ [x]) ++ u ++ w)
      by (now rewrite <- app_assoc).
    specialize (IH (pre ++ [x])).
    rewrite length_app in IH. simpl in IH.
    rewrite Nat.add_1_r in IH. rewrite IH. reflexivity.
Qed.

Lemma indexed_loop_firstn_conv {U B : Type} (v : list U) (g : U -> result B)
      (n : nat) :
  n <= length v ->
  for_each (fun i => p <- at_ v i ;; g p) (seq 0 n) = for_each g (firstn n v).
Proof.
  intros Hn.
  pose proof (indexed_loop_app g (firstn n v) (skipn n v) []) as Hg.
  simpl in Hg. rewrite firstn_skipn in Hg.
  rewrite length_firstn, Nat.min_l in Hg by exact Hn. exact Hg.
Qed.

(** ** The constructor *)

Lemma map_nth_seq {A B : Type} (f : A -> B) (l : list A) (d : A) :
  map (fun j => f (nth j l d)) (seq 0 (length l)) = map f l.
Proof.
  apply (nth_ext _ _ (f d) (f d)).
  - now rewrite !length_map, length_seq.
  - intros i Hi. rewrite length_map, length_seq in Hi.
    rewrite (nth_indep _ (f d) (f (nth 0 l d)))
      by (now rewrite length_map, length_seq).
    rewrite (map_nth (fun j => f (nth j l d)) (seq 0 (length l)) 0 i).
    rewrite seq_nth by exact Hi. simpl.
    rewrite (map_nth f l d i). reflexivity.
Qed.

Lemma build_k_if_rows (nmax : Z) (rf : list R) (stat : statistic_t) :
  rows (build_k_if nmax rf stat) =
  map (fun k => map (fun om => k_if_stat (Z.of_nat k - nmax) om stat) rf)
      (seq 0 (k_if_rows nmax stat)).
Proof.
  unfold build_k_if. fold (k_if_rows nmax stat).
  apply rows_matrix_of_rows. apply Forall_forall. intros row Hin.
  apply in_map_iff in Hin. destruct Hin as [k [<- _]]. now rewrite length_map.
Qed.

Lemma entry_build_k_if (nmax : Z) (rf : list R) (stat : statistic_t)
      (p j : nat) (x : dcomplex) :
  entry (build_k_if nmax rf stat) p j = Ok x ->
  x = k_if_stat (Z.of_nat p - nmax) (nth j rf 0%R) stat.
Proof.
  unfold entry. rewrite build_k_if_rows.
  rewrite nth_error_map, nth_error_seq.
  destruct (p <? k_if_rows nmax stat); [|discriminate].
  cbn [option_map Nat.add]. rewrite nth_error_map.
  destruct (nth_error rf j) as [om|] eqn:Hom; [|discriminate].
  cbn [option_map]. intros Hx. inversion Hx.
  now rewrite (nth_error_nth _ _ _ Hom).
Qed.

Lemma entry_build_k_if_Ok (nmax : Z) (rf : list R) (stat : statistic_t)
      (p j : nat) :
  p < k_if_rows nmax stat -> j < length rf ->
  entry (build_k_if nmax rf stat) p j =
  Ok (k_if_stat (Z.of_nat p - nmax) (nth j rf 0%R) stat).
Proof.
  intros Hp Hj. unfold entry. rewrite build_k_if_rows.
  rewrite nth_error_map, nth_error_seq.
  apply Nat.ltb_lt in Hp. rewrite Hp.
  cbn [option_map Nat.add]. rewrite nth_error_map.
  rewrite (nth_error_nth' rf 0%R Hj). reflexivity.
Qed.

Lemma Forall2_at {A B : Type} (P : A -> B -> Prop) (l1 : list A) (l2 : list B)
      (i : nat) (x : A) (y : B) :
  Forall2 P l1 l2 -> nth_error l1 i = Some x -> nth_error l2 i = Some y -> P x y.
Proof.
  intros HP. revert i. induction HP as [|a b l1 l2 Hab _ IH]; intros [|i] Hx Hy;
    simpl in Hx, Hy; try discriminate.
  - inversion Hx; inversion Hy; subst. exact Hab.
  - eapply IH; eassumption.
Qed.

Section ConstructorFacts.
Variable E : externals.

Lemma kernel_row_loop (kmat : array dcomplex) (nmax : Z) (rf : list R)
      (stat : statistic_t) (piv : list nat) (i p : nat) (row : list dcomplex) :
  kmat = build_k_if nmax rf stat ->
  nth_error piv i = Some p ->
  for_each (fun j => q <- at_ piv i ;; entry kmat q j) (seq 0 (length rf)) = Ok row ->
  row = map (fun om => k_if_stat (Z.of_nat p - nmax) om stat) rf.
Proof.
  intros -> Hp Hrow.
  rewrite <- (map_nth_seq (fun om => k_if_stat (Z.of_nat p - nmax) om stat) rf 0%R).
  eapply for_each_map_inv; [exact Hrow|].
  intros j y _ Hy. apply at_Ok in Hp. rewrite Hp in Hy. cbn [bind] in Hy.
  now apply entry_build_k_if in Hy.
Qed.

Lemma kernel_fill (nmax : Z) (rf : list R) (stat : statistic_t)
      (piv : list nat) (n : nat) (c2v : array dcomplex) :
  n <= length piv ->
  fill_matrix n (length rf)
    (fun i j => p <- at_ piv i ;; entry (build_k_if nmax rf stat) p j) = Ok c2v ->
  c2v = matrix_of_rows (length rf)
          (kernel_rows (map (fun p => (Z.of_nat p - nmax)%Z) (firstn n piv)) rf stat).
Proof.
  intros Hn Hfill. unfold fill_matrix in Hfill.
  apply bind_Ok_inv in Hfill. destruct Hfill as [rs [Hrs Hc]].
  inversion Hc; subst c2v. clear Hc. f_equal.
  unfold kernel_rows. rewrite map_map.
  apply for_each_Forall2 in Hrs.
  apply (nth_ext _ _ [] []).
  - apply Forall2_length in Hrs. rewrite length_seq in Hrs.
    rewrite length_map, length_firstn. lia.
  - intros i Hi.
    assert (i < n) as Hin.
    { apply Forall2_length in Hrs. rewrite length_seq in Hrs. lia. }
    assert (i < length piv) as Hip by lia.
    pose proof (nth_error_nth' piv 0 Hip) as Hp.
    assert (nth_error (firstn n piv) i = Some (nth i piv 0)) as Hpf.
    { rewrite nth_error_firstn. apply Nat.ltb_lt in Hin. now rewrite Hin. }
    rewrite (nth_error_nth _ _ _ (map_nth_error _ _ _ Hpf)).
    assert (nth_error rs i <> None) as Hrsi by (apply nth_error_Some; lia).
    destruct (nth_error rs i) as [row|] eqn:Hrow; [|congruence].
    rewrite (nth_error_nth _ _ _ Hrow).
    assert (nth_error (seq 0 n) i = Some i) as Hsi.
    { rewrite nth_error_seq. apply Nat.ltb_lt in Hin. now rewrite Hin. }
    eapply kernel_row_loop; [reflexivity|exact Hp|].
    exact (Forall2_at i Hrs Hsi Hrow).
Qed.

Lemma node_loop (piv : list nat) (nmax : Z) (n : nat) (nodes : list Z) :
  for_each (fun i => p <- at_ piv i ;; Ok (Z.of_nat p - nmax)%Z) (seq 0 n) = Ok nodes ->
  n <= length piv /\ nodes = map (fun p => (Z.of_nat p - nmax)%Z) (firstn n piv).
Proof.
  intros Hn. apply indexed_loop_firstn in Hn. destruct Hn as [Hle Hn].
  split; [exact Hle|].
  eapply for_each_map_inv; [exact Hn|].
  intros p y _ Hy. now inversion Hy.
Qed.

Lemma imfreq_ops_ctor_inv (lam : R) (rf : list R) (stat : statistic_t)
      (sym : bool) (op : imfreq_ops) :
  imfreq_ops_ctor E lam rf stat sym = Ok op ->
  exists fine,
    fineparams_default (ext_log2 E) lam = Ok fine /\
    let nn := node_count (length rf) stat sym in
    let piv := sorted_pivots E (build_k_if (fp_nmax fine) rf stat) nn sym in
    nn <= length piv /\
    lambda_ op = lam /\ statistic op = stat /\ r op = length rf /\
    niom op = nn /\ dlr_rf op = rf /\
    dlr_if op = map (fun p => (Z.of_nat p - fp_nmax fine)%Z) (firstn nn piv) /\
    cf2if op = matrix_of_rows (length rf) (kernel_rows (dlr_if op) rf stat) /\
    (if symmetrized_boson stat sym
     then if2cf_lu op = empty_matrix /\ if2cf_piv op = []
     else exists info, ext_getrf E (cf2if op) = (if2cf_lu op, if2cf_piv op, info)).
Proof.
  unfold imfreq_ops_ctor. intros Hop.
  apply bind_Ok_inv in Hop. destruct Hop as [fine [Hfine Hop]].
  exists fine. split; [exact Hfine|].
  apply bind_Ok_inv in Hop. destruct Hop as [nodes [Hnodes Hop]].
  apply bind_Ok_inv in Hop. destruct Hop as [c2v [Hc2v Hop]].
  apply node_loop in Hnodes. destruct Hnodes as [Hle Hnodes].
  apply (kernel_fill _ _ _ _ Hle) in Hc2v. rewrite <- Hnodes in Hc2v.
  cbv zeta. split; [exact Hle|].
  destruct (symmetrized_boson stat sym); cbn [negb] in Hop.
  - inversion Hop; subst op. cbn.
    repeat split; try reflexivity; assumption.
  - destruct (ext_getrf E c2v) as [[lu ipiv] info] eqn:Hlu.
    inversion Hop; subst op. cbn.
    repeat split; try reflexivity; try assumption.
    exists info. exact Hlu.
Qed.

Lemma imfreq_ops_ctor_returns (lam : R) (rf : list R) (stat : statistic_t)
      (sym : bool) (fine : fineparams) :
  fineparams_default (ext_log2 E) lam = Ok fine ->
  let nn := node_count (length rf) stat sym in
  let piv := sorted_pivots E (build_k_if (fp_nmax fine) rf stat) nn sym in
  nn <= length piv ->
  Forall (fun p => p < k_if_rows (fp_nmax fine) stat) (firstn nn piv) ->
  returns (imfreq_ops_ctor E lam rf stat sym).
Proof.
  intros Hfine nn piv Hle Hrange.
  unfold imfreq_ops_ctor. rewrite Hfine. cbn [bind].
  fold nn. fold piv.
  rewrite (indexed_loop_firstn_conv piv
             (fun p => Ok (Z.of_nat p - fp_nmax fine)%Z) Hle).
  rewrite (for_each_map _ (fun p => (Z.of_nat p - fp_nmax fine)%Z))
    by reflexivity.
  cbn [bind]. unfold fill_matrix.
  rewrite (for_each_map _
             (fun i => map (fun j => k_if_stat (Z.of_nat (nth i piv 0) - fp_nmax fine)
                                               (nth j rf 0%R) stat)
                           (seq 0 (length rf)))).
  - cbn [bind]. destruct (symmetrized_boson stat sym); cbn [negb].
    + eexists. reflexivity.
    + destruct (ext_getrf E _) as [[lu ipiv] info]. eexists. reflexivity.
  - intros i Hi. apply in_seq in Hi.
    assert (i < length piv) as Hip by lia.
    apply for_each_map. intros j Hj. apply in_seq in Hj.
    unfold at_. rewrite (nth_error_nth' piv 0 Hip). cbn [bind].
    apply entry_build_k_if_Ok; [|lia].
    rewrite Forall_forall in Hrange. apply Hrange.
    rewrite <- (firstn_skipn nn piv) at 1.
    rewrite app_nth1 by (rewrite length_firstn; lia).
    apply nth_In. rewrite length_firstn. lia.
Qed.

End ConstructorFacts.

(** ** Sorting the pivots *)

Lemma insert_sorted_perm (x : nat) (l : list nat) :
  Permutation (insert_sorted x l) (x :: l).
Proof.
  induction l as [|y l IH]; simpl.
  - apply Permutation_refl.
  - destruct (x <=? y).
    + apply Permutation_refl.
    + apply perm_trans with (y :: x :: l).
      * now apply perm_skip.
      * apply perm_swap.
Qed.

Lemma sort_perm (l : list nat) : Permutation (sort l) l.
Proof.
  induction l as [|x l IH]; simpl.
  - apply Permutation_refl.
  - apply perm_trans with (x :: sort l).
    + apply insert_sorted_perm.
    + now apply perm_skip.
Qed.

Lemma insert_sorted_sorted (x : nat) (l : list nat) :
  StronglySorted le l -> StronglySorted le (insert_sorted x l).
Proof.
  induction 1 as [|y l Hs IH Hy]; simpl.
  - constructor; constructor.
  - destruct (x <=? y) eqn:Hxy.
    + apply Nat.leb_le in Hxy. constructor.
      * now constructor.
      * constructor; [exact Hxy|].
        eapply Forall_impl; [|exact Hy]. intros z Hz. simpl in Hz. lia.
    + apply Nat.leb_gt in Hxy. constructor; [exact IH|].
      apply Forall_forall. intros z Hz.
      apply (Permutation_in _ (insert_sorted_perm x l)) in Hz.
      destruct Hz as [<-|Hz]; [lia|].
      rewrite Forall_forall in Hy. now apply Hy.
Qed.

Lemma sort_sorted (l : list nat) : StronglySorted le (sort l).
Proof.
  induction l as [|x l IH]; simpl.
  - constructor.
  - now apply insert_sorted_sorted.
Qed.

Lemma sorted_NoDup_strict (l : list nat) :
  StronglySorted le l -> NoDup l -> StronglySorted lt l.
Proof.
  induction 1 as [|x l Hs IH Hx]; intros Hnd.
  - constructor.
  - inversion Hnd as [|x' l' Hnotin Hnd']; subst.
    constructor; [now apply IH|].
    apply Forall_forall. intros y Hy.
    rewrite Forall_forall in Hx. specialize (Hx y Hy).
    assert (x <> y) by (intros ->; contradiction). lia.
Qed.

Lemma In_firstn_incl {A : Type} (n : nat) (l : list A) (y : A) :
  In y (firstn n l) -> In y l.
Proof.
  intros Hy. rewrite <- (firstn_skipn n l). apply in_or_app. now left.
Qed.

Lemma strict_firstn {A : Type} (lt_ : A -> A -> Prop) (n : nat) (l : list A) :
  StronglySorted lt_ l -> StronglySorted lt_ (firstn n l).
Proof.
  intros Hs. revert n. induction Hs as [|x l Hs IH Hx]; intros [|n]; simpl;
    try constructor.
  - apply IH.
  - apply Forall_forall. intros y Hy. rewrite Forall_forall in Hx.
    apply Hx. eapply In_firstn_incl; exact Hy.
Qed.

Lemma strict_shift (nmax : Z) (l : list nat) :
  StronglySorted lt l ->
  StronglySorted Z.lt (map (fun p => (Z.of_nat p - nmax)%Z) l).
Proof.
  induction 1 as [|x l Hs IH Hx]; simpl; constructor.
  - exact IH.
  - apply Forall_forall. intros z Hz. apply in_map_iff in Hz.
    destruct Hz as [y [<- Hy]]. rewrite Forall_forall in Hx.
    specialize (Hx y Hy). lia.
Qed.

Lemma strict_NoDup (l : list Z) : StronglySorted Z.lt l -> NoDup l.
Proof.
  induction 1 as [|x l Hs IH Hx]; constructor.
  - intros Hin. rewrite Forall_forall in Hx. specialize (Hx x Hin). lia.
  - exact IH.
Qed.

(** Distinct pivots, sorted and shifted by [-nmax], are strictly
    increasing. *)
Lemma shifted_pivots_strict (piv : list nat) (nn : nat) (nmax : Z) :
  NoDup piv ->
  StronglySorted Z.lt
    (map (fun p => (Z.of_nat p - nmax)%Z) (firstn nn (sort piv))).
Proof.
  intros Hnd. apply strict_shift. apply strict_firstn.
  apply sorted_NoDup_strict.
  - apply sort_sorted.
  - eapply Permutation_NoDup; [|exact Hnd].
    apply Permutation_sym. apply sort_perm.
Qed.

(** ** Pivoted Gram-Schmidt *)

Section PivRGSFacts.
Context {T : Type} `{Scalar T}.

Notation "'irow'" := (@indexed_row T).

Lemma pick_pivot_In (best : irow) (rest : list irow) :
  In (pick_pivot best rest) (best :: rest).
Proof.
  revert best. induction rest as [|c rest IH]; intros best; simpl.
  - now left.
  - destruct (Rlt_dec (norm (snd best)) (norm (snd c))).
    + right. apply IH.
    + destruct (IH best) as [Hb|Hr]; [now left|right; now right].
Qed.

Lemma pick_pivot_ge_best (best : irow) (rest : list irow) :
  (norm (snd best) <= norm (snd (pick_pivot best rest)))%R.
Proof.
  revert best. induction rest as [|c rest IH]; intros best; simpl.
  - lra.
  - destruct (Rlt_dec (norm (snd best)) (norm (snd c))) as [Hlt|Hge].
    + specialize (IH c). lra.
    + apply IH.
Qed.

Lemma pick_pivot_max (best : irow) (rest : list irow) (c : irow) :
  In c (best :: rest) ->
  (norm (snd c) <= norm (snd (pick_pivot best rest)))%R.
Proof.
  revert best. induction rest as [|d rest IH]; intros best Hin.
  - destruct Hin as [<-|[]]. simpl. lra.
  - simpl. destruct (Rlt_dec (norm (snd best)) (norm (snd d))) as [Hlt|Hge].
    + destruct Hin as [<-|[<-|Hin]].
      * pose proof (pick_pivot_ge_best d rest). lra.
      * apply pick_pivot_ge_best.
      * apply IH. now right.
    + destruct Hin as [<-|[<-|Hin]].
      * apply pick_pivot_ge_best.
      * pose proof (pick_pivot_ge_best best rest). lra.
      * apply IH. now right.
Qed.

Lemma pick_pivot_head (best : irow) (rest : list irow) :
  (forall c, In c rest -> (norm (snd c) <= norm (snd best))%R) ->
  pick_pivot best rest = best.
Proof.
  induction rest as [|c rest IH]; intros Hle; simpl; [reflexivity|].
  destruct (Rlt_dec (norm (snd best)) (norm (snd c))) as [Hlt|Hge].
  - specialize (Hle c (or_introl eq_refl)). lra.
  - apply IH. intros d Hd. apply Hle. now right.
Qed.

Lemma map_fst_reduce_rows (q : list T) (rem : list irow) :
  map fst (reduce_rows q rem) = map fst rem.
Proof. unfold reduce_rows. rewrite map_map. reflexivity. Qed.

Lemma In_remove_row (i k : nat) (rem : list irow) :
  In k (map fst (remove_row i rem)) <-> In k (map fst rem) /\ k <> i.
Proof.
  unfold remove_row. rewrite !in_map_iff. split.
  - intros [c [<- Hc]]. apply filter_In in Hc. destruct Hc as [Hc Hne].
    apply negb_true_iff in Hne. apply Nat.eqb_neq in Hne.
    split; [now exists c|exact Hne].
  - intros [[c [<- Hc]] Hne]. exists c. split; [reflexivity|].
    apply filter_In. split; [exact Hc|].
    apply negb_true_iff. now apply Nat.eqb_neq.
Qed.

Lemma NoDup_remove_row (i : nat) (rem : list irow) :
  NoDup (map fst rem) -> NoDup (map fst (remove_row i rem)).
Proof.
  induction rem as [|c rem IH]; simpl; intros Hnd; [constructor|].
  inversion Hnd as [|x l Hnotin Hnd']; subst.
  destruct (negb (fst c =? i)); simpl.
  - constructor; [|now apply IH].
    intros Hin. apply In_remove_row in Hin. now apply Hnotin.
  - now apply IH.
Qed.

Lemma loop_index_In (fuel : nat) (eps : R) (target : option nat)
      (first : option R) (count : nat) (rem : list irow) (pk : pick) :
  In pk (pivrgs_loop fuel eps target first count rem) ->
  In (pick_index pk) (map fst rem).
Proof.
  revert first count rem. induction fuel as [|fuel IH];
    intros first count rem Hin; simpl in Hin; [contradiction|].
  destruct rem as [|c rest]; [contradiction|].
  destruct (reached target count); [contradiction|].
  destruct (Rlt_dec _ _); [contradiction|].
  destruct Hin as [<-|Hin].
  - cbn [pick_index]. apply in_map. apply pick_pivot_In.
  - apply IH in Hin. rewrite map_fst_reduce_rows in Hin.
    apply In_remove_row in Hin. tauto.
Qed.

Lemma loop_NoDup (fuel : nat) (eps : R) (target : option nat)
      (first : option R) (count : nat) (rem : list irow) :
  NoDup (map fst rem) ->
  NoDup (map pick_index (pivrgs_loop fuel eps target first count rem)).
Proof.
  revert first count rem. induction fuel as [|fuel IH];
    intros first count rem Hnd; simpl; [constructor|].
  destruct rem as [|c rest]; [constructor|].
  destruct (reached target count); [constructor|].
  destruct (Rlt_dec _ _); [constructor|].
  cbn [map pick_index]. constructor.
  - intros Hin. apply in_map_iff in Hin. destruct Hin as [pk [Hpk Hin]].
    apply loop_index_In in Hin. rewrite map_fst_reduce_rows in Hin.
    apply In_remove_row in Hin. rewrite Hpk in Hin. tauto.
  - apply IH. rewrite map_fst_reduce_rows. now apply NoDup_remove_row.
Qed.

Lemma loop_length (fuel : nat) (eps : R) (target : option nat)
      (first : option R) (count : nat) (rem : list irow) :
  length (pivrgs_loop fuel eps target first count rem) <= fuel.
Proof.
  revert first count rem. induction fuel as [|fuel IH];
    intros first count rem; simpl; [lia|].
  destruct rem as [|c rest]; [simpl; lia|].
  destruct (reached target count); [simpl; lia|].
  destruct (Rlt_dec _ _); [simpl; lia|].
  cbn [length]. apply le_n_S. apply IH.
Qed.

Lemma map_fst_combine_seq (s : nat) (rs : list (list T)) :
  map fst (combine (seq s (length rs)) rs) = seq s (length rs).
Proof.
  revert s. induction rs as [|row rs IH]; intros s; simpl; [reflexivity|].
  now rewrite IH.
Qed.

Lemma pivrgs_rows_NoDup (rs : list (list T)) (eps : R) (target : option nat) :
  NoDup (map pick_index (pivrgs_rows rs eps target)).
Proof.
  unfold pivrgs_rows. apply loop_NoDup. rewrite map_fst_combine_seq.
  apply seq_NoDup.
Qed.

Lemma pivrgs_rows_in_range (rs : list (list T)) (eps : R) (target : option nat) :
  Forall (fun p => p < length rs) (map pick_index (pivrgs_rows rs eps target)).
Proof.
  apply Forall_forall. intros p Hp. apply in_map_iff in Hp.
  destruct Hp as [pk [<- Hpk]]. unfold pivrgs_rows in Hpk.
  apply loop_index_In in Hpk. rewrite map_fst_combine_seq in Hpk.
  apply in_seq in Hpk. lia.
Qed.

(** The first pivot is selected when its norm is positive and the
    tolerance is below one. *)
Lemma pivrgs_rows_nonempty (rs : list (list T)) (eps : R) (row : list T) :
  In row rs -> (0 < norm row)%R -> (eps < 1)%R ->
  1 <= length (pivrgs_rows rs eps None).
Proof.
  intros Hin Hpos Heps. unfold pivrgs_rows.
  destruct rs as [|r0 rs]; [contradiction|].
  cbn [length seq combine pivrgs_loop reached].
  set (pv := pick_pivot (0, r0) (combine (seq 1 (length rs)) rs)).
  assert (norm row <= norm (snd pv))%R as Hmax.
  { assert (exists k, In (k, row) ((0, r0) :: combine (seq 1 (length rs)) rs))
      as [k Hk].
    { destruct (In_nth _ _ [] Hin) as [k [Hk Hrow]].
      exists k. 
      change ((0, r0) :: combine (seq 1 (length rs)) rs)
        with (combine (seq 0 (length (r0 :: rs))) (r0 :: rs)).
      rewrite <- Hrow.
      replace k with (nth k (seq 0 (length (r0 :: rs))) 0) at 1
        by (now rewrite seq_nth).
      rewrite <- combine_nth by (now rewrite length_seq).
      apply nth_In. rewrite length_combine, length_seq. lia. }
    exact (pick_pivot_max Hk). }
  destruct (Rlt_dec (norm (snd pv)) (eps * norm (snd pv))) as [Hlt|_].
  - exfalso. nra.
  - simpl. lia.
Qed.

End PivRGSFacts.

Section PivRGSReplay.
Context {T : Type} `{Scalar T}.

Notation "'irow'" := (@indexed_row T).

Lemma loop_nil (fuel : nat) (eps : R) (target : option nat)
      (first : option R) (count : nat) :
  pivrgs_loop fuel eps target first count ([] : list irow) = [].
Proof. destruct fuel; reflexivity. Qed.

Lemma loop_step (fuel : nat) (eps : R) (target : option nat)
      (first : option R) (count : nat) (c : irow) (rest : list irow) :
  pivrgs_loop (S fuel) eps target first count (c :: rest) =
  if reached target count then []
  else
    let pv := pick_pivot c rest in
    let first_nrm :=
      match first with Some x => x | None => norm (snd pv) end in
    if Rlt_dec (norm (snd pv)) (eps * first_nrm) then []
    else
      mk_pick (fst pv) (normalize (snd pv)) (norm (snd pv))
        :: pivrgs_loop fuel eps target (Some first_nrm) (S count)
             (reduce_rows (normalize (snd pv)) (remove_row (fst pv) (c :: rest))).
Proof. reflexivity. Qed.

Lemma orthogonalize_nil (q : list T) : orthogonalize q [] = [].
Proof. reflexivity. Qed.

Lemma get_row_In (rem : list irow) (c : irow) :
  NoDup (map fst rem) -> In c rem -> get_row (fst c) rem = snd c.
Proof.
  unfold get_row. induction rem as [|d rem IH]; intros Hnd Hin; [contradiction|].
  inversion Hnd as [|x l Hnotin Hnd']; subst. simpl.
  destruct Hin as [->|Hin].
  - now rewrite Nat.eqb_refl.
  - destruct (fst d =? fst c) eqn:Heq.
    + apply Nat.eqb_eq in Heq. exfalso. apply Hnotin. rewrite Heq.
      now apply in_map.
    + now apply IH.
Qed.

Lemma get_row_from (rem : list irow) (i : nat) :
  In i (map fst rem) -> exists c, In c rem /\ get_row i rem = snd c.
Proof.
  unfold get_row. induction rem as [|d rem IH]; intros Hin; [contradiction|].
  simpl. destruct (fst d =? i) eqn:Heq.
  - exists d. split; [now left|reflexivity].
  - destruct Hin as [Hd|Hin].
    + apply Nat.eqb_neq in Heq. contradiction.
    + destruct (IH Hin) as [c [Hc Hg]]. exists c. split; [now right|exact Hg].
Qed.

Lemma get_row_reduce_remove (q : list T) (rem : list irow) (i p : nat) :
  i <> p ->
  get_row i (reduce_rows q (remove_row p rem)) = orthogonalize q (get_row i rem).
Proof.
  intros Hne. unfold get_row, reduce_rows, remove_row.
  induction rem as [|d rem IH]; [reflexivity|].
  simpl. destruct (fst d =? p) eqn:Hp; simpl.
  - apply Nat.eqb_eq in Hp.
    assert ((fst d =? i) = false) as Hi by (apply Nat.eqb_neq; lia).
    rewrite Hi. exact IH.
  - destruct (fst d =? i); [reflexivity|exact IH].
Qed.

Lemma get_row_combine_seq (rs : list (list T)) (s i : nat) :
  s <= i -> get_row i (combine (seq s (length rs)) rs) = nth (i - s) rs [].
Proof.
  unfold get_row. revert s. induction rs as [|row rs IH]; intros s Hs.
  - simpl. now destruct (i - s).
  - simpl. destruct (s =? i) eqn:Heq.
    + apply Nat.eqb_eq in Heq. subst. now rewrite Nat.sub_diag.
    + apply Nat.eqb_neq in Heq. rewrite IH by lia.
      replace (i - s) with (S (i - S s)) by lia. reflexivity.
Qed.

Lemma remove_row_absent (j : nat) (l : list irow) :
  (forall c, In c l -> fst c <> j) -> remove_row j l = l.
Proof.
  unfold remove_row. induction l as [|c l IH]; intros Hne; [reflexivity|].
  simpl. assert ((fst c =? j) = false) as Hc.
  { apply Nat.eqb_neq. apply Hne. now left. }
  rewrite Hc. simpl. f_equal. apply IH. intros d Hd. apply Hne. now right.
Qed.

Lemma In_combine_seq_fst (s n : nat) (xs : list (list T)) (c : irow) :
  In c (combine (seq s n) xs) -> s <= fst c.
Proof.
  destruct c as [k x]. intros Hin. apply in_combine_l in Hin.
  apply in_seq in Hin. simpl. lia.
Qed.

Lemma reduce_rows_combine (q : list T) (idx : list nat) (xs : list (list T)) :
  reduce_rows q (combine idx xs) = combine idx (map (orthogonalize q) xs).
Proof.
  unfold reduce_rows. revert xs. induction idx as [|k idx IH]; intros [|x xs];
    simpl; try reflexivity.
  now rewrite IH.
Qed.

Lemma renumber_cons (j : nat) (pk : pick) (picks : list (@pick T)) :
  renumber j (pk :: picks) =
  mk_pick j (pick_q pk) (pick_norm pk) :: renumber (S j) picks.
Proof. reflexivity. Qed.

(** Running the loop on the selected rows alone, in the order selected,
    selects them again in that order, with the same orthonormal rows and
    norms. *)
Lemma loop_replay (fuel : nat) (eps : R) (target : option nat) :
  forall (first : option R) (count : nat) (rem : list irow),
    NoDup (map fst rem) ->
    forall (j fuel' : nat),
      length (pivrgs_loop fuel eps target first count rem) <= fuel' ->
      pivrgs_loop fuel' eps target first count
        (sub_state j rem
           (map pick_index (pivrgs_loop fuel eps target first count rem))) =
      renumber j (pivrgs_loop fuel eps target first count rem).
Proof.
  induction fuel as [|fuel IH]; intros first count rem Hnd j fuel' Hlen.
  - simpl. apply loop_nil.
  - destruct rem as [|c rest]; [simpl; apply loop_nil|].
    rewrite loop_step in *.
    destruct (reached target count) eqn:Hreached; [apply loop_nil|].
    cbv zeta in *.
    set (pv := pick_pivot c rest) in *.
    set (first_nrm := match first with Some x => x | None => norm (snd pv) end) in *.
    destruct (Rlt_dec (norm (snd pv)) (eps * first_nrm)) as [Hstop|Hgo];
      [apply loop_nil|].
    set (q := normalize (snd pv)) in *.
    set (rem' := reduce_rows q (remove_row (fst pv) (c :: rest))) in *.
    set (picks' := pivrgs_loop fuel eps target (Some first_nrm) (S count) rem') in *.
    cbn [length] in Hlen. destruct fuel' as [|fuel']; [lia|].
    assert (In pv (c :: rest)) as Hpv by apply pick_pivot_In.
    assert (NoDup (map fst rem')) as Hnd'.
    { unfold rem'. rewrite map_fst_reduce_rows. now apply NoDup_remove_row. }
    assert (forall i, In i (map pick_index picks') ->
                      In i (map fst (c :: rest)) /\ i <> fst pv) as Hidx.
    { intros i Hi. apply in_map_iff in Hi. destruct Hi as [pk [<- Hpk]].
      unfold picks' in Hpk. apply loop_index_In in Hpk.
      unfold rem' in Hpk. rewrite map_fst_reduce_rows in Hpk.
      now apply In_remove_row in Hpk. }
    cbn [map pick_index]. unfold sub_state. cbn [length seq map combine].
    rewrite (get_row_In _ _ Hnd Hpv).
    rewrite loop_step. rewrite Hreached. cbv zeta.
    assert (pick_pivot (j, snd pv)
              (combine (seq (S j) (length (map pick_index picks')))
                       (map (fun i => get_row i (c :: rest)) (map pick_index picks')))
            = (j, snd pv)) as Hhead.
    { apply pick_pivot_head. intros d Hd. cbn [snd].
      destruct d as [k x]. apply in_combine_r in Hd. cbn [snd].
      apply in_map_iff in Hd. destruct Hd as [i [<- Hi]].
      destruct (Hidx i Hi) as [Hin _].
      destruct (get_row_from _ _ Hin) as [d [Hd Hg]]. rewrite Hg.
      exact (pick_pivot_max Hd). }
    rewrite Hhead. cbn [fst snd].
    fold first_nrm.
    destruct (Rlt_dec (norm (snd pv)) (eps * first_nrm)) as [Hstop|_];
      [contradiction|].
    fold q. rewrite renumber_cons. cbn [pick_q pick_norm]. f_equal.
    unfold remove_row at 1. cbn [filter fst]. rewrite Nat.eqb_refl. cbn [negb].
    match goal with
    | |- context [filter ?f ?l] => change (filter f l) with (remove_row j l)
    end.
    rewrite remove_row_absent
      by (intros d Hd; apply In_combine_seq_fst in Hd; lia).
    rewrite reduce_rows_combine.
    assert (map (orthogonalize q)
                (map (fun i => get_row i (c :: rest)) (map pick_index picks'))
            = map (fun i => get_row i rem') (map pick_index picks')) as Hrows.
    { rewrite map_map. apply map_ext_in. intros i Hi.
      destruct (Hidx i Hi) as [_ Hne]. unfold rem'.
      symmetry. now apply get_row_reduce_remove. }
    rewrite Hrows.
    apply (IH (Some first_nrm) (S count) rem' Hnd' (S j) fuel'). 
    fold picks'. lia.
Qed.

Lemma renumber_q (j : nat) (picks : list (@pick T)) :
  map pick_q (renumber j picks) = map pick_q picks.
Proof.
  revert j. induction picks as [|pk picks IH]; intros j; [reflexivity|].
  rewrite renumber_cons. cbn [map pick_q]. now rewrite IH.
Qed.

Lemma renumber_norm (j : nat) (picks : list (@pick T)) :
  map pick_norm (renumber j picks) = map pick_norm picks.
Proof.
  revert j. induction picks as [|pk picks IH]; intros j; [reflexivity|].
  rewrite renumber_cons. cbn [map pick_norm]. now rewrite IH.
Qed.

Lemma renumber_index (j : nat) (picks : list (@pick T)) :
  map pick_index (renumber j picks) = seq j (length picks).
Proof.
  revert j. induction picks as [|pk picks IH]; intros j; [reflexivity|].
  rewrite renumber_cons. cbn [map pick_index length seq]. now rewrite IH.
Qed.

Lemma pivot_rows_rows (a : array T) (piv : list nat) :
  wf_matrix a -> Forall (fun p => p < nrows a) piv ->
  rows (pivot_rows a piv) = map (fun p => nth p (rows a) []) piv.
Proof.
  intros Hwf Hpiv. unfold pivot_rows. apply rows_matrix_of_rows.
  apply Forall_forall. intros row Hrow. apply in_map_iff in Hrow.
  destruct Hrow as [p [<- Hp]]. rewrite Forall_forall in Hpiv.
  pose proof (rows_row_length Hwf) as Hlen. rewrite Forall_forall in Hlen.
  apply Hlen. apply nth_In. rewrite rows_length. now apply Hpiv.
Qed.

Lemma pivrgs_rows_replay (rs : list (list T)) (eps : R) (target : option nat) :
  pivrgs_rows
    (map (fun p => nth p rs []) (map pick_index (pivrgs_rows rs eps target)))
    eps target =
  renumber 0 (pivrgs_rows rs eps target).
Proof.
  unfold pivrgs_rows at 1. rewrite !length_map.
  pose proof (@loop_replay (length rs) eps target None 0
                (combine (seq 0 (length rs)) rs)) as Hrep.
  fold (pivrgs_rows rs eps target) in Hrep.
  rewrite map_fst_combine_seq in Hrep.
  specialize (Hrep (seq_NoDup _ _) 0 (length (pivrgs_rows rs eps target))
                   (Nat.le_refl _)).
  unfold sub_state in Hrep. rewrite length_map in Hrep.
  rewrite <- Hrep. f_equal. f_equal. apply map_ext. intros i.
  rewrite get_row_combine_seq by lia. now rewrite Nat.sub_0_r.
Qed.

(** C7. For every matrix [a] and tolerance [eps], running [pivrgs] again on
    the matrix formed by the pivot rows of [a], in the order selected,
    returns the pivot vector [0, 1, ..., r-1] and the same orthonormal
    matrix (and the same norms). *)
Theorem pivrgs_pivot_rows_idempotent (a : array T) (eps : R) :
  wf_matrix a ->
  let '(q, norms, piv) := pivrgs a eps in
  pivrgs (pivot_rows a piv) eps = (q, norms, seq 0 (length piv)).
Proof.
  intros Hwf. unfold pivrgs, pivrgs_result.
  set (picks := pivrgs_rows (rows a) eps None).
  rewrite pivot_rows_rows.
  - unfold picks. rewrite !pivrgs_rows_replay. fold picks.
    rewrite renumber_q, renumber_norm, renumber_index, length_map.
    reflexivity.
  - exact Hwf.
  - rewrite <- rows_length. apply pivrgs_rows_in_range.
Qed.

End PivRGSReplay.

Lemma pivrgs_pivot_rows_idempotent_witness :
  let a := mk_array [2; 2] [3; 4; 1; 0]%R in
  let '(q, norms, piv) := pivrgs a (1 / 10) in
  pivrgs (pivot_rows a piv) (1 / 10) = (q, norms, seq 0 (length piv)).
Proof.
  apply (@pivrgs_pivot_rows_idempotent R R_Scalar
           (mk_array [2; 2] [3; 4; 1; 0]%R) (1 / 10)).
  split; reflexivity.
Defined.

(** ** The coefficient-to-value matrix *)

Lemma kernel_rows_row_length (nodes : list Z) (rf : list R) (stat : statistic_t) :
  Forall (fun row => length row = length rf) (kernel_rows nodes rf stat).
Proof.
  apply Forall_forall. intros row Hrow. unfold kernel_rows in Hrow.
  apply in_map_iff in Hrow. destruct Hrow as [n [<- _]]. now rewrite length_map.
Qed.

Lemma entry_kernel_rows (nodes : list Z) (rf : list R) (stat : statistic_t)
      (i j : nat) :
  i < length nodes -> j < length rf ->
  entry (matrix_of_rows (length rf) (kernel_rows nodes rf stat)) i j =
  Ok (k_if_stat (nth i nodes 0%Z) (nth j rf 0%R) stat).
Proof.
  intros Hi Hj. unfold entry.
  rewrite rows_matrix_of_rows by apply kernel_rows_row_length.
  unfold kernel_rows. rewrite nth_error_map.
  rewrite (nth_error_nth' nodes 0%Z Hi). cbn [option_map].
  rewrite nth_error_map. rewrite (nth_error_nth' rf 0%R Hj). reflexivity.
Qed.

Section KernelMatrix.
Variable E : externals.

Lemma ctor_niom_length (lam : R) (rf : list R) (stat : statistic_t)
      (sym : bool) (op : imfreq_ops) :
  imfreq_ops_ctor E lam rf stat sym = Ok op -> length (dlr_if op) = niom op.
Proof.
  intros Hop.
  destruct (imfreq_ops_ctor_inv _ _ _ _ _ Hop)
    as [fine [_ [Hle [_ [_ [_ [Hn [_ [Hif _]]]]]]]]].
  rewrite Hif, Hn, length_map, length_firstn. lia.
Qed.

Lemma ctor_kernel_entry (lam : R) (rf : list R) (stat : statistic_t)
      (sym : bool) (op : imfreq_ops) (i j : nat) :
  imfreq_ops_ctor E lam rf stat sym = Ok op -> i < niom op -> j < r op ->
  entry (cf2if op) i j =
  Ok (k_if_stat (nth i (dlr_if op) 0%Z) (nth j (dlr_rf op) 0%R) stat).
Proof.
  intros Hop Hi Hj.
  pose proof (ctor_niom_length _ _ _ _ Hop) as Hlen.
  destruct (imfreq_ops_ctor_inv _ _ _ _ _ Hop)
    as [fine [_ [_ [_ [_ [Hr [_ [Hrf [_ [Hc _]]]]]]]]]].
  rewrite Hc, Hrf.
  apply entry_kernel_rows; [lia|now rewrite <- Hr].
Qed.

(** C3, as amended. In the [imfreq_ops] constructor the matrix [cf2if] holds
    the unscaled kernel, [cf2if(i,j) = K(n_if[i], om_j, s)], on every path:
    fermionic, bosonic, and symmetrized bosonic. No column is multiplied by
    [tanh(om_j / 2)]. *)
Theorem cf2if_is_unscaled_kernel (lam : R) (rf : list R) (stat : statistic_t)
        (sym : bool) (op : imfreq_ops) :
  imfreq_ops_ctor E lam rf stat sym = Ok op ->
  forall i j, i < niom op -> j < r op ->
    entry (get_cf2if op) i j =
    Ok (k_if_stat (nth i (get_ifnodes op) 0%Z) (nth j (get_rfnodes op) 0%R) stat).
Proof.
  intros Hop i j Hi Hj.
  pose proof (ctor_niom_length _ _ _ _ Hop) as Hlen.
  destruct (imfreq_ops_ctor_inv _ _ _ _ _ Hop)
    as [fine [_ [_ [_ [_ [Hr [_ [Hrf [_ [Hc _]]]]]]]]]].
  unfold get_cf2if, get_ifnodes, get_rfnodes. rewrite Hc, Hrf.
  apply entry_kernel_rows; [lia|now rewrite <- Hr].
Qed.

End KernelMatrix.

(** ** Shapes *)

Lemma shape_leading {T : Type} (a : array T) (n : nat) :
  shape0 a = n -> 0 < n -> exists ts, shape a = n :: ts.
Proof.
  unfold shape0. destruct (shape a) as [|k ts]; simpl; intros Hn Hpos.
  - lia.
  - exists ts. now subst.
Qed.

Lemma int_div_mul (n k : nat) : 0 < n -> int_div (n * k) n = Ok k.
Proof.
  intros Hn. unfold int_div.
  destruct (n =? 0) eqn:E; [apply Nat.eqb_eq in E; lia|].
  f_equal. rewrite Nat.mul_comm. apply Nat.div_mul. lia.
Qed.

Lemma reshape_Ok {T : Type} (a : array T) (sh : list nat) :
  extent sh = size a -> reshape a sh = Ok (mk_array sh (data a)).
Proof. intros Hs. unfold reshape. apply Nat.eqb_eq in Hs. now rewrite Hs. Qed.

Lemma reshape_Abort {T : Type} (a : array T) (sh : list nat) :
  extent sh <> size a -> exists w, reshape a sh = Abort w.
Proof.
  intros Hs. unfold reshape. apply Nat.eqb_neq in Hs. rewrite Hs.
  eexists. reflexivity.
Qed.

Lemma reshape_shape {T : Type} (a b : array T) (sh : list nat) :
  reshape a sh = Ok b -> shape b = sh /\ data b = data a.
Proof.
  unfold reshape. destruct (extent sh =? size a); [|discriminate].
  intros Hb. inversion Hb. split; reflexivity.
Qed.

Lemma array_eta {T : Type} (a : array T) : mk_array (shape a) (data a) = a.
Proof. now destruct a. Qed.

(** ** Coefficients to values, and evaluation *)

Lemma kernel_ops_ctor (E : externals) (lam : R) (rf : list R)
      (stat : statistic_t) (sym : bool) (op : imfreq_ops) :
  imfreq_ops_ctor E lam rf stat sym = Ok op -> kernel_ops op.
Proof.
  intros Hop. pose proof (ctor_niom_length _ _ _ _ _ Hop) as Hlen.
  destruct (imfreq_ops_ctor_inv _ _ _ _ _ Hop)
    as [fine [_ [_ [_ [Hs [Hr [_ [Hrf [_ [Hc _]]]]]]]]]].
  unfold kernel_ops. rewrite Hlen, Hc, Hrf, Hs, Hr. repeat split.
Qed.

Lemma coefs2vals_unfold (m : imfreq_ops) (c : array dcomplex) (ts : list nat) :
  shape c = r m :: ts -> 0 < r m ->
  is_matrix (cf2if m) = true -> ncols (cf2if m) = r m ->
  coefs2vals m c =
  reshape (matrix_of_rows (extent ts) (c2v_product m (extent ts) (data c)))
          (shape c).
Proof.
  intros Hsh Hr Hm Hc. unfold coefs2vals.
  unfold shape0. rewrite Hsh. cbn [hd]. rewrite Nat.eqb_refl. cbn [negb].
  unfold size. rewrite Hsh. cbn [extent fold_right].
  rewrite int_div_mul by exact Hr. cbn [bind].
  rewrite reshape_Ok
    by (unfold size; rewrite Hsh; cbn [extent fold_right]; lia).
  cbn [bind]. unfold matmul. rewrite Hm, Hc. cbn [is_matrix shape length].
  unfold nrows at 1. cbn [shape nth]. rewrite Nat.eqb_refl. cbn [andb bind].
  unfold ncols at 1 2. cbn [shape nth]. unfold rows at 1.
  unfold ncols, nrows. cbn [shape nth data].
  rewrite <- Hsh. reflexivity.
Qed.

Lemma nth_map_in {A B : Type} (f : A -> B) (l : list A) (i : nat) (d : A) (e : B) :
  i < length l -> nth i (map f l) e = f (nth i l d).
Proof.
  intros Hi. rewrite (nth_indep _ e (f d)) by (now rewrite length_map).
  apply map_nth.
Qed.

Lemma chunks_one (k : nat) (d : list dcomplex) :
  length d = k -> map (fun row => nth 0 row C0) (chunks 1 k d) = d.
Proof.
  revert d. induction k as [|k IH]; intros d Hd.
  - simpl. symmetry. now apply length_zero_iff_nil.
  - destruct d as [|x d]; [discriminate|].
    simpl. f_equal. apply IH. simpl in Hd. lia.
Qed.

Lemma kernel_ops_rows (m : imfreq_ops) :
  kernel_ops m ->
  rows (cf2if m) = kernel_rows (dlr_if m) (dlr_rf m) (statistic m) /\
  is_matrix (cf2if m) = true /\ ncols (cf2if m) = r m /\
  nrows (cf2if m) = niom m.
Proof.
  intros [Hr [Hn Hc]]. rewrite Hc. repeat split.
  - rewrite Hr. apply rows_matrix_of_rows. apply kernel_rows_row_length.
  - unfold nrows, matrix_of_rows, kernel_rows. cbn [shape nth].
    now rewrite length_map.
Qed.

Lemma c2v_product_row (m : imfreq_ops) (n : nat) (d : list dcomplex) (i : nat) :
  kernel_ops m -> i < niom m ->
  nth i (c2v_product m n d) [] =
  map (fun bc => cdot (map (fun om => k_if_stat (nth i (dlr_if m) 0%Z) om (statistic m))
                           (dlr_rf m)) bc)
      (coef_columns (r m) n d).
Proof.
  intros Hk Hi. destruct (kernel_ops_rows Hk) as [Hrows _].
  destruct Hk as [_ [Hn _]].
  unfold c2v_product. rewrite Hrows. unfold kernel_rows. rewrite map_map.
  rewrite (nth_map_in _ _ 0%Z) by lia. reflexivity.
Qed.

Lemma build_evalvec_row (m : imfreq_ops) (n : Z) :
  r m = length (dlr_rf m) ->
  build_evalvec m n = map (fun om => k_if_stat n om (statistic m)) (dlr_rf m).
Proof.
  intros Hr. unfold build_evalvec. rewrite Hr.
  apply (map_nth_seq (fun om => k_if_stat n om (statistic m))).
Qed.

(** Evaluation at a node is the corresponding row of the product that
    [coefs2vals] forms. *)
Lemma coefs2eval_row (m : imfreq_ops) (c : array dcomplex) (ts : list nat)
      (i : nat) :
  kernel_ops m -> shape c = r m :: ts -> 0 < r m -> wf_array c -> i < niom m ->
  coefs2eval m c (nth i (dlr_if m) 0%Z) =
  Ok (mk_array ts (nth i (c2v_product m (extent ts) (data c)) [])).
Proof.
  intros Hk Hsh Hr Hwf Hi.
  rewrite c2v_product_row by assumption.
  pose proof Hk as [Hrf _].
  assert (length (data c) = r m * extent ts) as Hd.
  { unfold wf_array, size in Hwf. rewrite Hsh in Hwf. exact Hwf. }
  unfold coefs2eval.
  unfold shape0. rewrite Hsh. cbn [hd]. rewrite Nat.eqb_refl. cbn [negb length].
  destruct ts as [|t ts].
  - cbn [length Nat.eqb extent fold_right]. do 2 f_equal.
    unfold coef_columns, transpose_rows. cbn [seq map].
    rewrite chunks_one by (cbn [extent fold_right] in Hd; lia).
    f_equal.
    rewrite (fold_left_ext_in
               (fun g l => Cadd g (Cmul (k_if_stat (nth i (dlr_if m) 0%Z)
                                                   (nth l (dlr_rf m) 0%R) (statistic m))
                                        (nth l (data c) C0)))
               (fun g l => Cadd g (Cmul (nth l (map (fun om => k_if_stat (nth i (dlr_if m) 0%Z) om (statistic m)) (dlr_rf m)) C0)
                                        (nth l (data c) C0)))).
    + rewrite fold_seq_dot.
      * rewrite firstn_all2 by (rewrite length_map; lia).
        rewrite firstn_all2 by (cbn [extent fold_right] in Hd; lia).
        reflexivity.
      * rewrite length_map. lia.
      * cbn [extent fold_right] in Hd. lia.
    + intros g l Hl. apply in_seq in Hl.
      rewrite (nth_map_in _ _ 0%R) by lia. reflexivity.
  - cbn [length Nat.eqb].
    unfold size. rewrite Hsh. 
    change (extent (r m :: t :: ts)) with (r m * extent (t :: ts)).
    rewrite int_div_mul by exact Hr. cbn [bind].
    rewrite reshape_Ok
      by (unfold size; rewrite Hsh; cbn [extent fold_right]; lia).
    cbn [bind List.tl]. unfold matvec.
    assert (is_matrix (transpose (mk_array [r m; extent (t :: ts)] (data c))) = true)
      as Hm by reflexivity.
    rewrite Hm. cbn [andb].
    assert (ncols (transpose (mk_array [r m; extent (t :: ts)] (data c))) = r m)
      as Hnc.
    { unfold ncols. rewrite shape_transpose. reflexivity. }
    rewrite Hnc. rewrite build_evalvec_row by exact Hrf.
    rewrite length_map, <- Hrf, Nat.eqb_refl. cbn [bind].
    rewrite rows_transpose. 
    unfold ncols at 1, rows at 1, ncols at 1, nrows at 1. cbn [shape nth data].
    fold (coef_columns (r m) (extent (t :: ts)) (data c)).
    rewrite reshape_Ok.
    + cbn [data]. f_equal. f_equal. apply map_ext. intros bc. apply dot_comm.
    + unfold size. cbn [shape extent fold_right].
      rewrite length_map. unfold coef_columns.
      rewrite transpose_rows_length. cbn [extent fold_right]. lia.
Qed.

(** ** The symmetrized routine *)

Section PivRGSSymFacts.
Context {T : Type} `{Scalar T}.

Notation "'irow'" := (@indexed_row T).

Lemma norm_nonneg (a : list T) : (0 <= norm a)%R.
Proof. unfold norm. apply sqrt_pos. Qed.

Lemma remove_row_length (i : nat) (rem : list irow) :
  NoDup (map fst rem) -> length rem <= S (length (remove_row i rem)).
Proof.
  induction rem as [|c rem IH]; intros Hnd; [simpl; lia|].
  inversion Hnd as [|x l Hnotin Hnd']; subst.
  unfold remove_row. cbn [filter]. fold (remove_row i rem).
  destruct (fst c =? i) eqn:Hc; cbn [negb length].
  - apply Nat.eqb_eq in Hc.
    assert (remove_row i rem = rem) as Hsame.
    { apply remove_row_absent. intros d Hd Heq. apply Hnotin.
      rewrite Hc, <- Heq. now apply in_map. }
    rewrite Hsame. lia.
  - specialize (IH Hnd'). lia.
Qed.

Lemma reduce_rows_length (q : list T) (rem : list irow) :
  length (reduce_rows q rem) = length rem.
Proof. unfold reduce_rows. apply length_map. Qed.

Lemma sym_loop_in_range (fuel m : nat) (eps : R) (target : option nat) :
  forall (first : option R) (count : nat) (rem : list irow) (pk : pick),
    (forall k, In k (map fst rem) -> k < m) ->
    In pk (pivrgs_sym_loop fuel m eps target first count rem) ->
    pick_index pk < m.
Proof.
  induction fuel as [|fuel IH]; intros first count rem pk Hrange Hin;
    simpl in Hin; [contradiction|].
  destruct rem as [|c rest]; [contradiction|].
  destruct (reached target count); [contradiction|].
  destruct (Rlt_dec _ _); [contradiction|].
  assert (fst (pick_pivot c rest) < m) as Hpv.
  { apply Hrange. apply in_map. apply pick_pivot_In. }
  destruct (fst (pick_pivot c rest) =? m - 1 - fst (pick_pivot c rest)).
  - destruct Hin as [<-|Hin]; [exact Hpv|].
    eapply IH; [|exact Hin]. intros k Hk.
    rewrite map_fst_reduce_rows in Hk. apply In_remove_row in Hk.
    apply Hrange. tauto.
  - destruct Hin as [<-|[<-|Hin]]; [exact Hpv|cbn [pick_index]; lia|].
    eapply IH; [|exact Hin]. intros k Hk.
    rewrite !map_fst_reduce_rows in Hk. apply In_remove_row in Hk.
    destruct Hk as [Hk _]. apply In_remove_row in Hk.
    apply Hrange. tauto.
Qed.

(** With a target rank and no tolerance, the selection goes on until the
    target is reached, as long as rows remain. *)
Lemma sym_loop_count (fuel m rt : nat) :
  forall (first : option R) (count : nat) (rem : list irow),
    NoDup (map fst rem) ->
    rt <= count + fuel -> 2 * (rt - count) <= length rem ->
    rt <= count + length (pivrgs_sym_loop fuel m 0 (Some rt) first count rem).
Proof.
  induction fuel as [|fuel IH]; intros first count rem Hnd Hfuel Hrem.
  - simpl. lia.
  - simpl. destruct rem as [|c rest]; [simpl in *; lia|].
    unfold reached. destruct (rt <=? count) eqn:Hreached.
    { apply Nat.leb_le in Hreached. simpl. lia. }
    apply Nat.leb_gt in Hreached.
    destruct (Rlt_dec _ _) as [Hstop|_].
    { exfalso. rewrite Rmult_0_l in Hstop.
      pose proof (norm_nonneg (snd (pick_pivot c rest))). lra. }
    set (pv := pick_pivot c rest) in *.
    destruct (fst pv =? m - 1 - fst pv).
    + cbn [length].
      match goal with
      | |- context [pivrgs_sym_loop fuel m 0 (Some rt) ?f ?k ?rm] =>
          specialize (IH f k rm)
      end.
      assert (length (c :: rest) <= S (length (remove_row (fst pv) (c :: rest))))
        as Hlen by (now apply remove_row_length).
      rewrite map_fst_reduce_rows, reduce_rows_length in IH.
      assert (NoDup (map fst (remove_row (fst pv) (c :: rest)))) as Hnd1
        by (now apply NoDup_remove_row).
      specialize (IH Hnd1). lia.
    + cbn [length].
      match goal with
      | |- context [pivrgs_sym_loop fuel m 0 (Some rt) ?f ?k ?rm] =>
          specialize (IH f k rm)
      end.
      assert (length (c :: rest) <= S (length (remove_row (fst pv) (c :: rest))))
        as Hlen1 by (now apply remove_row_length).
      assert (length (remove_row (fst pv) (c :: rest))
              <= S (length (remove_row (m - 1 - fst pv)
                                       (remove_row (fst pv) (c :: rest)))))
        as Hlen2 by (apply remove_row_length; now apply NoDup_remove_row).
      rewrite !map_fst_reduce_rows, !reduce_rows_length in IH.
      assert (NoDup (map fst (remove_row (m - 1 - fst pv)
                                (remove_row (fst pv) (c :: rest))))) as Hnd2
        by (apply NoDup_remove_row; now apply NoDup_remove_row).
      specialize (IH Hnd2).
      destruct (Nat.le_gt_cases rt (S (S count))) as [Hle|Hgt]; lia.
Qed.

Lemma pivrgs_sym_rows_in_range (rs : list (list T)) (eps : R)
      (target : option nat) :
  Forall (fun p => p < length rs)
         (map pick_index (pivrgs_sym_rows rs eps target)).
Proof.
  apply Forall_forall. intros p Hp. apply in_map_iff in Hp.
  destruct Hp as [pk [<- Hpk]]. unfold pivrgs_sym_rows in Hpk.
  eapply sym_loop_in_range; [|exact Hpk].
  intros k Hk. rewrite map_fst_combine_seq in Hk. apply in_seq in Hk. lia.
Qed.

(** A selected index is the index of a remaining row or the partner of
    one. *)
Lemma sym_loop_covered (fuel m : nat) (eps : R) (target : option nat) :
  forall (first : option R) (count : nat) (rem : list irow) (pk : pick),
    (forall k, In k (map fst rem) -> k < m) ->
    In pk (pivrgs_sym_loop fuel m eps target first count rem) ->
    In (pick_index pk) (map fst rem) \/ In (m - 1 - pick_index pk) (map fst rem).
Proof.
  induction fuel as [|fuel IH]; intros first count rem pk Hrange Hin;
    simpl in Hin; [contradiction|].
  destruct rem as [|c rest]; [contradiction|].
  destruct (reached target count); [contradiction|].
  destruct (Rlt_dec _ _); [contradiction|].
  assert (In (fst (pick_pivot c rest)) (map fst (c :: rest))) as Hpin
      by (apply in_map; apply pick_pivot_In).
  pose proof (Hrange _ Hpin) as Hpv.
  destruct (fst (pick_pivot c rest) =? m - 1 - fst (pick_pivot c rest)).
  - destruct Hin as [<-|Hin]; [left; exact Hpin|].
    apply IH in Hin.
    + rewrite map_fst_reduce_rows in Hin.
      destruct Hin as [Hin|Hin]; apply In_remove_row in Hin; tauto.
    + intros k Hk. rewrite map_fst_reduce_rows in Hk.
      apply In_remove_row in Hk. apply Hrange. tauto.
  - destruct Hin as [<-|[<-|Hin]]; [left; exact Hpin| |].
    + right. cbn [pick_index].
      replace (m - 1 - (m - 1 - fst (pick_pivot c rest)))
        with (fst (pick_pivot c rest)) by lia.
      exact Hpin.
    + apply IH in Hin.
      * rewrite !map_fst_reduce_rows in Hin.
        destruct Hin as [Hin|Hin]; apply In_remove_row in Hin;
          destruct Hin as [Hin _]; apply In_remove_row in Hin; tauto.
      * intros k Hk. rewrite !map_fst_reduce_rows in Hk.
        apply In_remove_row in Hk. destruct Hk as [Hk _].
        apply In_remove_row in Hk. apply Hrange. tauto.
Qed.

(** The selected indices are distinct, whatever the norms are: a selected
    row and its partner leave the remaining rows. *)
Lemma sym_loop_NoDup (fuel m : nat) (eps : R) (target : option nat) :
  forall (first : option R) (count : nat) (rem : list irow),
    (forall k, In k (map fst rem) -> k < m) ->
    NoDup (map pick_index (pivrgs_sym_loop fuel m eps target first count rem)).
Proof.
  induction fuel as [|fuel IH]; intros first count rem Hrange;
    simpl; [constructor|].
  destruct rem as [|c rest]; [constructor|].
  destruct (reached target count); [constructor|].
  destruct (Rlt_dec _ _); [constructor|].
  assert (In (fst (pick_pivot c rest)) (map fst (c :: rest))) as Hpin
      by (apply in_map; apply pick_pivot_In).
  pose proof (Hrange _ Hpin) as Hpv.
  set (i := fst (pick_pivot c rest)) in *.
  assert (forall k, In k (map fst (remove_row i (c :: rest))) -> k < m)
    as Hrange1.
  { intros k Hk. apply In_remove_row in Hk. apply Hrange. tauto. }
  assert (forall k,
             In k (map fst (remove_row (m - 1 - i) (remove_row i (c :: rest)))) ->
             k < m) as Hrange2.
  { intros k Hk. apply In_remove_row in Hk. apply Hrange1. tauto. }
  destruct (i =? m - 1 - i) eqn:Hself.
  - apply Nat.eqb_eq in Hself. cbn [map pick_index]. constructor.
    + intros Hin. apply in_map_iff in Hin. destruct Hin as [pk [Hpk Hin]].
      apply sym_loop_covered in Hin.
      * rewrite Hpk, <- Hself, map_fst_reduce_rows in Hin.
        destruct Hin as [Hin|Hin]; apply In_remove_row in Hin; tauto.
      * intros k Hk. rewrite map_fst_reduce_rows in Hk. now apply Hrange1.
    + apply IH. intros k Hk. rewrite map_fst_reduce_rows in Hk.
      now apply Hrange1.
  - apply Nat.eqb_neq in Hself. cbn [map pick_index].
    assert (forall pk,
               In pk (pivrgs_sym_loop fuel m eps target
                        (Some match first with
                              | Some x => x
                              | None => norm (snd (pick_pivot c rest))
                              end)
                        (S (S count))
                        (reduce_rows
                           (normalize
                              (orthogonalize (normalize (snd (pick_pivot c rest)))
                                 (get_row (m - 1 - i) (c :: rest))))
                           (reduce_rows (normalize (snd (pick_pivot c rest)))
                              (remove_row (m - 1 - i)
                                 (remove_row i (c :: rest)))))) ->
               pick_index pk <> i /\ pick_index pk <> m - 1 - i) as Hlater.
    { intros pk Hin. apply sym_loop_covered in Hin.
      - rewrite !map_fst_reduce_rows in Hin.
        split; intros Heq; rewrite Heq in Hin.
        + destruct Hin as [Hin|Hin]; apply In_remove_row in Hin;
            destruct Hin as [Hin Hne]; [|tauto].
          apply In_remove_row in Hin. tauto.
        + replace (m - 1 - (m - 1 - i)) with i in Hin by lia.
          destruct Hin as [Hin|Hin]; apply In_remove_row in Hin;
            destruct Hin as [Hin Hne]; [tauto|].
          apply In_remove_row in Hin. tauto.
      - intros k Hk. rewrite !map_fst_reduce_rows in Hk. now apply Hrange2. }
    constructor; [|constructor].
    + intros [Heq|Hin]; [now apply Hself|].
      apply in_map_iff in Hin. destruct Hin as [pk [Hpk Hin]].
      apply Hlater in Hin. tauto.
    + intros Hin. apply in_map_iff in Hin. destruct Hin as [pk [Hpk Hin]].
      apply Hlater in Hin. tauto.
    + apply IH. intros k Hk. rewrite !map_fst_reduce_rows in Hk.
      now apply Hrange2.
Qed.

Lemma pivrgs_sym_rows_NoDup (rs : list (list T)) (eps : R)
      (target : option nat) :
  NoDup (map pick_index (pivrgs_sym_rows rs eps target)).
Proof.
  unfold pivrgs_sym_rows. apply sym_loop_NoDup.
  intros k Hk. rewrite map_fst_combine_seq in Hk. apply in_seq in Hk. lia.
Qed.

Lemma pivrgs_sym_rows_count (rs : list (list T)) (rt : nat) :
  2 * rt <= length rs ->
  rt <= length (pivrgs_sym_rows rs 0 (Some rt)).
Proof.
  intros Hrt. unfold pivrgs_sym_rows.
  pose proof (@sym_loop_count (length rs) (length rs) rt None 0
                (combine (seq 0 (length rs)) rs)) as Hc.
  rewrite map_fst_combine_seq in Hc.
  specialize (Hc (seq_NoDup _ _)). apply Hc; [lia|].
  unfold indexed_row. rewrite length_combine, length_seq, Nat.min_id. lia.
Qed.

End PivRGSSymFacts.

(** ** Values of the kernel *)

Lemma k_if_fst_nonzero (n : Z) (om : R) : om <> 0%R -> fst (k_if n om) <> 0%R.
Proof.
  intros Hom. unfold k_if, Cdiv, Cinv, Cmul, Csub_real, Cscale, Ci, RtoC, Cnorm2.
  cbn [fst snd].
  set (x := (IZR n * PI)%R).
  assert (0 < (x * 0 - om) * (x * 0 - om) + x * 1 * (x * 1))%R as Hpos.
  { assert (0 < om * om)%R by nra. nra. }
  replace (-1 * ((x * 0 - om) / ((x * 0 - om) * (x * 0 - om) + x * 1 * (x * 1)))
           - 0 * (- (x * 1) / ((x * 0 - om) * (x * 0 - om) + x * 1 * (x * 1))))%R
    with (om / ((x * 0 - om) * (x * 0 - om) + x * 1 * (x * 1)))%R
    by (field; lra).
  unfold Rdiv. apply Rmult_integral_contrapositive_currified; [exact Hom|].
  apply Rinv_neq_0_compat. lra.
Qed.

Lemma k_if_nonzero (n : Z) (om : R) : om <> 0%R -> k_if n om <> C0.
Proof.
  intros Hom Hk. apply (@k_if_fst_nonzero n om Hom). now rewrite Hk.
Qed.

Lemma tanh_neq_1 (x : R) : tanh x <> 1%R.
Proof.
  unfold tanh, sinh, cosh. intros Heq.
  pose proof (exp_pos x) as Ha. pose proof (exp_pos (- x)) as Hb.
  assert ((exp x - exp (- x)) / 2 / ((exp x + exp (- x)) / 2)
            * (exp x + exp (- x)) = exp x - exp (- x))%R as Hm
      by (field; lra).
  rewrite Heq in Hm. lra.
Qed.

Lemma Cmul_real_neq (a : dcomplex) (t : R) :
  fst a <> 0%R -> t <> 1%R -> a <> Cmul_real a t.
Proof.
  intros Ha Ht Heq. apply (f_equal fst) in Heq. unfold Cmul_real in Heq.
  cbn [fst] in Heq. apply Ht.
  apply (Rmult_eq_reg_l (fst a)); [lra|exact Ha].
Qed.

(** ** The reference instances *)

Lemma fineparams_default_nmax (log2q : R -> R) (lam : R) :
  (0 < lam)%R ->
  exists fine,
    fineparams_default log2q lam = Ok fine /\ (20 <= fp_nmax fine)%Z.
Proof.
  intros Hl. eexists. split.
  - unfold fineparams_default. apply fineparams_ctor_ok; [exact Hl|].
    unfold default_p. lia.
  - cbn [fp_nmax]. lia.
Qed.

Lemma k_if_rows_ge (nmax : Z) (stat : statistic_t) :
  (20 <= nmax)%Z -> 40 <= k_if_rows nmax stat.
Proof. intros Hn. unfold k_if_rows. destruct stat; lia. Qed.

Lemma build_k_if_nrows (nmax : Z) (rf : list R) (stat : statistic_t) :
  length (rows (build_k_if nmax rf stat)) = k_if_rows nmax stat.
Proof. rewrite build_k_if_rows. now rewrite length_map, length_seq. Qed.

Lemma Forall_sort (P : nat -> Prop) (l : list nat) :
  Forall P l -> Forall P (sort l).
Proof.
  intros Hl. eapply Permutation_Forall; [|exact Hl].
  apply Permutation_sym. apply sort_perm.
Qed.

Lemma length_sort (l : list nat) : length (sort l) = length l.
Proof. apply Permutation_length. apply sort_perm. Qed.

Lemma Forall_firstn {A : Type} (P : A -> Prop) (n : nat) (l : list A) :
  Forall P l -> Forall P (firstn n l).
Proof.
  intros Hl. apply Forall_forall. intros x Hx. rewrite Forall_forall in Hl.
  apply Hl. eapply In_firstn_incl. exact Hx.
Qed.

Section ReferenceFacts.
Variables (gq : Z -> list R * list R) (bc : Z -> list R).

Lemma spec_selected_in_range (nmax : Z) (rf : list R) (stat : statistic_t)
      (nn : nat) (sym : bool) :
  Forall (fun p => p < k_if_rows nmax stat)
         (selected_pivots (spec_externals gq bc) (build_k_if nmax rf stat) nn sym).
Proof.
  rewrite <- (build_k_if_nrows nmax rf stat).
  unfold selected_pivots, spec_externals. cbn [ext_pivrgs ext_pivrgs_sym].
  destruct sym.
  - apply pivrgs_sym_rows_in_range.
  - apply pivrgs_rows_in_range.
Qed.

(** The symmetrized construction returns when the kernel matrix has rows
    enough for the nodes. *)
Lemma spec_ctor_sym_returns (lam : R) (rf : list R) (stat : statistic_t) :
  (0 < lam)%R -> node_count (length rf) stat true <= 20 ->
  returns (imfreq_ops_ctor (spec_externals gq bc) lam rf stat true).
Proof.
  intros Hl Hn.
  destruct (fineparams_default_nmax log2_exact Hl) as [fine [Hfine Hnmax]].
  eapply imfreq_ops_ctor_returns; [exact Hfine| |].
  - unfold sorted_pivots. rewrite length_sort.
    unfold selected_pivots, spec_externals. cbn [ext_pivrgs_sym].
    unfold pivrgs_sym_rank, pivrgs_result. rewrite length_map.
    apply pivrgs_sym_rows_count. rewrite build_k_if_nrows.
    pose proof (k_if_rows_ge stat Hnmax). lia.
  - apply Forall_firstn. unfold sorted_pivots. apply Forall_sort.
    apply spec_selected_in_range.
Qed.

(** The construction from one nonzero frequency returns. *)
Lemma spec_ctor_single_returns (lam om : R) (stat : statistic_t) :
  (0 < lam)%R -> om <> 0%R ->
  returns (imfreq_ops_ctor (spec_externals gq bc) lam [om] stat false).
Proof.
  intros Hl Hom.
  destruct (fineparams_default_nmax log2_exact Hl) as [fine [Hfine Hnmax]].
  eapply imfreq_ops_ctor_returns; [exact Hfine| |].
  - unfold sorted_pivots. rewrite length_sort.
    unfold selected_pivots, spec_externals. cbn [ext_pivrgs].
    unfold pivrgs, pivrgs_result. rewrite length_map.
    unfold node_count. 
    replace (symmetrized_boson stat false) with false
      by (unfold symmetrized_boson; now rewrite andb_false_r).
    cbn [length].
    pose proof (k_if_rows_ge stat Hnmax) as Hrows.
    rewrite build_k_if_rows.
    eapply pivrgs_rows_nonempty
      with (row := [k_if_stat (Z.of_nat 0 - fp_nmax fine) om stat]).
    + apply in_map_iff. exists 0. split; [reflexivity|].
      apply in_seq. lia.
    + unfold norm, norm2. cbn [fold_left sabs2 C_Scalar].
      apply sqrt_lt_R0. rewrite Rplus_0_l.
      apply Cnorm2_pos. unfold k_if_stat. now apply k_if_nonzero.
    + lra.
  - apply Forall_firstn. unfold sorted_pivots. apply Forall_sort.
    apply spec_selected_in_range.
Qed.

End ReferenceFacts.

Lemma ctor_extents (E : externals) (lam : R) (rf : list R) (stat : statistic_t)
      (sym : bool) (op : imfreq_ops) :
  imfreq_ops_ctor E lam rf stat sym = Ok op ->
  r op = length rf /\ niom op = node_count (length rf) stat sym /\
  statistic op = stat /\ dlr_rf op = rf.
Proof.
  intros Hop.
  destruct (imfreq_ops_ctor_inv _ _ _ _ _ Hop)
    as [fine [_ [_ [_ [Hs [Hr [Hn [Hrf _]]]]]]]].
  repeat split; assumption.
Qed.

Lemma cf2if_is_unscaled_kernel_witness :
  exists op,
    imfreq_ops_ctor reference_externals 1 [1%R] Fermion false = Ok op /\
    entry (get_cf2if op) 0 0 =
    Ok (k_if_stat (nth 0 (get_ifnodes op) 0%Z) (nth 0 (get_rfnodes op) 0%R)
                  Fermion).
Proof.
  assert (returns (imfreq_ops_ctor reference_externals 1 [1%R] Fermion false))
    as [op Hop] by (apply spec_ctor_single_returns; lra).
  exists op. split; [exact Hop|].
  destruct (ctor_extents _ _ _ _ _ Hop) as [Hr [Hn _]].
  apply (@cf2if_is_unscaled_kernel reference_externals 1 [1%R] Fermion false op Hop).
  - rewrite Hn. cbv. lia.
  - rewrite Hr. cbn. lia.
Defined.

(** C3, the claim as stated fails: on the symmetrized bosonic path, with the
    single frequency 1, the entry [cf2if(0,0)] is the kernel value itself
    and differs from the kernel value multiplied by [tanh(1/2)], whatever
    rows the Gram-Schmidt routine selects. *)
Lemma cf2if_symmetrized_boson_not_scaled :
  (forall E op,
     imfreq_ops_ctor E 1 [1%R] Boson true = Ok op ->
     exists x,
       entry (get_cf2if op) 0 0 = Ok x /\
       x <> Cmul_real (k_if_stat (nth 0 (get_ifnodes op) 0%Z) 1 Boson)
                      (tanh (1 / 2))) /\
  (exists op, imfreq_ops_ctor reference_externals 1 [1%R] Boson true = Ok op).
Proof.
  split.
  - intros E op Hop.
    destruct (ctor_extents _ _ _ _ _ Hop) as [Hr [Hn [_ Hrf]]].
    eexists. split.
    + unfold get_cf2if.
      apply (@ctor_kernel_entry E 1 [1%R] Boson true op 0 0 Hop).
      * rewrite Hn. cbv. lia.
      * rewrite Hr. cbn. lia.
    + unfold get_rfnodes. rewrite Hrf. cbn [nth].
      apply Cmul_real_neq.
      * unfold k_if_stat. apply k_if_fst_nonzero. lra.
      * apply tanh_neq_1.
  - apply spec_ctor_sym_returns; [lra|]. cbv. lia.
Qed.

(** ** Evaluation at the nodes *)

Lemma c2v_product_dims (m : imfreq_ops) (n : nat) (d : list dcomplex) :
  length (c2v_product m n d) = nrows (cf2if m) /\
  Forall (fun row => length row = n) (c2v_product m n d).
Proof.
  unfold c2v_product. split.
  - rewrite length_map. apply rows_length.
  - apply Forall_forall. intros row Hrow. apply in_map_iff in Hrow.
    destruct Hrow as [ar [<- _]]. rewrite length_map. unfold coef_columns.
    apply transpose_rows_length.
Qed.

Lemma node_count_square (rk : nat) (stat : statistic_t) (sym : bool) :
  symmetrized_boson stat sym = false -> node_count rk stat sym = rk.
Proof. intros Hs. unfold node_count. now rewrite Hs. Qed.

(** Where [cf2if] is the kernel at as many nodes as frequencies,
    [coefs2vals] returns an array and [coefs2eval] at the node of index [i]
    is its part at leading index [i]. *)
Lemma evaluation_at_node (m : imfreq_ops) (c : array dcomplex) (i : nat) :
  kernel_ops m -> niom m = r m ->
  wf_array c -> shape0 c = r m -> i < niom m ->
  exists v,
    coefs2vals m c = Ok v /\
    coefs2eval m c (nth i (dlr_if m) 0%Z) = Ok (slice0 v i).
Proof.
  intros Hk Hnr Hwf Hsh Hi.
  assert (0 < r m) as Hpos by lia.
  destruct (shape_leading c Hsh Hpos) as [ts Hts].
  destruct (kernel_ops_rows Hk) as [_ [Hm [Hnc Hnrows]]].
  destruct (c2v_product_dims m (extent ts) (data c)) as [Plen Prow].
  exists (mk_array (shape c) (concat (c2v_product m (extent ts) (data c)))).
  split.
  - rewrite (@coefs2vals_unfold m c ts Hts Hpos Hm Hnc).
    apply reshape_Ok. unfold size. cbn [shape matrix_of_rows extent fold_right].
    rewrite Hts. cbn [extent fold_right]. fold (extent ts).
    rewrite Plen, Hnrows, Hnr. lia.
  - rewrite (@coefs2eval_row m c ts i Hk Hts Hpos Hwf Hi).
    f_equal. unfold slice0, shape0. cbn [shape data]. rewrite Hts. cbn [hd List.tl].
    f_equal. rewrite <- Hnr, <- Hnrows, <- Plen.
    now rewrite chunks_concat.
Qed.

Section EvaluationAtNodes.
Variable E : externals.

(** For an operator built by the constructor with as many sampling nodes as
    frequencies (fermionic, or bosonic without symmetrization), every
    coefficient array [c] with leading dimension [r] and every index [i]
    into the sampling grid: [coefs2vals(c)] returns an array, and
    [coefs2eval(c, n_if[i])] is its part at leading index [i]. *)
Theorem coefs2eval_at_node (lam : R) (rf : list R) (stat : statistic_t)
        (sym : bool) (op : imfreq_ops) (c : array dcomplex) (i : nat) :
  imfreq_ops_ctor E lam rf stat sym = Ok op ->
  symmetrized_boson stat sym = false ->
  wf_array c -> shape0 c = r op -> i < niom op ->
  exists v,
    coefs2vals op c = Ok v /\
    coefs2eval op c (nth i (get_ifnodes op) 0%Z) = Ok (slice0 v i).
Proof.
  intros Hop Hsq Hwf Hsh Hi.
  pose proof (kernel_ops_ctor _ _ _ _ _ Hop) as Hk.
  destruct (ctor_extents _ _ _ _ _ Hop) as [Hr [Hn _]].
  rewrite node_count_square in Hn by exact Hsq.
  assert (niom op = r op) as Hnr by congruence.
  unfold get_ifnodes. now apply evaluation_at_node.
Qed.

(** With symmetrization and bosonic statistic the constructor of
    dlr_imfreq.cpp makes [r + 1] nodes; [coefs2vals] of this header, whose
    class has no member for the number of nodes, gives the result the shape
    of its argument, which the product of [r + 1] rows does not fit. *)
Lemma coefs2vals_symmetrized_boson (lam : R) (rf : list R) (op : imfreq_ops)
      (c : array dcomplex) :
  imfreq_ops_ctor E lam rf Boson true = Ok op ->
  shape0 c = r op -> 0 < r op -> 0 < size c ->
  coefs2vals op c = Abort "reshape: new shape has an incorrect number of elements".
Proof.
  intros Hop Hsh Hpos Hsize.
  pose proof (kernel_ops_ctor _ _ _ _ _ Hop) as Hk.
  destruct (ctor_extents _ _ _ _ _ Hop) as [Hr [Hn _]].
  unfold node_count in Hn. cbn in Hn.
  destruct (shape_leading c Hsh Hpos) as [ts Hts].
  destruct (kernel_ops_rows Hk) as [_ [Hm [Hnc Hnrows]]].
  destruct (c2v_product_dims op (extent ts) (data c)) as [Plen Prow].
  rewrite (@coefs2vals_unfold op c ts Hts Hpos Hm Hnc).
  unfold reshape.
  assert ((extent (shape c) =? size (matrix_of_rows (extent ts)
                                      (c2v_product op (extent ts) (data c)))) = false)
    as Hne.
  { apply Nat.eqb_neq. unfold size in *.
    cbn [shape matrix_of_rows extent fold_right].
    rewrite Hts in *. cbn [extent fold_right] in *. fold (extent ts) in *.
    rewrite Plen, Hnrows, Hn, Hr. nia. }
  now rewrite Hne.
Qed.

End EvaluationAtNodes.

Lemma coefs2eval_at_node_witness :
  exists op v,
    imfreq_ops_ctor reference_externals 1 [1%R] Fermion false = Ok op /\
    coefs2vals op (mk_array [1] [Ci]) = Ok v /\
    coefs2eval op (mk_array [1] [Ci]) (nth 0 (get_ifnodes op) 0%Z) =
    Ok (slice0 v 0).
Proof.
  assert (returns (imfreq_ops_ctor reference_externals 1 [1%R] Fermion false))
    as [op Hop] by (apply spec_ctor_single_returns; lra).
  destruct (ctor_extents _ _ _ _ _ Hop) as [Hr [Hn _]].
  destruct (@coefs2eval_at_node reference_externals 1 [1%R] Fermion false op
              (mk_array [1] [Ci]) 0 Hop)
    as [v [Hv He]].
  - reflexivity.
  - reflexivity.
  - rewrite Hr. reflexivity.
  - rewrite Hn. cbv. lia.
  - exists op, v. repeat split; assumption.
Defined.

(** ** Values to coefficients and back *)

Lemma mget_chunks_map (f : dcomplex -> dcomplex) (n k : nat) (d : list dcomplex)
      (i j : nat) :
  length d = k * n -> i < k -> j < n ->
  mget (chunks n k (map f d)) i j = f (mget (chunks n k d) i j).
Proof.
  intros Hd Hi Hj. unfold mget. rewrite chunks_map.
  rewrite (nth_map_in _ _ []) by (now rewrite chunks_length).
  apply nth_map_in.
  pose proof (chunks_row_length n k d Hd) as Hrow.
  rewrite Forall_forall in Hrow. rewrite Hrow; [exact Hj|].
  apply nth_In. now rewrite chunks_length.
Qed.

Lemma wf_matrix_rows_dims {T : Type} (a : array T) (m n : nat) :
  wf_matrix a -> shape a = [m; n] ->
  length (rows a) = m /\ Forall (fun row => length row = n) (rows a).
Proof.
  intros Hwf Hs. split.
  - rewrite rows_length. unfold nrows. now rewrite Hs.
  - pose proof (rows_row_length Hwf) as Hr. unfold ncols in Hr.
    now rewrite Hs in Hr.
Qed.

Section RoundTrip.
Variable E : externals.
Hypothesis Hlapack : lapack_contract E.

(** What [vals2coefs] returns for a factored operator: the transposed
    solutions, one for each column of the values. *)
Lemma vals2coefs_solves (m : imfreq_ops) (g : array dcomplex) (ts : list nat) :
  factored E m -> 0 < r m -> wf_array g -> shape g = r m :: ts ->
  exists xs,
    vals2coefs E m g = Ok (mk_array (shape g) (concat (transpose_rows (r m) xs))) /\
    length xs = extent ts /\
    Forall (fun xr => length xr = r m) xs /\
    Forall2 (fun xr br => map (fun ar => cdot ar xr) (rows (cf2if m)) = br)
            xs (coef_columns (r m) (extent ts) (data g)).
Proof.
  intros [Hlu [Hwfa [Hnr Hnc]]] Hpos Hwf Hts.
  assert (length (data g) = r m * extent ts) as Hd.
  { unfold wf_array, size in Hwf. now rewrite Hts in Hwf. }
  unfold vals2coefs.
  unfold shape0. rewrite Hts. cbn [hd]. rewrite Nat.eqb_refl. cbn [negb].
  unfold size. rewrite Hts.
  change (extent (r m :: ts)) with (r m * extent ts).
  rewrite int_div_mul by exact Hpos. cbn [bind].
  rewrite reshape_Ok
    by (unfold size; rewrite Hts; cbn [extent fold_right]; fold (extent ts); lia).
  cbn [bind].
  set (g_rs := mk_array [r m; extent ts] (data g)).
  assert (wf_matrix (transpose g_rs)) as Hwfb by apply wf_transpose.
  assert (shape (transpose g_rs) = [extent ts; r m]) as Hsb
      by apply shape_transpose.
  assert (ncols (transpose g_rs) = ncols (cf2if m)) as Hcb.
  { unfold ncols at 1. rewrite Hsb. cbn [nth]. now rewrite Hnc. }
  assert (nrows (cf2if m) = ncols (cf2if m)) as Hsq by congruence.
  destruct (Hlapack Hwfa Hsq Hlu Hwfb Hcb) as [x [Hx [Hwfx [Hsx Hsol]]]].
  rewrite Hx. cbn [bind]. rewrite Hsb in Hsx.
  destruct (wf_matrix_rows_dims Hwfx Hsx) as [Hxl Hxr].
  exists (rows x). split; [|split; [exact Hxl|split; [exact Hxr|]]].
  - rewrite reshape_Ok.
    + f_equal. unfold transpose. cbn [data matrix_of_rows].
      unfold ncols. rewrite Hsx. reflexivity.
    + unfold size. rewrite shape_transpose. unfold ncols, nrows. rewrite Hsx.
      cbn [nth extent fold_right]. fold (extent ts). lia.
  - rewrite rows_transpose in Hsol. exact Hsol.
Qed.

(** C1. For every square [imfreq_ops] (one that holds the LU factors of its
    square matrix [cf2if], as every operator built without bosonic
    symmetrization does when the factorisation succeeds), every
    [beta > 0] and every array [g] with leading dimension [r],
    [coefs2vals(beta, vals2coefs(beta, g))] returns [g]. *)
Theorem transform_round_trip (m : imfreq_ops) (beta : R) (g : array dcomplex) :
  factored E m -> 0 < r m -> (0 < beta)%R -> wf_array g -> shape0 g = r m ->
  (c <- vals2coefs_beta E m beta g ;; coefs2vals_beta m beta c) = Ok g.
Proof.
  intros Hf Hpos Hbeta Hwf Hsh.
  destruct (shape_leading g Hsh Hpos) as [ts Hts].
  pose proof Hf as [_ [Hwfa [Hnr Hnc]]].
  assert (length (data g) = r m * extent ts) as Hd.
  { unfold wf_array, size in Hwf. now rewrite Hts in Hwf. }
  set (f := fun x => Cdiv_real x beta).
  assert (wf_array (map_array f g)) as Hwf'.
  { unfold wf_array, size, map_array. cbn [shape data]. rewrite length_map.
    exact Hwf. }
  destruct (@vals2coefs_solves m (map_array f g) ts Hf Hpos Hwf' Hts)
    as [xs [Hv [Hxl [Hxr Hsol]]]].
  unfold vals2coefs_beta. fold f. rewrite Hv. cbn [bind shape map_array].
  unfold coefs2vals_beta.
  assert (is_matrix (cf2if m) = true) as Hm.
  { destruct Hwfa as [Hl _]. unfold is_matrix. now rewrite Hl. }
  rewrite (@coefs2vals_unfold m _ ts); [|exact Hts|exact Hpos|exact Hm|exact Hnc].
  cbn [shape data map_array].
  destruct (wf_matrix_rows_dims (a := cf2if m) (m := r m) (n := r m) Hwfa)
    as [Hal Har].
  { destruct Hwfa as [Hl _]. unfold nrows, ncols in Hnr, Hnc.
    destruct (shape (cf2if m)) as [|a0 [|a1 [|a2 sh]]]; simpl in Hl;
      try discriminate. simpl in Hnr, Hnc. now subst. }
  assert (c2v_product m (extent ts) (map (Cscale beta) (concat (transpose_rows (r m) xs)))
          = chunks (extent ts) (r m) (data g)) as HP.
  { unfold c2v_product, coef_columns.
    rewrite chunks_map.
    assert (chunks (extent ts) (r m) (concat (transpose_rows (r m) xs))
            = transpose_rows (r m) xs) as Hch.
    { pose proof (@chunks_concat _ (extent ts) (transpose_rows (r m) xs)) as Hc.
      rewrite transpose_rows_length in Hc. apply Hc.
      pose proof (transpose_rows_row_length (r m) xs) as Hl.
      now rewrite Hxl in Hl. }
    rewrite Hch.
    rewrite (transpose_rows_map (Cscale beta)) by apply Cscale_0.
    assert (transpose_rows (extent ts) (transpose_rows (r m) xs) = xs) as Hinv
        by (rewrite <- Hxl; now apply transpose_rows_involutive).
    rewrite Hinv.
    apply (@mat_ext _ _ (r m) (extent ts)).
    - now rewrite length_map.
    - apply chunks_length.
    - apply Forall_forall. intros row Hrow. apply in_map_iff in Hrow.
      destruct Hrow as [ar [<- _]]. now rewrite !length_map.
    - now apply chunks_row_length.
    - intros i k Hi Hk. unfold mget at 1.
      rewrite (nth_map_in _ _ []) by lia.
      rewrite map_map.
      rewrite (nth_map_in _ _ []) by lia.
      rewrite dot_scale_r.
      assert (nth_error xs k = Some (nth k xs [])) as Hxk
          by (apply nth_error_nth'; lia).
      assert (nth_error (coef_columns (r m) (extent ts) (data (map_array f g))) k
              = Some (nth k (coef_columns (r m) (extent ts) (data (map_array f g))) []))
        as Hbk.
      { apply nth_error_nth'. unfold coef_columns.
        rewrite transpose_rows_length. exact Hk. }
      pose proof (Forall2_at k Hsol Hxk Hbk) as Hrow. cbv beta in Hrow.
      assert (cdot (nth i (rows (cf2if m)) []) (nth k xs [])
              = f (mget (chunks (extent ts) (r m) (data g)) i k)) as Hval.
      { transitivity (nth i (map (fun ar => cdot ar (nth k xs [])) (rows (cf2if m))) C0).
        - symmetry.
          apply (@nth_map_in _ _ (fun ar => cdot ar (nth k xs []))
                             (rows (cf2if m)) i [] C0).
          lia.
        - rewrite Hrow. unfold coef_columns.
          change (nth i (nth k (transpose_rows (extent ts)
                                  (chunks (extent ts) (r m) (data (map_array f g)))) []) C0)
            with (mget (transpose_rows (extent ts)
                          (chunks (extent ts) (r m) (data (map_array f g)))) k i).
          rewrite mget_transpose_rows by exact Hk.
          unfold map_array. cbn [data].
          apply mget_chunks_map; assumption. }
      rewrite Hval. unfold f. apply Cscale_div_real. lra. }
  rewrite HP.
  rewrite reshape_Ok.
  - cbn [data matrix_of_rows]. rewrite concat_chunks by exact Hd.
    f_equal. apply array_eta.
  - unfold size. cbn [shape matrix_of_rows extent fold_right].
    rewrite chunks_length, Hts. cbn [extent fold_right]. fold (extent ts). lia.
Qed.

End RoundTrip.

(** ** The reference elimination *)

Lemma map_fst_combine_eq (A B : Type) (l : list A) (l' : list B) :
  length l = length l' -> map fst (combine l l') = l.
Proof.
  revert l'. induction l as [|a l IH]; intros [|b l'] Hl; simpl in *;
    try discriminate; [reflexivity|].
  f_equal. apply IH. lia.
Qed.

Lemma find_pivot_spec (eqs : list equation) (pv : equation)
      (others : list equation) :
  find_pivot eqs = Some (pv, others) ->
  leading pv <> C0 /\ Permutation eqs (pv :: others).
Proof.
  revert pv others. induction eqs as [|e eqs IH]; intros pv others Hf;
    simpl in Hf; [discriminate|].
  destruct (Ceq_dec (leading e) C0) as [Hz|Hnz].
  - destruct (find_pivot eqs) as [[pv' others']|]; [|discriminate].
    inversion Hf; subst. destruct (IH pv others' eq_refl) as [Hl Hp].
    split; [exact Hl|].
    apply perm_trans with (e :: pv :: others').
    + now apply perm_skip.
    + apply perm_swap.
  - inversion Hf; subst. split; [exact Hnz|apply Permutation_refl].
Qed.

Lemma find_pivot_coefficients (eqs1 eqs2 : list equation) (pv1 : equation)
      (others1 : list equation) :
  map fst eqs1 = map fst eqs2 ->
  find_pivot eqs1 = Some (pv1, others1) ->
  exists pv2 others2,
    find_pivot eqs2 = Some (pv2, others2) /\
    fst pv1 = fst pv2 /\ map fst others1 = map fst others2.
Proof.
  revert eqs2 pv1 others1.
  induction eqs1 as [|e1 eqs1 IH]; intros [|e2 eqs2] pv1 others1 Hc Hf;
    simpl in Hc, Hf; try discriminate.
  inversion Hc as [[He Hrest]].
  assert (leading e1 = leading e2) as Hlead by (unfold leading; now rewrite He).
  simpl. rewrite <- Hlead.
  destruct (Ceq_dec (leading e1) C0) as [Hz|Hnz].
  - destruct (find_pivot eqs1) as [[pv' others']|] eqn:Hf1; [|discriminate].
    inversion Hf; subst.
    destruct (IH eqs2 pv1 others' Hrest eq_refl) as [pv2 [others2 [Hf2 [Hp Ho]]]].
    rewrite Hf2. exists pv2, (e2 :: others2). repeat split; try assumption.
    simpl. now rewrite He, Ho.
  - inversion Hf; subst. exists e2, eqs2. repeat split; assumption.
Qed.

Lemma dot_axpy (k : dcomplex) (u v x : list dcomplex) :
  length u = length v ->
  cdot (axpy k u v) x = Csub (cdot v x) (Cmul k (cdot u x)).
Proof.
  revert v x. induction u as [|a u IH]; intros [|b v] x Hl; simpl in Hl;
    try discriminate.
  - unfold axpy. simpl. rewrite !dot_nil_l. ring.
  - destruct x as [|y x].
    + rewrite !dot_nil_r. ring.
    + unfold axpy in *. cbn [combine map fst snd]. rewrite !dot_cons.
      rewrite IH by lia. ring.
Qed.

Lemma axpy_length (k : dcomplex) (u v : list dcomplex) :
  length u = length v -> length (axpy k u v) = length v.
Proof.
  intros Hl. unfold axpy. rewrite length_map, length_combine. lia.
Qed.

Lemma eliminate_coefficients (pv1 pv2 e1 e2 : equation) :
  fst pv1 = fst pv2 -> fst e1 = fst e2 ->
  fst (eliminate pv1 e1) = fst (eliminate pv2 e2).
Proof.
  intros Hp He. unfold eliminate, leading. cbn [fst]. now rewrite Hp, He.
Qed.

Lemma gauss_solve_coefficients (n : nat) :
  forall (eqs1 eqs2 : list equation) (x1 : list dcomplex),
    map fst eqs1 = map fst eqs2 ->
    gauss_solve n eqs1 = Some x1 -> exists x2, gauss_solve n eqs2 = Some x2.
Proof.
  induction n as [|n IH]; intros eqs1 eqs2 x1 Hc Hs; simpl in *.
  - now exists [].
  - destruct (find_pivot eqs1) as [[pv1 others1]|] eqn:Hf1; [|discriminate].
    destruct (find_pivot_coefficients _ _ Hc Hf1)
      as [pv2 [others2 [Hf2 [Hp Ho]]]].
    rewrite Hf2.
    destruct (gauss_solve n (map (eliminate pv1) others1)) as [x'|] eqn:Hs1;
      [|discriminate].
    destruct (IH (map (eliminate pv1) others1) (map (eliminate pv2) others2) x')
      as [x2 Hx2]; [|exact Hs1|].
    + rewrite !map_map. clear - Hp Ho.
      revert others2 Ho. induction others1 as [|e1 o1 IHo]; intros [|e2 o2] Ho;
        simpl in Ho; try discriminate; [reflexivity|].
      inversion Ho as [[He Hr]]. simpl. f_equal.
      * now apply eliminate_coefficients.
      * now apply IHo.
    + rewrite Hx2. eexists. reflexivity.
Qed.

Lemma gauss_solve_sound (n : nat) :
  forall (eqs : list equation) (x : list dcomplex),
    Forall (fun e => length (fst e) = n) eqs -> length eqs <= n ->
    gauss_solve n eqs = Some x ->
    length x = n /\ Forall (holds x) eqs.
Proof.
  induction n as [|n IH]; intros eqs x Hlen Hle Hs; simpl in Hs.
  - inversion Hs; subst. split; [reflexivity|].
    destruct eqs; [constructor|simpl in Hle; lia].
  - destruct (find_pivot eqs) as [[pv others]|] eqn:Hf; [|discriminate].
    destruct (find_pivot_spec _ Hf) as [Hlead Hperm].
    destruct (gauss_solve n (map (eliminate pv) others)) as [x'|] eqn:Hs';
      [|discriminate].
    inversion Hs; subst x. clear Hs.
    assert (Forall (fun e => length (fst e) = S n) (pv :: others)) as Hlen'
        by (eapply Permutation_Forall; eassumption).
    inversion Hlen' as [|pv' o' Hpv Hothers]; subst.
    assert (length others <= n) as Hle'.
    { apply Permutation_length in Hperm. simpl in Hperm. lia. }
    destruct (IH (map (eliminate pv) others) x') as [Hx' Hall].
    + apply Forall_forall. intros e He. apply in_map_iff in He.
      destruct He as [e0 [<- He0]]. rewrite Forall_forall in Hothers.
      specialize (Hothers e0 He0). unfold eliminate. cbn [fst].
      rewrite axpy_length.
      * destruct (fst e0); simpl in *; lia.
      * destruct (fst pv), (fst e0); simpl in *; lia.
    + now rewrite length_map.
    + exact Hs'.
    + split; [simpl; now rewrite Hx'|].
      eapply Permutation_Forall; [apply Permutation_sym; exact Hperm|].
      destruct pv as [[|a cs] b]; [simpl in Hpv; discriminate|].
      unfold leading in *. cbn [fst snd hd List.tl] in *.
      constructor.
      * unfold holds. cbn [fst snd]. rewrite dot_cons.
        rewrite Cmul_comm, Cdiv_mul_cancel by exact Hlead. ring.
      * apply Forall_forall. intros e He.
        rewrite Forall_forall in Hall.
        assert (holds x' (eliminate (a :: cs, b) e)) as Hel
            by (apply Hall; now apply in_map).
        rewrite Forall_forall in Hothers. specialize (Hothers e He).
        destruct e as [[|c es] d]; [simpl in Hothers; discriminate|].
        unfold holds, eliminate, leading in *. cbn [fst snd hd List.tl] in *.
        rewrite dot_axpy in Hel by (simpl in *; lia).
        rewrite dot_cons. unfold Cdiv in *.
        assert (cdot es x' = Cadd (Csub d (Cmul (Cmul c (Cinv a)) b))
                                  (Cmul (Cmul c (Cinv a)) (cdot cs x'))) as Hes.
        { rewrite <- Hel. ring. }
        rewrite Hes. ring.
Qed.

(** The reference instances meet the contract. *)
Lemma reference_lapack_contract (gq : Z -> list R * list R) (bc : Z -> list R) :
  lapack_contract (spec_externals gq bc).
Proof.
  intros a lu piv b Hwfa Hsq Hlu Hwfb Hcb.
  unfold spec_externals in *. cbn [ext_getrf ext_getrs] in *.
  unfold ref_getrf in Hlu.
  destruct (gauss_solve (ncols a) (map (fun row => (row, C0)) (rows a)))
    as [x0|] eqn:Hs0; inversion Hlu; subst lu piv. clear Hlu.
  pose proof (rows_row_length Hwfa) as Hra.
  pose proof (rows_row_length Hwfb) as Hrb.
  pose proof (rows_length a) as Hla.
  assert (forall rhs, length rhs = ncols a ->
            exists x, gauss_solve (ncols a) (combine (rows a) rhs) = Some x /\
                      length x = ncols a /\
                      map (fun ar => cdot ar x) (rows a) = rhs) as Hsolve.
  { intros rhs Hrhs.
    destruct (@gauss_solve_coefficients (ncols a)
                (map (fun row => (row, C0)) (rows a)) (combine (rows a) rhs) x0)
      as [x Hx]; [|exact Hs0|].
    { rewrite map_map. cbn [fst]. rewrite map_id.
      symmetry. apply map_fst_combine_eq. lia. }
    exists x. split; [exact Hx|].
    destruct (@gauss_solve_sound (ncols a) (combine (rows a) rhs) x)
      as [Hxl Hall]; [| |exact Hx|].
    - apply Forall_forall. intros [row d] Hin. cbn [fst].
      apply in_combine_l in Hin. rewrite Forall_forall in Hra. now apply Hra.
    - change (length (A := equation) (combine (rows a) rhs))
        with (length (combine (rows a) rhs)).
      rewrite length_combine. lia.
    - split; [exact Hxl|].
      apply (nth_ext _ _ C0 C0); [rewrite length_map; lia|].
      intros i Hi. rewrite length_map in Hi.
      rewrite (@nth_map_in _ _ (fun ar => cdot ar x) (rows a) i [] C0 Hi).
      rewrite Forall_forall in Hall.
      assert (In (nth i (rows a) [], nth i rhs C0) (combine (rows a) rhs)) as Hin.
      { rewrite <- combine_nth by lia. apply nth_In.
        rewrite length_combine. lia. }
      exact (Hall _ Hin). }
  unfold ref_getrs.
  destruct Hwfa as [Hsa Hda]. destruct Hwfb as [Hsb Hdb].
  assert (is_matrix a = true) as Hma by (unfold is_matrix; now rewrite Hsa).
  assert (is_matrix b = true) as Hmb by (unfold is_matrix; now rewrite Hsb).
  rewrite Hma, Hmb, Hcb, Hsq, !Nat.eqb_refl. cbn [andb].
  assert (exists xs,
            for_each (fun rhs =>
                        match gauss_solve (ncols a) (combine (rows a) rhs) with
                        | Some x => Ok x
                        | None => Abort "singular matrix"
                        end) (rows b) = Ok xs /\
            Forall (fun x => length x = ncols a) xs /\
            Forall2 (fun xr br => map (fun ar => cdot ar xr) (rows a) = br)
                    xs (rows b)) as [xs [Hxs [Hxl Hxb]]].
  { rewrite Hcb in Hrb. clear - Hsolve Hrb.
    induction (rows b) as [|rhs rs IH].
    - exists []. repeat split; constructor.
    - inversion Hrb as [|rhs' rs' Hr Hrs]; subst.
      destruct (Hsolve rhs Hr) as [x [Hx [Hxl Hxe]]].
      destruct (IH Hrs) as [xs [Hxs [Hxsl Hxb]]].
      exists (x :: xs). cbn [for_each]. rewrite Hx. cbn [bind].
      rewrite Hxs. cbn [bind]. repeat split; constructor; assumption. }
  rewrite Hxs. cbn [bind].
  assert (length xs = nrows b) as Hxn.
  { apply Forall2_length in Hxb. now rewrite rows_length in Hxb. }
  eexists. split; [reflexivity|]. split; [|split].
  - apply wf_matrix_of_rows. exact Hxl.
  - unfold matrix_of_rows. cbn [shape]. rewrite Hxn, <- Hcb.
    unfold nrows, ncols.
    destruct (shape b) as [|b0 [|b1 [|b2 sh]]]; simpl in Hsb; try discriminate.
    reflexivity.
  - rewrite rows_matrix_of_rows by exact Hxl. exact Hxb.
Qed.

(** ** Operators that the constructor factors *)

Lemma ctor_factored (E : externals) (lam : R) (rf : list R) (stat : statistic_t)
      (sym : bool) (op : imfreq_ops) :
  imfreq_ops_ctor E lam rf stat sym = Ok op ->
  symmetrized_boson stat sym = false ->
  snd (ext_getrf E (cf2if op)) = 0%Z ->
  factored E op.
Proof.
  intros Hop Hsb Hinfo.
  pose proof (ctor_niom_length _ _ _ _ _ Hop) as Hlen.
  destruct (imfreq_ops_ctor_inv _ _ _ _ _ Hop)
    as [fine [_ [_ [_ [_ [Hr [Hn [_ [_ [Hc Hlu]]]]]]]]]].
  rewrite Hsb in Hlu. destruct Hlu as [info Hlu].
  rewrite Hlu in Hinfo. cbn [snd] in Hinfo. subst info.
  unfold node_count in Hn. rewrite Hsb in Hn.
  split; [exact Hlu|]. rewrite Hc. split; [|split].
  - apply wf_matrix_of_rows. apply kernel_rows_row_length.
  - unfold nrows, matrix_of_rows. cbn [shape nth].
    unfold kernel_rows. rewrite length_map. lia.
  - unfold ncols, matrix_of_rows. cbn [shape nth]. lia.
Qed.

(** The operator built from one nonzero frequency has a nonzero 1 x 1
    matrix, which the reference elimination factors. *)
Lemma spec_ctor_single_factored (gq : Z -> list R * list R) (bc : Z -> list R)
      (lam om : R) (stat : statistic_t) (op : imfreq_ops) :
  om <> 0%R ->
  imfreq_ops_ctor (spec_externals gq bc) lam [om] stat false = Ok op ->
  factored (spec_externals gq bc) op.
Proof.
  intros Hom Hop.
  assert (symmetrized_boson stat false = false) as Hsb
      by (unfold symmetrized_boson; apply andb_false_r).
  apply (@ctor_factored _ lam [om] stat false op Hop Hsb).
  pose proof (ctor_niom_length _ _ _ _ _ Hop) as Hlen.
  destruct (imfreq_ops_ctor_inv _ _ _ _ _ Hop)
    as [fine [_ [_ [_ [_ [Hr [Hn [_ [_ [Hc _]]]]]]]]]].
  unfold node_count in Hn. rewrite Hsb in Hn. cbn [length] in Hn.
  rewrite Hn in Hlen.
  destruct (dlr_if op) as [|n [|n' ns]]; simpl in Hlen; try discriminate.
  rewrite Hc. unfold spec_externals. cbn [ext_getrf].
  unfold ref_getrf.
  rewrite rows_matrix_of_rows by apply kernel_rows_row_length.
  unfold ncols, matrix_of_rows. cbn [shape nth length kernel_rows map].
  cbn [gauss_solve find_pivot leading fst hd].
  destruct (Ceq_dec (k_if_stat n om stat) C0) as [Hz|Hnz].
  - exfalso. revert Hz. unfold k_if_stat. now apply k_if_nonzero.
  - reflexivity.
Qed.

Lemma transform_round_trip_witness :
  exists op,
    imfreq_ops_ctor reference_externals 1 [1%R] Fermion false = Ok op /\
    (c <- vals2coefs_beta reference_externals op 2 (mk_array [1] [Ci]) ;;
     coefs2vals_beta op 2 c) = Ok (mk_array [1] [Ci]).
Proof.
  assert (returns (imfreq_ops_ctor reference_externals 1 [1%R] Fermion false))
    as [op Hop] by (apply spec_ctor_single_returns; lra).
  exists op. split; [exact Hop|].
  destruct (ctor_extents _ _ _ _ _ Hop) as [Hr _].
  apply (@transform_round_trip reference_externals
           (reference_lapack_contract _ _) op 2 (mk_array [1] [Ci])).
  - apply (@spec_ctor_single_factored _ _ 1%R 1%R Fermion op); [lra|exact Hop].
  - rewrite Hr. cbn. lia.
  - lra.
  - reflexivity.
  - rewrite Hr. reflexivity.
Defined.

(** ** The heap across a transformation *)

Lemma load_alloc (h : heap) (a : array dcomplex) :
  nth_error (h ++ [a]) (length h) = Some a.
Proof. rewrite nth_error_app2 by lia. now rewrite Nat.sub_diag. Qed.

Lemma replace_nth_last (h : heap) (a x : array dcomplex) :
  replace_nth (length h) x (h ++ [a]) = h ++ [x].
Proof. induction h as [|b h IH]; simpl; [reflexivity|now rewrite IH]. Qed.

Lemma firstn_prefix (h t : heap) : firstn (length h) (h ++ t) = h.
Proof. induction h as [|b h IH]; simpl; [reflexivity|now rewrite IH]. Qed.

Lemma firstn_prefix2 (h : heap) (a b : array dcomplex) (t : heap) :
  firstn (length h) (((h ++ [a]) ++ [b]) ++ t) = h.
Proof. rewrite <- !app_assoc. apply firstn_prefix. Qed.

Lemma nth_error_last2 (h : heap) (a b : array dcomplex) :
  nth_error ((h ++ [a]) ++ [b]) (length (h ++ [a])) = Some b.
Proof. apply load_alloc. Qed.

Lemma reshape_same_shape {T : Type} (a v : array T) (sh : list nat) :
  reshape a sh = Ok v -> shape v = sh.
Proof.
  unfold reshape. destruct (extent sh =? size a); [|discriminate].
  intros Hv. inversion Hv. reflexivity.
Qed.

Ltac failed_call :=
  unfold pure_call; cbn [fst snd];
  split;
  [ first [ apply firstn_all | apply firstn_prefix
          | rewrite <- app_assoc; apply firstn_prefix ]
  | reflexivity ].

Section Frame.
Variable E : externals.

Lemma vals2coefs_mem_pure (m : imfreq_ops) (h : heap) (g : addr)
      (gv : array dcomplex) :
  nth_error h g = Some gv ->
  pure_call h gv (vals2coefs E m gv) (vals2coefs_mem E m g h).
Proof.
  intros Hg. unfold vals2coefs_mem, vals2coefs.
  unfold bindM at 1. unfold load at 1. rewrite Hg.
  destruct (negb (r m =? shape0 gv)); [solve [failed_call]|].
  unfold bindM at 1. unfold lift at 1.
  destruct (int_div (size gv) (r m)) as [nrhs|w|w]; cbn [bind];
    try solve [failed_call].
  unfold bindM at 1. unfold lift at 1.
  destruct (reshape gv [r m; nrhs]) as [g_rs|w|w]; cbn [bind];
    try solve [failed_call].
  unfold bindM, alloc, load, lift, store_at.
  rewrite load_alloc.
  destruct (ext_getrs E (if2cf_lu m) (if2cf_piv m) (transpose g_rs))
    as [x|w|w]; cbn [bind]; try solve [failed_call].
  rewrite replace_nth_last, load_alloc, nth_error_last2.
  destruct (reshape (transpose x) (shape gv)) as [res|w|w] eqn:Hres;
    cbn [bind]; try solve [failed_call].
  unfold pure_call. cbn [fst snd].
  split; [rewrite <- !app_assoc; apply firstn_prefix|].
  split; [rewrite !length_app; lia|].
  exists res. split; [apply load_alloc|]. split; [reflexivity|].
  exact (reshape_same_shape _ _ Hres).
Qed.

Lemma coefs2vals_mem_pure (m : imfreq_ops) (h : heap) (g : addr)
      (gv : array dcomplex) :
  nth_error h g = Some gv ->
  pure_call h gv (coefs2vals m gv) (coefs2vals_mem m g h).
Proof.
  intros Hg. unfold coefs2vals_mem, coefs2vals.
  unfold bindM at 1. unfold load at 1. rewrite Hg.
  destruct (negb (r m =? shape0 gv)); [solve [failed_call]|].
  unfold bindM at 1. unfold lift at 1.
  destruct (int_div (size gv) (r m)) as [nrhs|w|w]; cbn [bind];
    try solve [failed_call].
  unfold bindM at 1. unfold lift at 1.
  destruct (reshape gv [r m; nrhs]) as [g_rs|w|w]; cbn [bind];
    try solve [failed_call].
  unfold bindM at 1. unfold lift at 1.
  destruct (matmul (cf2if m) g_rs) as [gval|w|w]; cbn [bind];
    try solve [failed_call].
  unfold bindM, alloc, load, lift.
  rewrite load_alloc.
  destruct (reshape gval (shape gv)) as [res|w|w] eqn:Hres;
    cbn [bind]; try solve [failed_call].
  unfold pure_call. cbn [fst snd].
  split; [rewrite <- !app_assoc; apply firstn_prefix|].
  split; [rewrite !length_app; lia|].
  exists res. split; [apply load_alloc|]. split; [reflexivity|].
  exact (reshape_same_shape _ _ Hres).
Qed.

Lemma pure_call_temporary (h : heap) (gv tmp : array dcomplex)
      (val : result (array dcomplex)) (run : heap * result addr) :
  shape tmp = shape gv ->
  pure_call (h ++ [tmp]) tmp val run -> pure_call h gv val run.
Proof.
  intros Hsh [Hpre Hres]. unfold pure_call. split.
  - rewrite length_app in Hpre. cbn [length] in Hpre.
    assert (firstn (length h) (firstn (length h + 1) (fst run)) =
            firstn (length h) (h ++ [tmp])) as Hcut by now rewrite Hpre.
    rewrite firstn_firstn, Nat.min_l in Hcut by lia.
    rewrite Hcut. apply firstn_prefix.
  - destruct (snd run) as [q|w|w]; try exact Hres.
    destruct Hres as [Hq [v [Hv [Hval Hshape]]]].
    rewrite length_app in Hq. cbn [length] in Hq.
    split; [lia|]. exists v. repeat split; try assumption. congruence.
Qed.

(** C9. [vals2coefs] and [coefs2vals], with and without [beta], called on
    the address [g] of an array [gv] in the heap [h]: every array of [h],
    the caller's [gv] among them, is unchanged after the call; an address
    that is returned is new, and the array there has the shape of [gv] and
    is the value of the transformation at [gv]; the call fails exactly as
    the transformation does.  The operator is a value outside the heap that
    the const member functions cannot change, so nothing of the call stays
    behind in it. *)
Theorem transforms_are_pure (m : imfreq_ops) (beta : R) (h : heap) (g : addr)
        (gv : array dcomplex) :
  nth_error h g = Some gv ->
  pure_call h gv (vals2coefs E m gv) (vals2coefs_mem E m g h) /\
  pure_call h gv (coefs2vals m gv) (coefs2vals_mem m g h) /\
  pure_call h gv (vals2coefs_beta E m beta gv) (vals2coefs_beta_mem E m beta g h) /\
  pure_call h gv (coefs2vals_beta m beta gv) (coefs2vals_beta_mem m beta g h).
Proof.
  intros Hg. split; [|split; [|split]].
  - now apply vals2coefs_mem_pure.
  - now apply coefs2vals_mem_pure.
  - unfold vals2coefs_beta_mem, vals2coefs_beta.
    unfold bindM at 1. unfold load at 1. rewrite Hg.
    unfold bindM at 1. unfold alloc at 1.
    apply pure_call_temporary with (tmp := map_array (fun x => Cdiv_real x beta) gv);
      [reflexivity|].
    apply vals2coefs_mem_pure. apply load_alloc.
  - unfold coefs2vals_beta_mem, coefs2vals_beta.
    unfold bindM at 1. unfold load at 1. rewrite Hg.
    unfold bindM at 1. unfold alloc at 1.
    apply pure_call_temporary with (tmp := map_array (Cscale beta) gv);
      [reflexivity|].
    apply coefs2vals_mem_pure. apply load_alloc.
Qed.

End Frame.

Lemma transforms_are_pure_witness :
  (pure_call [mk_array [1] [Ci]] (mk_array [1] [Ci]) (vals2coefs reference_externals sample_ops (mk_array [1] [Ci]))
             (vals2coefs_mem reference_externals sample_ops 0 [mk_array [1] [Ci]]) /\
   pure_call [mk_array [1] [Ci]] (mk_array [1] [Ci]) (coefs2vals sample_ops (mk_array [1] [Ci]))
             (coefs2vals_mem sample_ops 0 [mk_array [1] [Ci]]) /\
   pure_call [mk_array [1] [Ci]] (mk_array [1] [Ci]) (vals2coefs_beta reference_externals sample_ops 2 (mk_array [1] [Ci]))
             (vals2coefs_beta_mem reference_externals sample_ops 2 0 [mk_array [1] [Ci]]) /\
   pure_call [mk_array [1] [Ci]] (mk_array [1] [Ci]) (coefs2vals_beta sample_ops 2 (mk_array [1] [Ci]))
             (coefs2vals_beta_mem sample_ops 2 0 [mk_array [1] [Ci]])) /\
  snd (coefs2vals_mem sample_ops 0 [mk_array [1] [Ci]]) = Ok 2.
Proof.
  split.
  - apply (@transforms_are_pure reference_externals sample_ops 2
             [mk_array [1] [Ci]] 0 (mk_array [1] [Ci])).
    reflexivity.
  - reflexivity.
Defined.

(** ** The older constructor *)

Lemma for_each_length {A B : Type} (f : A -> result B) (l : list A) (ys : list B) :
  for_each f l = Ok ys -> length ys = length l.
Proof.
  intros Hy. apply for_each_Forall2 in Hy. symmetry. exact (Forall2_length Hy).
Qed.

Lemma for_each_returns {A B : Type} (f : A -> result B) (l : list A) :
  (forall x, In x l -> returns (f x)) -> returns (for_each f l).
Proof.
  induction l as [|x l IH]; intros Hf; cbn [for_each].
  - eexists. reflexivity.
  - destruct (Hf x (or_introl eq_refl)) as [y Hy]. rewrite Hy. cbn [bind].
    destruct IH as [ys Hys]; [intros z Hz; apply Hf; now right|].
    rewrite Hys. cbn [bind]. eexists. reflexivity.
Qed.

Lemma fill_matrix_returns {T : Type} (m n : nat) (f : nat -> nat -> result T) :
  (forall i j, i < m -> j < n -> returns (f i j)) -> returns (fill_matrix m n f).
Proof.
  intros Hf. unfold fill_matrix.
  destruct (for_each_returns (fun i => for_each (f i) (seq 0 n)) (seq 0 m))
    as [rs Hrs].
  - intros i Hi. apply in_seq in Hi. apply for_each_returns.
    intros j Hj. apply in_seq in Hj. apply Hf; lia.
  - rewrite Hrs. cbn [bind]. eexists. reflexivity.
Qed.

Lemma fill_matrix_entry {T : Type} (m n : nat) (f : nat -> nat -> result T)
      (a : array T) (i j : nat) :
  fill_matrix m n f = Ok a -> i < m -> j < n ->
  exists x, f i j = Ok x /\ entry a i j = Ok x.
Proof.
  intros Hfill Hi Hj. unfold fill_matrix in Hfill.
  apply bind_Ok_inv in Hfill. destruct Hfill as [rs [Hrs Ha]].
  inversion Ha; subst a. clear Ha.
  pose proof (for_each_length _ _ Hrs) as Hlen. rewrite length_seq in Hlen.
  apply for_each_Forall2 in Hrs.
  assert (Forall (fun row => length row = n) rs) as Hrows.
  { clear - Hrs. induction Hrs as [|k row l rs Hrow _ IH]; constructor.
    - apply for_each_length in Hrow. now rewrite length_seq in Hrow.
    - exact IH. }
  unfold entry. rewrite rows_matrix_of_rows by exact Hrows.
  assert (nth_error rs i <> None) as Hsome by (apply nth_error_Some; lia).
  destruct (nth_error rs i) as [row|] eqn:Hrow; [|congruence].
  assert (nth_error (seq 0 m) i = Some i) as Hsi.
  { rewrite nth_error_seq. apply Nat.ltb_lt in Hi. now rewrite Hi. }
  pose proof (Forall2_at i Hrs Hsi Hrow) as Hfi. cbv beta in Hfi.
  pose proof (for_each_length _ _ Hfi) as Hrl. rewrite length_seq in Hrl.
  apply for_each_Forall2 in Hfi.
  assert (nth_error row j <> None) as Hsome' by (apply nth_error_Some; lia).
  destruct (nth_error row j) as [x|] eqn:Hx; [|congruence].
  assert (nth_error (seq 0 n) j = Some j) as Hsj.
  { rewrite nth_error_seq. apply Nat.ltb_lt in Hj. now rewrite Hj. }
  exists x. split; [|reflexivity].
  exact (Forall2_at j Hfi Hsj Hx).
Qed.

Section OlderConstructor.
Variable E : externals.

Lemma legacy_ctor_inv (lam : R) (rf : list R) (stat : statistic_t)
      (op : imfreq_ops) :
  imfreq_ops_ctor_legacy E lam rf stat = Ok op ->
  exists nodes c2v,
    length nodes = length rf /\
    c2v = matrix_of_rows (length rf) (kernel_rows nodes rf stat) /\
    (if statistic_eqb stat Boson then
       fill_matrix (length rf) (length rf)
         (fun i j => x <- entry c2v i j ;; om <- at_ rf j ;;
                     Ok (Cmul_real x (tanh (0.5 * om))))
     else Ok c2v) = Ok (cf2if op) /\
    r op = length rf /\ niom op = length rf /\ dlr_rf op = rf /\
    dlr_if op = nodes /\ statistic op = stat.
Proof.
  unfold imfreq_ops_ctor_legacy. intros Hop.
  apply bind_Ok_inv in Hop. destruct Hop as [fine [Hfine Hop]].
  apply bind_Ok_inv in Hop. destruct Hop as [nodes [Hnodes Hop]].
  apply bind_Ok_inv in Hop. destruct Hop as [c2v [Hc2v Hop]].
  apply bind_Ok_inv in Hop. destruct Hop as [c2v' [Hc2v' Hop]].
  pose proof (for_each_length _ _ Hnodes) as Hlen. rewrite length_seq in Hlen.
  apply node_loop in Hnodes. destruct Hnodes as [Hle Hnodes].
  apply (kernel_fill _ _ _ _ Hle) in Hc2v. rewrite <- Hnodes in Hc2v.
  destruct (ext_getrf E c2v') as [[lu ipiv] info].
  inversion Hop; subst op. cbn.
  exists nodes, c2v. repeat split; try reflexivity; assumption.
Qed.

(** In the three-argument constructor every bosonic operator has the
    columns of [cf2if] scaled, [cf2if(i,j) = K(n_if[i], om_j) tanh(om_j / 2)],
    and every fermionic operator has the kernel itself. *)
Theorem legacy_ctor_scales_bosons (lam : R) (rf : list R) (stat : statistic_t)
        (op : imfreq_ops) (i j : nat) :
  imfreq_ops_ctor_legacy E lam rf stat = Ok op -> i < rank op -> j < rank op ->
  entry (get_cf2if op) i j =
  Ok (let K := k_if_stat (nth i (get_ifnodes op) 0%Z)
                         (nth j (get_rfnodes op) 0%R) stat in
      match stat with
      | Boson => Cmul_real K (tanh (0.5 * nth j (get_rfnodes op) 0%R))
      | Fermion => K
      end).
Proof.
  intros Hop Hi Hj.
  destruct (legacy_ctor_inv _ _ _ Hop)
    as [nodes [c2v [Hlen [Hc2v [Hc [Hr [_ [Hrf [Hif _]]]]]]]]].
  unfold rank, get_cf2if, get_ifnodes, get_rfnodes in *.
  rewrite Hr in Hi, Hj. rewrite Hrf, Hif. cbv zeta.
  assert (entry c2v i j = Ok (k_if_stat (nth i nodes 0%Z) (nth j rf 0%R) stat))
    as Hk by (rewrite Hc2v; apply entry_kernel_rows; lia).
  destruct stat; cbn [statistic_eqb] in Hc.
  - destruct (fill_matrix_entry _ Hc Hi Hj) as [x [Hx Hex]].
    rewrite Hex, <- Hx, Hk. cbn [bind].
    unfold at_. rewrite (nth_error_nth' rf 0%R Hj). reflexivity.
  - inversion Hc as [Hc']. rewrite <- Hc'. exact Hk.
Qed.

Lemma legacy_ctor_returns (lam : R) (rf : list R) (stat : statistic_t) :
  returns (imfreq_ops_ctor E lam rf stat false) ->
  returns (imfreq_ops_ctor_legacy E lam rf stat).
Proof.
  intros [op Hop].
  assert (symmetrized_boson stat false = false) as Hsb
      by (unfold symmetrized_boson; apply andb_false_r).
  unfold imfreq_ops_ctor in Hop. unfold imfreq_ops_ctor_legacy.
  rewrite node_count_square in Hop by exact Hsb.
  apply bind_Ok_inv in Hop. destruct Hop as [fine [Hfine Hop]].
  apply bind_Ok_inv in Hop. destruct Hop as [nodes [Hnodes Hop]].
  apply bind_Ok_inv in Hop. destruct Hop as [c2v [Hc2v _]].
  rewrite Hfine. cbn [bind]. rewrite Hnodes. cbn [bind].
  rewrite Hc2v. cbn [bind].
  pose proof (for_each_length _ _ Hnodes) as Hlen. rewrite length_seq in Hlen.
  apply node_loop in Hnodes. destruct Hnodes as [Hle Hnodes].
  apply (kernel_fill _ _ _ _ Hle) in Hc2v. rewrite <- Hnodes in Hc2v.
  assert (returns (if statistic_eqb stat Boson then
                     fill_matrix (length rf) (length rf)
                       (fun i j => x <- entry c2v i j ;; om <- at_ rf j ;;
                                   Ok (Cmul_real x (tanh (0.5 * om))))
                   else Ok c2v)) as [c2v' Hc2v'].
  { destruct (statistic_eqb stat Boson); [|eexists; reflexivity].
    apply fill_matrix_returns. intros i j Hi Hj.
    rewrite Hc2v, entry_kernel_rows by lia. cbn [bind].
    unfold at_. rewrite (nth_error_nth' rf 0%R Hj). cbn [bind].
    eexists. reflexivity. }
  rewrite Hc2v'. cbn [bind].
  destruct (ext_getrf E c2v') as [[lu ipiv] info]. eexists. reflexivity.
Qed.

End OlderConstructor.

Lemma legacy_ctor_scales_bosons_witness :
  exists op,
    imfreq_ops_ctor_legacy reference_externals 1 [1%R] Boson = Ok op /\
    entry (get_cf2if op) 0 0 =
    Ok (Cmul_real (k_if_stat (nth 0 (get_ifnodes op) 0%Z)
                             (nth 0 (get_rfnodes op) 0%R) Boson)
                  (tanh (0.5 * nth 0 (get_rfnodes op) 0%R))).
Proof.
  assert (returns (imfreq_ops_ctor_legacy reference_externals 1 [1%R] Boson))
    as [op Hop].
  { apply legacy_ctor_returns. apply spec_ctor_single_returns; lra. }
  exists op. split; [exact Hop|].
  destruct (legacy_ctor_inv _ _ _ _ Hop) as [_ [_ [_ [_ [_ [Hr _]]]]]].
  apply (@legacy_ctor_scales_bosons reference_externals 1 [1%R] Boson op 0 0 Hop).
  - unfold rank. rewrite Hr. cbn. lia.
  - unfold rank. rewrite Hr. cbn. lia.
Defined.

(** ** Evaluation at the nodes, for both constructors *)





(** ** The order of the sampling nodes *)

(** The Gram-Schmidt routines return distinct pivots. *)
Lemma modelled_selected_NoDup (E : externals) (kmat : array dcomplex)
      (nn : nat) (sym : bool) :
  ext_pivrgs E = pivrgs -> ext_pivrgs_sym E = pivrgs_sym_rank ->
  NoDup (selected_pivots E kmat nn sym).
Proof.
  intros Hp Hs. unfold selected_pivots. rewrite Hp, Hs. destruct sym.
  - apply pivrgs_sym_rows_NoDup.
  - apply pivrgs_rows_NoDup.
Qed.

Lemma legacy_ctor_nodes (E : externals) (lam : R) (rf : list R)
      (stat : statistic_t) (op : imfreq_ops) :
  imfreq_ops_ctor_legacy E lam rf stat = Ok op ->
  exists fine,
    dlr_if op =
    map (fun p => (Z.of_nat p - fp_nmax fine)%Z)
        (firstn (length rf)
           (sorted_pivots E (build_k_if (fp_nmax fine) rf stat) (length rf)
                          false)).
Proof.
  unfold imfreq_ops_ctor_legacy. intros Hop.
  apply bind_Ok_inv in Hop. destruct Hop as [fine [Hfine Hop]].
  apply bind_Ok_inv in Hop. destruct Hop as [nodes [Hnodes Hop]].
  apply bind_Ok_inv in Hop. destruct Hop as [c2v [Hc2v Hop]].
  apply bind_Ok_inv in Hop. destruct Hop as [c2v' [Hc2v' Hop]].
  apply node_loop in Hnodes. destruct Hnodes as [Hle Hnodes].
  destruct (ext_getrf E c2v') as [[lu ipiv] info].
  inversion Hop; subst op. cbn [dlr_if].
  exists fine. exact Hnodes.
Qed.

(** C10. After a construction from [(lambda, dlr_rf, statistic, symmetrize)],
    by the constructor of dlr_imfreq.cpp or by the older three-argument
    constructor, with the Gram-Schmidt routines of the specification, the
    node vector that [get_ifnodes] returns is strictly increasing (the
    routines select each row at most once, the pivots are sorted ascending
    and shifted by [-nmax]), so that it has no duplicates. *)
Theorem ifnodes_strictly_increasing (E : externals) (lam : R) (rf : list R)
        (stat : statistic_t) (sym : bool) (op : imfreq_ops) :
  ext_pivrgs E = pivrgs -> ext_pivrgs_sym E = pivrgs_sym_rank ->
  imfreq_ops_ctor E lam rf stat sym = Ok op \/
  imfreq_ops_ctor_legacy E lam rf stat = Ok op ->
  StronglySorted Z.lt (get_ifnodes op) /\ NoDup (get_ifnodes op).
Proof.
  intros Hp Hs Hop.
  assert (StronglySorted Z.lt (get_ifnodes op)) as Hsorted.
  { unfold get_ifnodes. destruct Hop as [Hop|Hop].
    - destruct (imfreq_ops_ctor_inv _ _ _ _ _ Hop)
        as [fine [_ [_ [_ [_ [_ [_ [_ [Hif _]]]]]]]]].
      rewrite Hif. unfold sorted_pivots. apply shifted_pivots_strict.
      now apply modelled_selected_NoDup.
    - destruct (legacy_ctor_nodes _ _ _ _ Hop) as [fine Hif].
      rewrite Hif. unfold sorted_pivots. apply shifted_pivots_strict.
      now apply modelled_selected_NoDup. }
  split; [exact Hsorted|]. now apply strict_NoDup.
Qed.

Lemma ifnodes_strictly_increasing_witness :
  exists op,
    imfreq_ops_ctor reference_externals 1 [1%R] Boson true = Ok op /\
    length (get_ifnodes op) = 2 /\
    StronglySorted Z.lt (get_ifnodes op) /\ NoDup (get_ifnodes op).
Proof.
  assert (returns (imfreq_ops_ctor reference_externals 1 [1%R] Boson true))
    as [op Hop] by (apply spec_ctor_sym_returns; [lra|cbv; lia]).
  exists op. split; [exact Hop|]. split.
  - unfold get_ifnodes.
    rewrite (ctor_niom_length _ _ _ _ _ Hop).
    destruct (ctor_extents _ _ _ _ _ Hop) as [_ [Hn _]]. rewrite Hn.
    reflexivity.
  - apply (@ifnodes_strictly_increasing reference_externals 1 [1%R] Boson true
             op).
    + reflexivity.
    + reflexivity.
    + left. exact Hop.
Defined.

(** ** The check of the leading dimension *)

(** An array whose leading dimension is not the rank is rejected with the
    runtime error of the header by [vals2coefs], [coefs2vals] and
    [coefs2eval], before anything else is done. *)
Theorem transforms_reject_leading_dimension (E : externals) (m : imfreq_ops)
        (g : array dcomplex) (n : Z) :
  shape0 g <> r m ->
  vals2coefs E m g = Throw "First dim of g != DLR rank r." /\
  coefs2vals m g = Throw "First dim of g != DLR rank r." /\
  coefs2eval m g n = Throw "First dim of g != DLR rank r.".
Proof.
  intros Hne.
  assert ((r m =? shape0 g) = false) as Hr by (apply Nat.eqb_neq; congruence).
  unfold vals2coefs, coefs2vals, coefs2eval. rewrite Hr. cbn [negb].
  repeat split.
Qed.

Lemma transforms_reject_leading_dimension_witness :
  vals2coefs reference_externals sample_ops (mk_array [2] [C1; Ci]) =
    Throw "First dim of g != DLR rank r." /\
  coefs2vals sample_ops (mk_array [2] [C1; Ci]) =
    Throw "First dim of g != DLR rank r." /\
  coefs2eval sample_ops (mk_array [2] [C1; Ci]) 0 =
    Throw "First dim of g != DLR rank r.".
Proof.
  apply (@transforms_reject_leading_dimension reference_externals sample_ops
           (mk_array [2] [C1; Ci]) 0%Z).
  cbn. lia.
Defined.

(* ================================================================== *)
(** * Part III: further properties of the kernels, grids and operators *)
(* ================================================================== *)

(** ** The imaginary-time kernel in closed form *)

Lemma exp_quotient (a b c d : R) :
  (a + d = c)%R -> (c + b = a)%R ->
  (exp a / (1 + exp b) = exp c / (1 + exp d))%R.
Proof.
  intros H1 H2.
  pose proof (exp_pos b) as Hb. pose proof (exp_pos d) as Hd.
  assert (exp a * exp d = exp c)%R as E1 by (rewrite <- exp_plus; now rewrite H1).
  assert (exp c * exp b = exp a)%R as E2 by (rewrite <- exp_plus; now rewrite H2).
  apply (Rmult_eq_reg_r ((1 + exp b) * (1 + exp d))); [|nra].
  replace (exp a / (1 + exp b) * ((1 + exp b) * (1 + exp d)))%R
    with (exp a + exp a * exp d)%R by (field; lra).
  replace (exp c / (1 + exp d) * ((1 + exp b) * (1 + exp d)))%R
    with (exp c + exp c * exp b)%R by (field; lra).
  rewrite E1, E2. ring.
Qed.

Lemma k_it_abs_closed_form (t om : R) :
  k_it_abs t om = (exp (- t * om) / (1 + exp (- om)))%R.
Proof.
  unfold k_it_abs. destruct (Rge_dec om 0) as [_|_]; [reflexivity|].
  apply exp_quotient; ring.
Qed.

(** The two branches of [k_it_abs] and the reflection of [k_it] compute one
    function: [k_it t om] is the kernel [exp(-tau om) / (1 + exp(-om))] at
    [tau = t] for [t >= 0] and at [tau = 1 + t] for [t < 0], the point that
    a negative [t] stands for in the relative format. *)
Theorem k_it_closed_form (t om : R) :
  k_it t om =
  (exp (- (if Rge_dec t 0 then t else 1 + t) * om) / (1 + exp (- om)))%R.
Proof.
  unfold k_it. destruct (Rge_dec t 0) as [_|_].
  - apply k_it_abs_closed_form.
  - rewrite k_it_abs_closed_form. apply exp_quotient; ring.
Qed.

Lemma exp_le_1 (x : R) : (x <= 0)%R -> (exp x <= 1)%R.
Proof.
  intros [Hlt | ->].
  - pose proof (exp_increasing x 0 Hlt) as Hx. rewrite exp_0 in Hx. lra.
  - rewrite exp_0. lra.
Qed.

(** ** The imaginary-time kernel under rounding *)

Lemma k_it_fl_exact (t om : R) :
  k_it_fl (fun x => x) exp t om = k_it t om.
Proof. reflexivity. Qed.

Section RoundedKernelFacts.

Variables rnd fexp : R -> R.
Hypothesis rnd_monotone : forall x y, (x <= y)%R -> (rnd x <= rnd y)%R.
Hypothesis rnd_0 : rnd 0%R = 0%R.
Hypothesis rnd_1 : rnd 1%R = 1%R.
Hypothesis fexp_nonneg : forall x, (0 <= fexp x)%R.
Hypothesis fexp_le_1 : forall x, (x <= 0)%R -> (fexp x <= 1)%R.

Lemma rnd_nonpos (x : R) : (x <= 0)%R -> (rnd x <= 0)%R.
Proof. intros H. rewrite <- rnd_0. now apply rnd_monotone. Qed.

Lemma rnd_unit (x : R) : (0 <= x <= 1)%R -> (0 <= rnd x <= 1)%R.
Proof.
  intros [H0 H1]. split.
  - rewrite <- rnd_0. now apply rnd_monotone.
  - rewrite <- rnd_1. now apply rnd_monotone.
Qed.

Lemma rnd_quotient_unit (a b : R) :
  (0 <= a <= 1)%R -> (0 <= b)%R -> (0 <= rnd (a / rnd (1 + b)) <= 1)%R.
Proof.
  intros Ha Hb.
  assert (1 <= rnd (1 + b))%R as Hd
      by (rewrite <- rnd_1 at 1; apply rnd_monotone; lra).
  apply rnd_unit. split.
  - apply Rmult_le_pos; [lra|]. left. apply Rinv_0_lt_compat. lra.
  - apply (Rmult_le_reg_r (rnd (1 + b))); [lra|].
    unfold Rdiv. rewrite Rmult_assoc, Rinv_l by lra. nra.
Qed.

Lemma k_it_abs_fl_bounds (t om : R) :
  (0 <= t <= 1)%R -> (0 <= k_it_abs_fl rnd fexp t om <= 1)%R.
Proof.
  intros Ht. unfold k_it_abs_fl.
  destruct (Rge_dec om 0) as [Hom|Hom].
  - apply rnd_quotient_unit; [|apply fexp_nonneg].
    split; [apply fexp_nonneg|]. apply fexp_le_1, rnd_nonpos. nra.
  - apply rnd_quotient_unit; [|apply fexp_nonneg].
    split; [apply fexp_nonneg|]. apply fexp_le_1, rnd_nonpos.
    assert (0 <= rnd (1 - t) <= 1)%R as Hr by (apply rnd_unit; lra).
    nra.
Qed.

End RoundedKernelFacts.

(** The bounds are attained: the kernel is 1 at [t = 0] once the sum in the
    denominator rounds to 1, and 0 once the exponential underflows. *)
Lemma k_it_fl_absorbed (rnd fexp : R -> R) (om : R) :
  (0 <= om)%R -> rnd 0%R = 0%R -> rnd 1%R = 1%R -> fexp 0%R = 1%R ->
  rnd (1 + fexp (- om))%R = 1%R ->
  k_it_fl rnd fexp 0 om = 1%R.
Proof.
  intros Hom H0 H1 He Ha. unfold k_it_fl, k_it_abs_fl.
  destruct (Rge_dec 0 0); [|exfalso; lra].
  destruct (Rge_dec om 0); [|exfalso; lra].
  replace (- 0 * om)%R with 0%R by ring.
  rewrite H0, He, Ha. unfold Rdiv. now rewrite Rinv_1, Rmult_1_r.
Qed.

Lemma k_it_fl_underflow (rnd fexp : R -> R) (t om : R) :
  (0 <= t)%R -> (0 <= om)%R -> rnd 0%R = 0%R ->
  fexp (rnd (- t * om)%R) = 0%R ->
  k_it_fl rnd fexp t om = 0%R.
Proof.
  intros Ht Hom H0 Hu. unfold k_it_fl, k_it_abs_fl.
  destruct (Rge_dec t 0); [|exfalso; lra].
  destruct (Rge_dec om 0); [|exfalso; lra].
  rewrite Hu. unfold Rdiv. now rewrite Rmult_0_l.
Qed.

(** For a time in relative format, [-1 <= t <= 1], the kernel that
    [double] arithmetic computes lies between 0 and 1 whatever the
    frequency, for every rounding that is monotone and keeps 0 and 1 and
    every exponential that is nonnegative and at most 1 on nonpositive
    arguments: each branch divides an exponential of a nonpositive argument
    by a number that is at least 1. *)
Theorem k_it_bounds (rnd fexp : R -> R) (t om : R) :
  (forall x y, (x <= y)%R -> (rnd x <= rnd y)%R) ->
  rnd 0%R = 0%R -> rnd 1%R = 1%R ->
  (forall x, (0 <= fexp x)%R) ->
  (forall x, (x <= 0)%R -> (fexp x <= 1)%R) ->
  (-1 <= t <= 1)%R -> (0 <= k_it_fl rnd fexp t om <= 1)%R.
Proof.
  intros Hm H0 H1 Hp Hle Ht. unfold k_it_fl.
  destruct (Rge_dec t 0) as [Hge|Hlt].
  - apply k_it_abs_fl_bounds; try assumption. lra.
  - apply k_it_abs_fl_bounds; try assumption. lra.
Qed.

Lemma k_it_bounds_witness :
  (0 <= k_it_fl (fun x => x) exp (- (1 / 2)) 1000 <= 1)%R.
Proof.
  apply (@k_it_bounds (fun x => x) exp (- (1 / 2)) 1000).
  - intros x y H. exact H.
  - reflexivity.
  - reflexivity.
  - intros x. left. apply exp_pos.
  - exact exp_le_1.
  - lra.
Defined.

(** ** The imaginary-frequency kernel *)

Lemma k_if_denominator_pos (n : Z) (om : R) :
  n <> 0%Z \/ om <> 0%R -> (0 < IZR n * PI * (IZR n * PI) + om * om)%R.
Proof.
  intros Hn. pose proof PI_RGT_0 as Hpi.
  destruct Hn as [Hn|Hom].
  - assert (IZR n <> 0)%R as Hz by (now apply not_0_IZR).
    assert (IZR n * PI <> 0)%R as Hx by (apply Rmult_integral_contrapositive_currified; lra).
    assert (0 < IZR n * PI * (IZR n * PI))%R by nra.
    nra.
  - assert (0 < om * om)%R by nra. nra.
Qed.

(** [k_if n om = -1 / (n pi i - om)] has real part [om / d] and imaginary
    part [n pi / d] with [d = (n pi)^2 + om^2], wherever the denominator
    [n pi i - om] is not zero. *)
Theorem k_if_closed_form (n : Z) (om : R) :
  n <> 0%Z \/ om <> 0%R ->
  k_if n om =
  ((om / (IZR n * PI * (IZR n * PI) + om * om))%R,
   (IZR n * PI / (IZR n * PI * (IZR n * PI) + om * om))%R).
Proof.
  intros Hn. pose proof (k_if_denominator_pos Hn) as Hd.
  unfold k_if, Cdiv, Cinv, Cmul, Csub_real, Cscale, Ci, RtoC, Cnorm2.
  cbn [fst snd]. set (x := (IZR n * PI)%R) in *.
  assert ((x * 0 - om) * (x * 0 - om) + x * 1 * (x * 1) = x * x + om * om)%R
    as Hq by ring.
  rewrite Hq. f_equal; field; lra.
Qed.

Lemma k_if_closed_form_witness :
  k_if 1 0 = ((0 / (1 * PI * (1 * PI) + 0 * 0))%R,
              (1 * PI / (1 * PI * (1 * PI) + 0 * 0))%R).
Proof. apply (@k_if_closed_form 1 0). left. lia. Defined.

Lemma Cconj_inv (z : dcomplex) : Cconj (Cinv z) = Cinv (Cconj z).
Proof.
  unfold Cconj, Cinv, Cnorm2. cbn [fst snd].
  replace (fst z * fst z + - snd z * - snd z)%R
    with (fst z * fst z + snd z * snd z)%R by ring.
  f_equal. unfold Rdiv. ring.
Qed.

Lemma Cconj_mul (a b : dcomplex) : Cconj (Cmul a b) = Cmul (Cconj a) (Cconj b).
Proof. unfold Cconj, Cmul. cbn [fst snd]. f_equal; ring. Qed.

Lemma k_if_opp (n : Z) (om : R) : k_if (- n) om = Cconj (k_if n om).
Proof.
  unfold k_if, Cdiv. rewrite Cconj_mul, Cconj_inv. f_equal.
  - unfold Cconj, RtoC. cbn [fst snd]. f_equal. ring.
  - f_equal. unfold Cconj, Csub_real, Cscale, Ci. cbn [fst snd].
    rewrite opp_IZR. f_equal; ring.
Qed.

Lemma k_if_stat_conj (n : Z) (om : R) (stat : statistic_t) :
  k_if_stat (- n - statistic_int stat) om stat = Cconj (k_if_stat n om stat).
Proof.
  unfold k_if_stat. rewrite <- k_if_opp. f_equal.
  destruct stat; cbn [statistic_int]; lia.
Qed.

(** Negating the frequency index conjugates the kernel: [k_if (-n) om] is
    the complex conjugate of [k_if n om]; so the kernel at the fermionic
    index [-n - 1] is the conjugate of the kernel at [n], and the kernel at
    the bosonic index [-n] is the conjugate of the kernel at [n]. *)
Theorem k_if_conj (n : Z) (om : R) :
  k_if (- n) om = Cconj (k_if n om) /\
  k_if (2 * (- n - 1) + 1) om = Cconj (k_if (2 * n + 1) om) /\
  k_if (2 * (- n)) om = Cconj (k_if (2 * n) om).
Proof.
  split; [apply k_if_opp|]. split.
  - rewrite <- k_if_opp. f_equal. lia.
  - rewrite <- k_if_opp. f_equal. lia.
Qed.

(** ** The imaginary-frequency kernel matrix *)

Lemma k_if_rows_count (nmax : Z) (stat : statistic_t) :
  k_if_rows nmax stat = Z.to_nat (2 * nmax + 1 - statistic_int stat).
Proof. destruct stat; cbn [k_if_rows statistic_int]; f_equal; lia. Qed.

Lemma build_k_if_shape (nmax : Z) (om : list R) (stat : statistic_t) :
  shape (build_k_if nmax om stat) = [k_if_rows nmax stat; length om].
Proof.
  unfold build_k_if, matrix_of_rows. cbn [shape].
  rewrite length_map, length_seq. reflexivity.
Qed.


(** The kernel matrix is conjugate-symmetric about its middle: the row that
    mirrors row [k] is the complex conjugate of row [k]. *)
Theorem build_k_if_conjugate_rows (nmax : Z) (om : list R) (stat : statistic_t)
        (k j : nat) :
  k < nrows (build_k_if nmax om stat) -> j < ncols (build_k_if nmax om stat) ->
  exists x,
    entry (build_k_if nmax om stat) k j = Ok x /\
    entry (build_k_if nmax om stat) (nrows (build_k_if nmax om stat) - 1 - k) j =
    Ok (Cconj x).
Proof.
  unfold nrows, ncols. rewrite build_k_if_shape. cbn [nth].
  intros Hk Hj. eexists. split.
  - apply entry_build_k_if_Ok; assumption.
  - rewrite entry_build_k_if_Ok by (try assumption; lia).
    f_equal. rewrite <- k_if_stat_conj. f_equal.
    rewrite k_if_rows_count in *. lia.
Qed.

Lemma build_k_if_conjugate_rows_witness :
  exists x,
    entry (build_k_if 20 [1%R; 2%R] Fermion) 3 1 = Ok x /\
    entry (build_k_if 20 [1%R; 2%R] Fermion)
          (nrows (build_k_if 20 [1%R; 2%R] Fermion) - 1 - 3) 1 = Ok (Cconj x).
Proof.
  apply (@build_k_if_conjugate_rows 20 [1%R; 2%R] Fermion 3 1).
  - cbv. lia.
  - cbv. lia.
Defined.

(** ** Evaluation as a contraction with the evaluation vector *)

Lemma build_evalvec_beta_scale (m : imfreq_ops) (beta : R) (n : Z) :
  build_evalvec_beta m beta n = map (Cscale beta) (build_evalvec m n).
Proof. unfold build_evalvec_beta, build_evalvec. now rewrite map_map. Qed.

Lemma dot_scale_l (x : R) (u v : list dcomplex) :
  cdot (map (Cscale x) u) v = Cscale x (cdot u v).
Proof. rewrite dot_comm, dot_scale_r. f_equal. apply dot_comm. Qed.

Lemma coefs2eval_columns (m : imfreq_ops) (c : array dcomplex) (ts : list nat)
      (n : Z) :
  r m = length (dlr_rf m) -> shape c = r m :: ts -> 0 < r m -> wf_array c ->
  coefs2eval m c n =
  Ok (mk_array ts (map (fun col => cdot (build_evalvec m n) col)
                       (coef_columns (r m) (extent ts) (data c)))).
Proof.
  intros Hrf Hsh Hr Hwf.
  assert (length (data c) = r m * extent ts) as Hd.
  { unfold wf_array, size in Hwf. rewrite Hsh in Hwf. exact Hwf. }
  unfold coefs2eval.
  unfold shape0. rewrite Hsh. cbn [hd]. rewrite Nat.eqb_refl. cbn [negb length].
  destruct ts as [|t ts].
  - cbn [length Nat.eqb extent fold_right]. do 2 f_equal.
    unfold coef_columns, transpose_rows. cbn [seq map].
    rewrite chunks_one by (cbn [extent fold_right] in Hd; lia).
    f_equal. rewrite build_evalvec_row by exact Hrf.
    rewrite (fold_left_ext_in
               (fun g l => Cadd g (Cmul (k_if_stat n (nth l (dlr_rf m) 0%R) (statistic m))
                                        (nth l (data c) C0)))
               (fun g l =>
                  Cadd g (Cmul (nth l (map (fun om => k_if_stat n om (statistic m))
                                           (dlr_rf m)) C0)
                                        (nth l (data c) C0)))).
    + rewrite fold_seq_dot.
      * rewrite firstn_all2 by (rewrite length_map; lia).
        rewrite firstn_all2 by (cbn [extent fold_right] in Hd; lia).
        reflexivity.
      * rewrite length_map. lia.
      * cbn [extent fold_right] in Hd. lia.
    + intros g l Hl. apply in_seq in Hl.
      rewrite (nth_map_in _ _ 0%R) by lia. reflexivity.
  - cbn [length Nat.eqb].
    unfold size. rewrite Hsh.
    change (extent (r m :: t :: ts)) with (r m * extent (t :: ts)).
    rewrite int_div_mul by exact Hr. cbn [bind].
    rewrite reshape_Ok
      by (unfold size; rewrite Hsh; cbn [extent fold_right]; lia).
    cbn [bind List.tl]. unfold matvec.
    assert (is_matrix (transpose (mk_array [r m; extent (t :: ts)] (data c))) = true)
      as Hm by reflexivity.
    rewrite Hm. cbn [andb].
    assert (ncols (transpose (mk_array [r m; extent (t :: ts)] (data c))) = r m)
      as Hnc.
    { unfold ncols. rewrite shape_transpose. reflexivity. }
    rewrite Hnc.
    assert (length (build_evalvec m n) = r m) as Hlen
        by (unfold build_evalvec; now rewrite length_map, length_seq).
    rewrite Hlen, Nat.eqb_refl. cbn [bind].
    rewrite rows_transpose.
    unfold ncols at 1, rows at 1, ncols at 1, nrows at 1. cbn [shape nth data].
    fold (coef_columns (r m) (extent (t :: ts)) (data c)).
    rewrite reshape_Ok.
    + cbn [data]. f_equal. f_equal. apply map_ext. intros bc. apply dot_comm.
    + unfold size. cbn [shape extent fold_right].
      rewrite length_map. unfold coef_columns.
      rewrite transpose_rows_length. cbn [extent fold_right]. lia.
Qed.

(** [coefs2eval] contracts the leading axis of the coefficients with the
    vector of [build_evalvec]: for an operator whose rank [r > 0] is the
    number of its frequencies and a well-formed array [gc] of shape
    [r :: ts], [coefs2eval(gc, n)] has shape [ts] and its element [k] is the
    sum over [l] of [build_evalvec(n)(l) * gc(l, k)], on the scalar path
    and on the matrix path alike; [coefs2eval(beta, gc, n)] is the same
    with [build_evalvec(beta, n)]. *)
Theorem coefs2eval_contracts_evalvec (m : imfreq_ops) (beta : R)
        (gc : array dcomplex) (ts : list nat) (n : Z) :
  r m = length (dlr_rf m) -> shape gc = r m :: ts -> 0 < r m -> wf_array gc ->
  length (build_evalvec m n) = r m /\
  length (build_evalvec_beta m beta n) = r m /\
  coefs2eval m gc n =
    Ok (mk_array ts (map (fun col => cdot (build_evalvec m n) col)
                         (coef_columns (r m) (extent ts) (data gc)))) /\
  coefs2eval_beta m beta gc n =
    Ok (mk_array ts (map (fun col => cdot (build_evalvec_beta m beta n) col)
                         (coef_columns (r m) (extent ts) (data gc)))).
Proof.
  intros Hrf Hsh Hr Hwf.
  split; [unfold build_evalvec; now rewrite length_map, length_seq|].
  split; [unfold build_evalvec_beta; now rewrite length_map, length_seq|].
  split; [now apply coefs2eval_columns|].
  unfold coefs2eval_beta. rewrite (@coefs2eval_columns m gc ts n Hrf Hsh Hr Hwf).
  cbn [bind]. unfold map_array. cbn [shape data]. do 2 f_equal.
  rewrite map_map. apply map_ext. intros col.
  rewrite build_evalvec_beta_scale. symmetry. apply dot_scale_l.
Qed.

Lemma coefs2eval_contracts_evalvec_witness :
  coefs2eval sample_ops (mk_array [1; 2] [C1; Ci]) 3 =
    Ok (mk_array [2] (map (fun col => cdot (build_evalvec sample_ops 3) col)
                          (coef_columns 1 2 [C1; Ci]))) /\
  coefs2eval_beta sample_ops 2 (mk_array [1; 2] [C1; Ci]) 3 =
    Ok (mk_array [2] (map (fun col => cdot (build_evalvec_beta sample_ops 2 3) col)
                          (coef_columns 1 2 [C1; Ci]))).
Proof.
  refine (proj2 (proj2 (@coefs2eval_contracts_evalvec sample_ops 2 (mk_array [1; 2] [C1; Ci])
           [2] 3 _ _ _ _))).
  - reflexivity.
  - reflexivity.
  - cbn. lia.
  - reflexivity.
Defined.

(** ** Coefficients to values commutes with scaling *)

Lemma matrix_of_rows_map {T U : Type} (f : T -> U) (n : nat) (rs : list (list T)) :
  matrix_of_rows n (map (map f) rs) = map_array f (matrix_of_rows n rs).
Proof.
  unfold matrix_of_rows, map_array. cbn [shape data].
  now rewrite length_map, concat_map.
Qed.

Lemma reshape_map_array {T U : Type} (f : T -> U) (a : array T) (sh : list nat) :
  reshape (map_array f a) sh = (v <- reshape a sh ;; Ok (map_array f v)).
Proof.
  unfold reshape, size. cbn [map_array shape data].
  destruct (extent sh =? extent (shape a)); reflexivity.
Qed.

Lemma matmul_scale_r (a b : array dcomplex) (x : R) :
  matmul a (map_array (Cscale x) b) =
  (v <- matmul a b ;; Ok (map_array (Cscale x) v)).
Proof.
  unfold matmul.
  assert (is_matrix (map_array (Cscale x) b) = is_matrix b) as -> by reflexivity.
  assert (nrows (map_array (Cscale x) b) = nrows b) as -> by reflexivity.
  assert (ncols (map_array (Cscale x) b) = ncols b) as Hc by reflexivity.
  rewrite Hc.
  destruct (is_matrix a && is_matrix b && (ncols a =? nrows b)); [|reflexivity].
  cbn [bind]. f_equal. rewrite <- matrix_of_rows_map. f_equal.
  etransitivity; [|symmetry; apply map_map]. apply map_ext. intros ar.
  assert (rows (map_array (Cscale x) b) = map (map (Cscale x)) (rows b)) as ->.
  { unfold rows. rewrite Hc.
    assert (nrows (map_array (Cscale x) b) = nrows b) as -> by reflexivity.
    cbn [map_array data]. apply chunks_map. }
  rewrite (@transpose_rows_map dcomplex C_Scalar dcomplex C_Scalar)
    by apply Cscale_0.
  rewrite !map_map. apply map_ext. intros col. apply dot_scale_r.
Qed.

(** [coefs2vals(beta, gc)] is [beta] times [coefs2vals(gc)], and fails as
    [coefs2vals(gc)] does, for every operator, [beta] and array. *)
Theorem coefs2vals_beta_scales (m : imfreq_ops) (beta : R) (gc : array dcomplex) :
  coefs2vals_beta m beta gc =
  (v <- coefs2vals m gc ;; Ok (map_array (Cscale beta) v)).
Proof.
  unfold coefs2vals_beta, coefs2vals.
  assert (shape0 (map_array (Cscale beta) gc) = shape0 gc) as -> by reflexivity.
  assert (size (map_array (Cscale beta) gc) = size gc) as -> by reflexivity.
  assert (shape (map_array (Cscale beta) gc) = shape gc) as -> by reflexivity.
  destruct (negb (r m =? shape0 gc)); [reflexivity|].
  destruct (int_div (size gc) (r m)) as [nrhs|w|w]; cbn [bind];
    [|reflexivity|reflexivity].
  rewrite reshape_map_array.
  destruct (reshape gc [r m; nrhs]) as [gc_rs|w|w]; cbn [bind];
    [|reflexivity|reflexivity].
  rewrite matmul_scale_r.
  destruct (matmul (cf2if m) gc_rs) as [g|w|w]; cbn [bind];
    [|reflexivity|reflexivity].
  apply reshape_map_array.
Qed.

(** ** Evaluation at the nodes, with the inverse temperature *)

Lemma coef_columns_scale (x : R) (rk n : nat) (d : list dcomplex) :
  coef_columns rk n (map (Cscale x) d) =
  map (map (Cscale x)) (coef_columns rk n d).
Proof.
  unfold coef_columns. rewrite chunks_map.
  apply (@transpose_rows_map dcomplex C_Scalar dcomplex C_Scalar).
  apply Cscale_0.
Qed.

Lemma coefs2eval_scale (m : imfreq_ops) (x : R) (c : array dcomplex)
      (ts : list nat) (n : Z) :
  r m = length (dlr_rf m) -> shape c = r m :: ts -> 0 < r m -> wf_array c ->
  coefs2eval m (map_array (Cscale x) c) n =
  (v <- coefs2eval m c n ;; Ok (map_array (Cscale x) v)).
Proof.
  intros Hrf Hsh Hr Hwf.
  rewrite (@coefs2eval_columns m c ts n Hrf Hsh Hr Hwf). cbn [bind].
  rewrite (@coefs2eval_columns m (map_array (Cscale x) c) ts n Hrf).
  - unfold map_array. cbn [shape data]. do 2 f_equal.
    rewrite coef_columns_scale, !map_map. apply map_ext. intros col.
    apply dot_scale_r.
  - exact Hsh.
  - exact Hr.
  - unfold wf_array, map_array, size in *. cbn [shape data].
    now rewrite length_map.
Qed.

Lemma node_values (E : externals) (lam : R) (rf : list R) (stat : statistic_t)
      (sym : bool) (op : imfreq_ops) (c : array dcomplex) (i : nat) :
  imfreq_ops_ctor E lam rf stat sym = Ok op ->
  symmetrized_boson stat sym = false ->
  wf_array c -> shape0 c = r op -> i < niom op ->
  exists v,
    coefs2vals op c = Ok v /\
    coefs2eval op c (nth i (dlr_if op) 0%Z) = Ok (slice0 v i).
Proof.
  intros Hop Hsq Hwf Hsh Hi.
  pose proof (kernel_ops_ctor _ _ _ _ _ Hop) as Hk.
  destruct (ctor_extents _ _ _ _ _ Hop) as [Hr [Hn _]].
  rewrite node_count_square in Hn by exact Hsq.
  assert (niom op = r op) as Hnr by congruence.
  assert (0 < r op) as Hpos by lia.
  destruct (shape_leading c Hsh Hpos) as [ts Hts].
  destruct (kernel_ops_rows Hk) as [_ [Hm [Hnc Hnrows]]].
  destruct (c2v_product_dims op (extent ts) (data c)) as [Plen Prow].
  exists (mk_array (shape c) (concat (c2v_product op (extent ts) (data c)))).
  split.
  - rewrite (@coefs2vals_unfold op c ts Hts Hpos Hm Hnc).
    apply reshape_Ok. unfold size. cbn [shape matrix_of_rows extent fold_right].
    rewrite Hts. cbn [extent fold_right]. fold (extent ts).
    rewrite Plen, Hnrows, Hnr. lia.
  - rewrite (@coefs2eval_row op c ts i Hk Hts Hpos Hwf Hi).
    f_equal. unfold slice0, shape0. cbn [shape data]. rewrite Hts. cbn [hd List.tl].
    f_equal. rewrite <- Hnr, <- Hnrows, <- Plen.
    now rewrite chunks_concat.
Qed.

(** The transformations that take the inverse temperature agree at the
    nodes as well: for an operator built with as many nodes as frequencies
    and a well-formed array [c] of leading dimension [r],
    [coefs2vals(beta, c)] returns an array and [coefs2eval(beta, c, n_if[i])]
    is its part at leading index [i]. *)
Theorem coefs2eval_beta_at_node (E : externals) (lam : R) (rf : list R)
        (stat : statistic_t) (sym : bool) (op : imfreq_ops) (beta : R)
        (c : array dcomplex) (i : nat) :
  imfreq_ops_ctor E lam rf stat sym = Ok op ->
  symmetrized_boson stat sym = false ->
  wf_array c -> shape0 c = r op -> i < niom op ->
  exists v,
    coefs2vals_beta op beta c = Ok v /\
    coefs2eval_beta op beta c (nth i (get_ifnodes op) 0%Z) = Ok (slice0 v i).
Proof.
  intros Hop Hsq Hwf Hsh Hi.
  pose proof (kernel_ops_ctor _ _ _ _ _ Hop) as [Hrf _].
  destruct (ctor_extents _ _ _ _ _ Hop) as [Hr [Hn _]].
  rewrite node_count_square in Hn by exact Hsq.
  assert (0 < r op) as Hpos by lia.
  destruct (shape_leading c Hsh Hpos) as [ts Hts].
  assert (wf_array (map_array (Cscale beta) c)) as Hwf'.
  { unfold wf_array, map_array, size in *. cbn [shape data].
    now rewrite length_map. }
  destruct (@node_values E lam rf stat sym op (map_array (Cscale beta) c) i
              Hop Hsq Hwf' Hsh Hi) as [v [Hv He]].
  exists v. split; [exact Hv|].
  unfold coefs2eval_beta, get_ifnodes.
  rewrite <- (@coefs2eval_scale op beta c ts _ Hrf Hts Hpos Hwf).
  exact He.
Qed.

Lemma coefs2eval_beta_at_node_witness :
  exists op v,
    imfreq_ops_ctor reference_externals 1 [1%R] Fermion false = Ok op /\
    coefs2vals_beta op 2 (mk_array [1] [Ci]) = Ok v /\
    coefs2eval_beta op 2 (mk_array [1] [Ci]) (nth 0 (get_ifnodes op) 0%Z) =
    Ok (slice0 v 0).
Proof.
  assert (returns (imfreq_ops_ctor reference_externals 1 [1%R] Fermion false))
    as [op Hop] by (apply spec_ctor_single_returns; lra).
  destruct (ctor_extents _ _ _ _ _ Hop) as [Hr [Hn _]].
  destruct (@coefs2eval_beta_at_node reference_externals 1 [1%R] Fermion false op
              2 (mk_array [1] [Ci]) 0 Hop)
    as [v [Hv He]].
  - reflexivity.
  - reflexivity.
  - rewrite Hr. reflexivity.
  - rewrite Hn. cbv. lia.
  - exists op, v. repeat split; assumption.
Defined.

(** ** Writing an operator and reading it back *)

(** [h5_read] after [h5_write] under the same name, whatever the file held
    before: the object read has the cutoff, the statistic, the frequencies,
    the nodes, the matrix [cf2if] and the LU factors and pivots of the
    object written, and the number of frequencies as its rank. *)
Theorem h5_read_after_write (niom0 : nat) (fg : h5_group) (name : string)
        (m : imfreq_ops) :
  exists m',
    h5_read niom0 (h5_write fg name m) name = Ok m' /\
    lambda m' = lambda m /\ get_statistic m' = get_statistic m /\
    get_rfnodes m' = get_rfnodes m /\ get_ifnodes m' = get_ifnodes m /\
    get_cf2if m' = get_cf2if m /\ get_if2cf_lu m' = get_if2cf_lu m /\
    get_if2cf_piv m' = get_if2cf_piv m /\
    rank m' = length (get_rfnodes m).
Proof.
  eexists. split.
  - unfold h5_read, h5_open_group, h5_write, h5_attach. cbn [h5_subgroups].
    rewrite rev_app_distr. cbn [rev app find fst snd].
    rewrite String.eqb_refl. cbn [snd].
    unfold h5_imfreq_ops_group, assert_hdf5_format_as_string.
    cbn [h5_format write_hdf5_format_as_string h5_write_dataset h5_empty_group
         h5_datasets h5_subgroups app String.eqb Ascii.eqb Bool.eqb bind].
    unfold h5_read_double, h5_read_int, h5_read_doubles, h5_read_ints,
      h5_read_complex_matrix, h5_find_dataset.
    cbn [h5_format write_hdf5_format_as_string h5_write_dataset h5_empty_group
         h5_datasets h5_subgroups rev app find fst snd
         String.eqb Ascii.eqb Bool.eqb bind].
    assert (statistic_of_int (statistic_int (get_statistic m)) =
            Ok (get_statistic m)) as Hs by (destruct (get_statistic m); reflexivity).
    rewrite Hs. cbn [bind]. reflexivity.
  - unfold imfreq_ops_of_parts, lambda, get_statistic, get_rfnodes, get_ifnodes,
      get_cf2if, get_if2cf_lu, get_if2cf_piv, rank. cbn.
    repeat split.
Qed.

(** ** The fine grids *)

Lemma panels_length (b : nat -> R) (x : list R) (a : R) (idx : list nat) :
  length (concat (panels b x a idx)) = length idx * length x.
Proof.
  revert a. induction idx as [|i idx IH]; intros a; cbn [panels concat length].
  - reflexivity.
  - rewrite length_app, length_map, IH. cbn [Nat.mul]. reflexivity.
Qed.

Lemma panels_bounds (b : nat -> R) (x : list R) (lo hi : R) (idx : list nat) :
  forall a,
    (lo <= a <= hi)%R ->
    (forall i, In i idx -> (lo <= b i <= hi)%R) ->
    Forall (fun xk => 0 <= xk <= 1)%R x ->
    Forall (fun v => lo <= v <= hi)%R (concat (panels b x a idx)).
Proof.
  induction idx as [|i idx IH]; intros a Ha Hb Hx; cbn [panels concat].
  - constructor.
  - apply Forall_app. split.
    + apply Forall_forall. intros v Hv. apply in_map_iff in Hv.
      destruct Hv as [xk [<- Hxk]]. rewrite Forall_forall in Hx.
      specialize (Hx xk Hxk). specialize (Hb i (or_introl eq_refl)). nra.
    + apply IH.
      * apply Hb. now left.
      * intros k Hk. apply Hb. now right.
      * exact Hx.
Qed.

Lemma unit_nodes (nodes : list R) :
  Forall (fun x => -1 <= x <= 1)%R nodes ->
  Forall (fun xk => 0 <= xk <= 1)%R (map (fun x => (x + 1) / 2)%R nodes).
Proof.
  intros Hn. apply Forall_forall. intros xk Hxk. apply in_map_iff in Hxk.
  destruct Hxk as [x [<- Hx]]. rewrite Forall_forall in Hn.
  specialize (Hn x Hx). lra.
Qed.

Lemma dyadic_fraction (lam : R) (k : nat) :
  (0 <= lam)%R -> (0 <= lam / 2 ^ k <= lam)%R.
Proof.
  intros Hl.
  assert (1 <= 2 ^ k)%R as Hp by (apply pow_R1_Rle; lra).
  split.
  - apply Rmult_le_pos; [exact Hl|]. left. apply Rinv_0_lt_compat. lra.
  - apply (Rmult_le_reg_r (2 ^ k)); [lra|].
    unfold Rdiv. rewrite Rmult_assoc, Rinv_l by lra. nra.
Qed.

Lemma mirrored_odd (pos : list R) :
  rev (map Ropp (rev (map Ropp pos) ++ pos)) = rev (map Ropp pos) ++ pos.
Proof.
  rewrite map_app, rev_app_distr. f_equal.
  rewrite map_rev, rev_involutive, map_map.
  rewrite <- (map_id pos) at 2. apply map_ext. intros x. lra.
Qed.

Lemma Forall_mirrored (hi : R) (pos : list R) :
  Forall (fun v => 0 <= v <= hi)%R pos ->
  Forall (fun v => - hi <= v <= hi)%R (rev (map Ropp pos) ++ pos).
Proof.
  intros Hp. rewrite Forall_forall in Hp.
  apply Forall_forall. intros v Hv. apply in_app_or in Hv.
  destruct Hv as [Hv|Hv].
  - apply in_rev in Hv. apply in_map_iff in Hv. destruct Hv as [x [<- Hx]].
    specialize (Hp x Hx). lra.
  - specialize (Hp v Hv). lra.
Qed.

(** [build_rf_fine]: with the [p] Chebyshev nodes in [[-1, 1]] that the
    interpolation object provides and a cutoff [lambda >= 0], the grid
    has [2 npom p] points, is odd under reversal (the point at [k] from the
    front is minus the point at [k] from the back), and lies in
    [[-lambda, lambda]]. *)
Theorem build_rf_fine_grid (E : externals) (fine : fineparams) :
  length (ext_barycheb_nodes E (fp_p fine)) = Z.to_nat (fp_p fine) ->
  Forall (fun x => -1 <= x <= 1)%R (ext_barycheb_nodes E (fp_p fine)) ->
  (0 <= fp_lambda fine)%R ->
  exists om,
    build_rf_fine E fine = Ok om /\
    length om = 2 * (Z.to_nat (fp_npom fine) * Z.to_nat (fp_p fine)) /\
    rev (map Ropp om) = om /\
    Forall (fun x => - fp_lambda fine <= x <= fp_lambda fine)%R om.
Proof.
  intros Hlen Hnodes Hlam. unfold build_rf_fine, check_extent.
  rewrite length_map, Hlen, Nat.eqb_refl. cbn [bind].
  eexists. split; [reflexivity|]. split; [|split].
  - rewrite length_app, length_rev, length_map, panels_length.
    rewrite length_seq, length_map, Hlen. lia.
  - apply mirrored_odd.
  - apply Forall_mirrored. apply panels_bounds.
    + lra.
    + intros i _. now apply dyadic_fraction.
    + now apply unit_nodes.
Qed.

(** [build_it_fine]: with the [p] Gauss-Legendre nodes in [[-1, 1]] and [p]
    weights that the quadrature provides, the grid [t] and the weights [w]
    have [2 npt p] elements each, the second half of [t] is the first half
    negated and reversed (the relative format of the points beyond 1/2),
    and every [t] lies in [[-1/2, 1/2]]. *)
Theorem build_it_fine_grid (E : externals) (fine : fineparams) :
  length (fst (ext_gaussquad E (fp_p fine))) = Z.to_nat (fp_p fine) ->
  length (snd (ext_gaussquad E (fp_p fine))) = Z.to_nat (fp_p fine) ->
  Forall (fun x => -1 <= x <= 1)%R (fst (ext_gaussquad E (fp_p fine))) ->
  exists t w,
    build_it_fine E fine = Ok (t, w) /\
    length t = 2 * (Z.to_nat (fp_npt fine) * Z.to_nat (fp_p fine)) /\
    length w = length t /\
    skipn (Z.to_nat (fp_npt fine) * Z.to_nat (fp_p fine)) t =
      rev (map Ropp (firstn (Z.to_nat (fp_npt fine) * Z.to_nat (fp_p fine)) t)) /\
    Forall (fun x => - (1 / 2) <= x <= 1 / 2)%R t.
Proof.
  intros Hx Hw Hnodes. unfold build_it_fine, check_extent.
  rewrite length_map, Hx, Hw, Nat.eqb_refl. cbn [bind].
  set (npt := Z.to_nat (fp_npt fine)). set (p := Z.to_nat (fp_p fine)).
  set (tpos := concat (panels (fun i => 1 / 2 ^ (npt - i))%R
                              (map (fun x => (x + 1) / 2)%R
                                   (fst (ext_gaussquad E (fp_p fine))))
                              0%R (seq 0 npt))).
  assert (length tpos = npt * p) as Htl.
  { unfold tpos. rewrite panels_length, length_seq, length_map, Hx. reflexivity. }
  assert (Forall (fun v => 0 <= v <= 1 / 2)%R tpos) as Htb.
  { unfold tpos. apply panels_bounds.
    - lra.
    - intros i Hi. apply in_seq in Hi.
      assert (npt - i = S (npt - i - 1)) as -> by lia.
      cbn [pow].
      assert (1 <= 2 ^ (npt - i - 1))%R as Hp by (apply pow_R1_Rle; lra).
      split.
      + apply Rmult_le_pos; [lra|]. left. apply Rinv_0_lt_compat. lra.
      + apply (Rmult_le_reg_r (2 * 2 ^ (npt - i - 1))); [lra|].
        unfold Rdiv. rewrite Rmult_assoc, Rinv_l by lra. lra.
    - now apply unit_nodes. }
  eexists. eexists. split; [reflexivity|]. split; [|split; [|split]].
  - rewrite length_app, length_rev, length_map, Htl. lia.
  - rewrite !length_app, !length_rev, length_map, Htl.
    rewrite length_concat. rewrite map_map.
    assert (list_sum (map (fun i => length (map (fun wk => sqrt
              (((1 / 2 ^ (npt - i) -
                 match i with O => 0 | S j => 1 / 2 ^ (npt - j) end) / 2) * wk))%R
              (snd (ext_gaussquad E (fp_p fine))))) (seq 0 npt)) = npt * p) as ->.
    { rewrite (map_ext _ (fun _ => p)) by (intros i; now rewrite length_map).
      clear. induction npt as [|n IH]; [reflexivity|].
      rewrite seq_S, map_app, list_sum_app, IH. cbn. lia. }
    reflexivity.
  - rewrite <- Htl. rewrite skipn_app, skipn_all, Nat.sub_diag. cbn [skipn app].
    rewrite firstn_app, firstn_all, Nat.sub_diag. cbn [firstn].
    now rewrite app_nil_r.
  - apply Forall_app. split.
    + eapply Forall_impl; [|exact Htb]. cbv beta. intros v Hv. lra.
    + apply Forall_forall. intros v Hv. apply in_rev in Hv.
      apply in_map_iff in Hv. destruct Hv as [x [<- Hxin]].
      rewrite Forall_forall in Htb. specialize (Htb x Hxin). lra.
Qed.

Lemma equispaced_length (p : Z) : length (equispaced p) = Z.to_nat p.
Proof. unfold equispaced. now rewrite length_map, length_seq. Qed.

Lemma equispaced_bounds (p : Z) :
  Forall (fun x => -1 <= x <= 1)%R (equispaced p).
Proof.
  unfold equispaced. apply Forall_forall. intros x Hx.
  apply in_map_iff in Hx. destruct Hx as [k [<- Hk]]. apply in_seq in Hk.
  assert (0 <= INR k)%R as Hk0 by apply pos_INR.
  assert (INR k + 1 <= IZR p)%R as Hkp.
  { rewrite <- (Z2Nat.id p) by lia. rewrite <- INR_IZR_INZ.
    replace (INR k + 1)%R with (INR (S k)) by (rewrite S_INR; reflexivity).
    apply le_INR. lia. }
  assert (0 < IZR p + 1)%R as Hden by lra.
  split.
  - apply (Rmult_le_reg_r (IZR p + 1)); [exact Hden|].
    replace ((2 * (INR k + 1) / (IZR p + 1) - 1) * (IZR p + 1))%R
      with (2 * (INR k + 1) - (IZR p + 1))%R by (field; lra).
    lra.
  - apply (Rmult_le_reg_r (IZR p + 1)); [exact Hden|].
    replace ((2 * (INR k + 1) / (IZR p + 1) - 1) * (IZR p + 1))%R
      with (2 * (INR k + 1) - (IZR p + 1))%R by (field; lra).
    lra.
Qed.

Lemma build_rf_fine_grid_witness :
  exists om,
    build_rf_fine reference_externals (mk_fineparams 8 2 20 3 1 12 4) = Ok om /\
    length om = 2 * (Z.to_nat 3 * Z.to_nat 2) /\
    rev (map Ropp om) = om /\
    Forall (fun x => - 8 <= x <= 8)%R om.
Proof.
  apply (@build_rf_fine_grid reference_externals (mk_fineparams 8 2 20 3 1 12 4)).
  - apply equispaced_length.
  - apply equispaced_bounds.
  - cbn. lra.
Defined.

Lemma build_it_fine_grid_witness :
  exists t w,
    build_it_fine reference_externals (mk_fineparams 8 2 20 3 1 12 4) = Ok (t, w) /\
    length t = 2 * (Z.to_nat 1 * Z.to_nat 2) /\
    length w = length t /\
    skipn (Z.to_nat 1 * Z.to_nat 2) t =
      rev (map Ropp (firstn (Z.to_nat 1 * Z.to_nat 2) t)) /\
    Forall (fun x => - (1 / 2) <= x <= 1 / 2)%R t.
Proof.
  apply (@build_it_fine_grid reference_externals (mk_fineparams 8 2 20 3 1 12 4)).
  - apply equispaced_length.
  - cbn [reference_externals spec_externals ext_gaussquad snd fp_p].
    rewrite length_map. apply equispaced_length.
  - apply equispaced_bounds.
Defined.

(** ** The DLR frequencies *)

Lemma fineparams_default_inv (log2q : R -> R) (lam : R) (fine : fineparams) :
  fineparams_default log2q lam = Ok fine ->
  (0 < lam)%R /\ fp_lambda fine = lam /\ fp_p fine = default_p.
Proof.
  unfold fineparams_default, fineparams_ctor.
  destruct (Rle_dec lam 0) as [Hl|Hl]; [discriminate|].
  destruct (default_p <=? 0)%Z; [discriminate|].
  intros Hf. inversion Hf. cbn. repeat split. lra.
Qed.

Lemma for_each_In_inv {A B : Type} (f : A -> result B) (l : list A)
      (ys : list B) (y : B) :
  for_each f l = Ok ys -> In y ys -> exists x, In x l /\ f x = Ok y.
Proof.
  intros Hy Hin. apply for_each_Forall2 in Hy.
  induction Hy as [|x y' l ys Hfx _ IH]; [contradiction|].
  destruct Hin as [->|Hin].
  - exists x. split; [now left|exact Hfx].
  - destruct (IH Hin) as [x' [Hx' Hfx']]. exists x'. split; [now right|exact Hfx'].
Qed.

Lemma build_rf_fine_inv (E : externals) (fine : fineparams) (om : list R) :
  build_rf_fine E fine = Ok om ->
  Forall (fun x => -1 <= x <= 1)%R (ext_barycheb_nodes E (fp_p fine)) ->
  (0 <= fp_lambda fine)%R ->
  Forall (fun x => - fp_lambda fine <= x <= fp_lambda fine)%R om.
Proof.
  unfold build_rf_fine. intros Hom Hnodes Hlam.
  apply bind_Ok_inv in Hom. destruct Hom as [_ [_ Hom]].
  inversion Hom; subst om. clear Hom.
  apply Forall_mirrored. apply panels_bounds.
  - lra.
  - intros i _. now apply dyadic_fraction.
  - now apply unit_nodes.
Qed.

(** Every frequency that [build_dlr_rf] returns is a point of the fine
    frequency grid, and so lies in [[-lambda, lambda]], given Chebyshev
    nodes in [[-1, 1]]. *)
Theorem dlr_rf_within_cutoff (E : externals) (lam eps : R) (sym : bool)
        (omega : list R) :
  Forall (fun x => -1 <= x <= 1)%R (ext_barycheb_nodes E default_p) ->
  snd (build_dlr_rf E lam eps sym) = Ok omega ->
  exists fine om,
    fineparams_default (ext_log2 E) lam = Ok fine /\ build_rf_fine E fine = Ok om /\
    incl omega om /\
    Forall (fun x => - lam <= x <= lam)%R omega.
Proof.
  intros Hnodes Hrun. unfold build_dlr_rf in Hrun. cbn [snd] in Hrun.
  apply bind_Ok_inv in Hrun. destruct Hrun as [fine [Hfine Hrun]].
  apply bind_Ok_inv in Hrun. destruct Hrun as [tw [_ Hrun]].
  apply bind_Ok_inv in Hrun. destruct Hrun as [om [Hom Hrun]].
  destruct (fineparams_default_inv _ _ Hfine) as [Hlam [Hfl Hfp]].
  destruct (if sym then _ else _) as [[q norms] piv] in Hrun.
  exists fine, om. split; [exact Hfine|]. split; [exact Hom|].
  assert (incl omega om) as Hincl.
  { intros y Hy. destruct (for_each_In_inv _ _ _ Hrun Hy) as [i [_ Hi]].
    apply bind_Ok_inv in Hi. destruct Hi as [p [_ Hp]].
    apply at_Ok in Hp. eapply nth_error_In. exact Hp. }
  split; [exact Hincl|].
  rewrite <- Hfp in Hnodes.
  pose proof (build_rf_fine_inv _ _ Hom Hnodes) as Hb.
  rewrite Hfl in Hb. specialize (Hb (Rlt_le _ _ Hlam)).
  apply Forall_forall. intros y Hy. rewrite Forall_forall in Hb.
  apply Hb. now apply Hincl.
Qed.

Lemma at_returns {U : Type} (v : list U) (i : nat) :
  i < length v -> returns (at_ v i).
Proof.
  intros Hi. unfold at_.
  destruct (nth_error v i) as [x|] eqn:Hx.
  - now exists x.
  - apply nth_error_None in Hx. lia.
Qed.

Lemma selected_frequencies_return (om : list R) (picks : list (@pick R)) :
  Forall (fun p => p < length om) (map pick_index picks) ->
  returns (for_each (fun i => p <- at_ (sort (map pick_index picks)) i ;; at_ om p)
                    (seq 0 (length (map pick_norm picks)))).
Proof.
  intros Hrange.
  rewrite indexed_loop_firstn_conv by (rewrite length_sort, !length_map; lia).
  apply for_each_returns. intros p Hp. apply at_returns.
  apply In_firstn_incl in Hp.
  apply Forall_sort in Hrange. rewrite Forall_forall in Hrange.
  now apply Hrange.
Qed.

(** With the Gram-Schmidt routines of the specification and [p] nodes and
    weights, the selection of the frequencies returns. *)
Lemma spec_build_dlr_rf_returns (gq : Z -> list R * list R) (bc : Z -> list R)
      (lam eps : R) (sym : bool) :
  (0 < lam)%R ->
  length (fst (gq default_p)) = Z.to_nat default_p ->
  length (snd (gq default_p)) = Z.to_nat default_p ->
  length (bc default_p) = Z.to_nat default_p ->
  returns (snd (build_dlr_rf (spec_externals gq bc) lam eps sym)).
Proof.
  intros Hl Hx Hw Hc. unfold build_dlr_rf. cbn [snd].
  destruct (fineparams_default_ok log2_exact Hl) as [fine Hf].
  change (ext_log2 (spec_externals gq bc)) with log2_exact.
  rewrite Hf. cbn [bind].
  destruct (fineparams_default_inv _ _ Hf) as [_ [_ Hp]].
  unfold build_it_fine, build_rf_fine, check_extent.
  cbn [spec_externals ext_gaussquad ext_barycheb_nodes
       ext_pivrgs_real ext_pivrgs_sym_real].
  rewrite Hp, !length_map, Hx, Hw, Hc, Nat.eqb_refl. cbn [bind fst snd].
  match goal with
  | |- context [transpose (build_k_it ?t ?w ?om)] =>
      set (grid := om); set (kt := transpose (build_k_it t w grid))
  end.
  assert (length (rows kt) = length grid) as Hrows.
  { unfold kt. rewrite rows_length. unfold nrows. rewrite shape_transpose.
    reflexivity. }
  destruct sym.
  - unfold pivrgs_sym, pivrgs_result. apply selected_frequencies_return.
    rewrite <- Hrows. apply pivrgs_sym_rows_in_range.
  - unfold pivrgs, pivrgs_result. apply selected_frequencies_return.
    rewrite <- Hrows. apply pivrgs_rows_in_range.
Qed.

Lemma dlr_rf_within_cutoff_witness :
  exists omega,
    snd (build_dlr_rf reference_externals 1 (1 / 10) false) = Ok omega /\
    Forall (fun x => - 1 <= x <= 1)%R omega.
Proof.
  assert (returns (snd (build_dlr_rf reference_externals 1 (1 / 10) false)))
    as [omega Hrun].
  { apply spec_build_dlr_rf_returns.
    - lra.
    - apply equispaced_length.
    - cbn [snd]. rewrite length_map. apply equispaced_length.
    - apply equispaced_length. }
  exists omega. split; [exact Hrun|].
  destruct (@dlr_rf_within_cutoff reference_externals 1 (1 / 10) false omega
              (equispaced_bounds default_p) Hrun)
    as [fine [om [_ [_ [_ Hb]]]]].
  exact Hb.
Defined.

(** ** The sampling nodes and the pivots *)

Lemma entry_build_k_if_range (nmax : Z) (rf : list R) (stat : statistic_t)
      (p j : nat) (x : dcomplex) :
  entry (build_k_if nmax rf stat) p j = Ok x -> p < k_if_rows nmax stat.
Proof.
  unfold entry. rewrite build_k_if_rows.
  rewrite nth_error_map, nth_error_seq.
  destruct (p <? k_if_rows nmax stat) eqn:Hp; [|discriminate].
  intros _. now apply Nat.ltb_lt.
Qed.

Lemma ctor_nodes (E : externals) (lam : R) (rf : list R) (stat : statistic_t)
      (sym : bool) (op : imfreq_ops) :
  imfreq_ops_ctor E lam rf stat sym = Ok op ->
  exists fine nodes c2v,
    fineparams_default (ext_log2 E) lam = Ok fine /\
    for_each (fun i => p <- at_ (sorted_pivots E (build_k_if (fp_nmax fine) rf stat)
                                    (node_count (length rf) stat sym) sym) i ;;
                       Ok (Z.of_nat p - fp_nmax fine)%Z)
             (seq 0 (node_count (length rf) stat sym)) = Ok nodes /\
    fill_matrix (node_count (length rf) stat sym) (length rf)
      (fun i j => p <- at_ (sorted_pivots E (build_k_if (fp_nmax fine) rf stat)
                              (node_count (length rf) stat sym) sym) i ;;
                  entry (build_k_if (fp_nmax fine) rf stat) p j) = Ok c2v /\
    dlr_if op = nodes.
Proof.
  unfold imfreq_ops_ctor. intros Hop.
  apply bind_Ok_inv in Hop. destruct Hop as [fine [Hfine Hop]].
  apply bind_Ok_inv in Hop. destruct Hop as [nodes [Hnodes Hop]].
  apply bind_Ok_inv in Hop. destruct Hop as [c2v [Hc2v Hop]].
  exists fine, nodes, c2v. repeat split; try assumption.
  destruct (negb (symmetrized_boson stat sym)).
  - destruct (ext_getrf E c2v) as [[lu ipiv] info]. inversion Hop. reflexivity.
  - inversion Hop. reflexivity.
Qed.

(** The sampling nodes of an operator built for at least one frequency lie
    within the frequency cutoff of the kernel matrix: every node [n] has
    [-nmax <= n <= nmax - 1] for fermions and [-nmax <= n <= nmax] for
    bosons, with [nmax] the cutoff of [fineparams(lambda)]. *)
Theorem ifnodes_within_cutoff (E : externals) (lam : R) (rf : list R)
        (stat : statistic_t) (sym : bool) (op : imfreq_ops) :
  imfreq_ops_ctor E lam rf stat sym = Ok op -> rf <> [] ->
  exists fine,
    fineparams_default (ext_log2 E) lam = Ok fine /\
    Forall (fun n => - fp_nmax fine <= n < fp_nmax fine + 1 - statistic_int stat)%Z
           (get_ifnodes op).
Proof.
  intros Hop Hrf.
  destruct (ctor_nodes _ _ _ _ _ Hop) as [fine [nodes [c2v [Hfine [Hn [Hc Hif]]]]]].
  exists fine. split; [exact Hfine|].
  unfold get_ifnodes. rewrite Hif.
  set (nn := node_count (length rf) stat sym) in *.
  set (piv := sorted_pivots E (build_k_if (fp_nmax fine) rf stat) nn sym) in *.
  assert (0 < length rf) as Hpos by (destruct rf; [congruence|cbn; lia]).
  pose proof (for_each_length _ _ Hn) as Hlen. rewrite length_seq in Hlen.
  apply for_each_Forall2 in Hn.
  apply Forall_forall. intros n Hin.
  apply In_nth_error in Hin. destruct Hin as [i Hi].
  assert (i < nn) as Hlt.
  { rewrite <- Hlen. apply nth_error_Some. congruence. }
  assert (nth_error (seq 0 nn) i = Some i) as Hsi.
  { rewrite nth_error_seq. apply Nat.ltb_lt in Hlt. now rewrite Hlt. }
  pose proof (Forall2_at i Hn Hsi Hi) as Hni. cbv beta in Hni.
  apply bind_Ok_inv in Hni. destruct Hni as [p [Hp Hnp]].
  inversion Hnp; subst n. clear Hnp.
  destruct (fill_matrix_entry _ Hc Hlt Hpos) as [x [Hx _]].
  rewrite Hp in Hx. cbn [bind] in Hx.
  apply entry_build_k_if_range in Hx. rewrite k_if_rows_count in Hx. lia.
Qed.

Lemma ifnodes_within_cutoff_witness :
  exists op fine,
    imfreq_ops_ctor reference_externals 1 [1%R] Boson false = Ok op /\
    fineparams_default log2_exact 1 = Ok fine /\
    Forall (fun n => - fp_nmax fine <= n < fp_nmax fine + 1 - statistic_int Boson)%Z
           (get_ifnodes op).
Proof.
  assert (returns (imfreq_ops_ctor reference_externals 1 [1%R] Boson false))
    as [op Hop] by (apply spec_ctor_single_returns; lra).
  destruct (@ifnodes_within_cutoff reference_externals 1 [1%R] Boson false op Hop)
    as [fine [Hfine Hnodes]].
  - discriminate.
  - exists op, fine. repeat split; assumption.
Defined.

(** ** The imaginary-time kernel on grids *)

Lemma build_k_it_grid_rows (t om : list R) :
  rows (build_k_it_grid t om) = map (fun ti => map (fun omj => k_it ti omj) om) t.
Proof.
  unfold build_k_it_grid. apply rows_matrix_of_rows.
  apply Forall_forall. intros row Hrow. apply in_map_iff in Hrow.
  destruct Hrow as [ti [<- _]]. now rewrite length_map.
Qed.

Lemma build_k_it_rows (t w om : list R) :
  rows (build_k_it t w om) =
  map (fun tw => map (fun omj => (snd tw * k_it (fst tw) omj)%R) om) (combine t w).
Proof.
  unfold build_k_it. apply rows_matrix_of_rows.
  apply Forall_forall. intros row Hrow. apply in_map_iff in Hrow.
  destruct Hrow as [tw [<- _]]. now rewrite length_map.
Qed.

(** The overloads of [build_k_it] agree: in the matrix on the grids [t] and
    [om], row [i] is the vector for the time [t(i)], column [j] is the
    vector for the frequency [om(j)], and with weights [w], as many as
    times, element [(i, j)] is multiplied by [w(i)], in the matrix and in
    the weighted vector. *)
Theorem build_k_it_overloads (t w om : list R) (i j : nat) :
  i < length t -> j < length om -> length w = length t ->
  shape (build_k_it_grid t om) = [length t; length om] /\
  shape (build_k_it t w om) = [length t; length om] /\
  entry (build_k_it_grid t om) i j = Ok (k_it (nth i t 0%R) (nth j om 0%R)) /\
  nth j (build_k_it_time (nth i t 0%R) om) 0%R = k_it (nth i t 0%R) (nth j om 0%R) /\
  nth i (build_k_it_freq t (nth j om 0%R)) 0%R = k_it (nth i t 0%R) (nth j om 0%R) /\
  entry (build_k_it t w om) i j =
    Ok (nth i w 0%R * k_it (nth i t 0%R) (nth j om 0%R))%R /\
  exists col,
    build_k_it_freq_weighted t w (nth j om 0%R) = Ok col /\
    nth i col 0%R = (nth i w 0%R * k_it (nth i t 0%R) (nth j om 0%R))%R.
Proof.
  intros Hi Hj Hw.
  split; [unfold build_k_it_grid, matrix_of_rows; cbn [shape];
          now rewrite length_map|].
  split; [unfold build_k_it, matrix_of_rows; cbn [shape];
          rewrite length_map, length_combine; f_equal; lia|].
  split.
  { unfold entry. rewrite build_k_it_grid_rows, nth_error_map.
    rewrite (nth_error_nth' t 0%R Hi). cbn [option_map].
    rewrite nth_error_map, (nth_error_nth' om 0%R Hj). reflexivity. }
  split.
  { unfold build_k_it_time.
    now rewrite (nth_map_in (fun omj => k_it (nth i t 0%R) omj) om 0%R 0%R Hj). }
  split.
  { unfold build_k_it_freq.
    now rewrite (nth_map_in (fun ti => k_it ti (nth j om 0%R)) t 0%R 0%R Hi). }
  split.
  { unfold entry. rewrite build_k_it_rows, nth_error_map.
    assert (nth_error (combine t w) i = Some (nth i t 0%R, nth i w 0%R)) as Hc.
    { rewrite <- combine_nth by lia. apply nth_error_nth'.
      rewrite length_combine. lia. }
    rewrite Hc. cbn [option_map fst snd].
    rewrite nth_error_map, (nth_error_nth' om 0%R Hj). reflexivity. }
  exists (map (fun k => (nth k w 0%R * k_it (nth k t 0%R) (nth j om 0%R))%R)
              (seq 0 (length t))).
  split.
  - unfold build_k_it_freq_weighted. apply for_each_map.
    intros k Hk. apply in_seq in Hk. unfold at_.
    rewrite (nth_error_nth' t 0%R) by lia. cbn [bind].
    rewrite (nth_error_nth' w 0%R) by lia. reflexivity.
  - rewrite (nth_map_in (fun k => (nth k w 0%R * k_it (nth k t 0%R) (nth j om 0%R))%R)
                        (seq 0 (length t)) 0 0%R)
      by (now rewrite length_seq).
    now rewrite seq_nth.
Qed.

Lemma build_k_it_overloads_witness :
  entry (build_k_it_grid [0%R; 1%R] [2%R]) 1 0 = Ok (k_it 1 2) /\
  entry (build_k_it [0%R; 1%R] [3%R; 4%R] [2%R]) 1 0 = Ok (4 * k_it 1 2)%R.
Proof.
  pose proof (@build_k_it_overloads [0%R; 1%R] [3%R; 4%R] [2%R] 1 0) as H.
  cbn [length nth] in H.
  destruct H as [_ [_ [H1 [_ [_ [H2 _]]]]]]; try lia.
  split; assumption.
Defined.

(** ** What the constructor establishes *)

(** An operator that the constructor returns holds the cutoff, the
    statistic and the frequencies it was given, has the number of
    frequencies as its rank, [r + 1] nodes if it is bosonic and symmetrized
    and [r] nodes otherwise, and a matrix [cf2if] with one row for each
    node and one column for each frequency; the LU factors are those that
    [getrf] returns for [cf2if], except for a symmetrized bosonic operator,
    whose factors are left empty. *)
Theorem ctor_postconditions (E : externals) (lam : R) (rf : list R)
        (stat : statistic_t) (sym : bool) (op : imfreq_ops) :
  imfreq_ops_ctor E lam rf stat sym = Ok op ->
  lambda op = lam /\ get_statistic op = stat /\ get_rfnodes op = rf /\
  rank op = length rf /\
  length (get_ifnodes op) = (if symmetrized_boson stat sym
                             then length rf + 1 else length rf) /\
  shape (get_cf2if op) = [length (get_ifnodes op); rank op] /\
  wf_matrix (get_cf2if op) /\
  (if symmetrized_boson stat sym
   then get_if2cf_lu op = empty_matrix /\ get_if2cf_piv op = []
   else exists info,
          ext_getrf E (get_cf2if op) = (get_if2cf_lu op, get_if2cf_piv op, info)).
Proof.
  intros Hop.
  pose proof (ctor_niom_length _ _ _ _ _ Hop) as Hlen.
  destruct (imfreq_ops_ctor_inv _ _ _ _ _ Hop)
    as [fine [_ [_ [Hl [Hs [Hr [Hn [Hrf [_ [Hc Hlu]]]]]]]]]].
  unfold lambda, get_statistic, get_rfnodes, rank, get_ifnodes, get_cf2if,
    get_if2cf_lu, get_if2cf_piv.
  repeat split; try assumption.
  - rewrite Hlen, Hn. reflexivity.
  - rewrite Hc, Hr. unfold matrix_of_rows, kernel_rows. cbn [shape].
    now rewrite length_map.
  - rewrite Hc. reflexivity.
  - rewrite Hc. unfold matrix_of_rows, nrows, ncols. cbn [shape data nth].
    apply length_concat_rows. apply kernel_rows_row_length.
Qed.

Lemma ctor_postconditions_witness :
  exists op,
    imfreq_ops_ctor reference_externals 1 [1%R] Boson true = Ok op /\
    rank op = 1 /\ length (get_ifnodes op) = 2 /\
    shape (get_cf2if op) = [2; 1] /\ get_if2cf_lu op = empty_matrix.
Proof.
  assert (returns (imfreq_ops_ctor reference_externals 1 [1%R] Boson true))
    as [op Hop] by (apply spec_ctor_sym_returns; [lra|cbv; lia]).
  exists op. split; [exact Hop|].
  destruct (@ctor_postconditions reference_externals 1 [1%R] Boson true op Hop)
    as [_ [_ [_ [Hr [Hn [Hs [_ [Hlu _]]]]]]]].
  cbn in Hr, Hn. rewrite Hn, Hr in Hs. repeat split; assumption.
Defined.

(** The row of [cf2if] for a node is the evaluation vector at that node:
    [cf2if(i, l) = build_evalvec(n_if[i])(l)], for every operator that the
    constructor returns. *)
Theorem cf2if_row_is_evalvec (E : externals) (lam : R) (rf : list R)
        (stat : statistic_t) (sym : bool) (op : imfreq_ops) (i : nat) :
  imfreq_ops_ctor E lam rf stat sym = Ok op -> i < length (get_ifnodes op) ->
  nth_error (rows (get_cf2if op)) i =
  Some (build_evalvec op (nth i (get_ifnodes op) 0%Z)).
Proof.
  intros Hop Hi. unfold get_cf2if, get_ifnodes in *.
  pose proof (kernel_ops_ctor _ _ _ _ _ Hop) as Hk.
  destruct (kernel_ops_rows Hk) as [Hrows _].
  destruct Hk as [Hr _].
  rewrite Hrows. unfold kernel_rows. rewrite nth_error_map.
  rewrite (nth_error_nth' (dlr_if op) 0%Z Hi). cbn [option_map].
  now rewrite build_evalvec_row.
Qed.

Lemma cf2if_row_is_evalvec_witness :
  exists op,
    imfreq_ops_ctor reference_externals 1 [1%R] Boson true = Ok op /\
    nth_error (rows (get_cf2if op)) 1 =
    Some (build_evalvec op (nth 1 (get_ifnodes op) 0%Z)).
Proof.
  assert (returns (imfreq_ops_ctor reference_externals 1 [1%R] Boson true))
    as [op Hop] by (apply spec_ctor_sym_returns; [lra|cbv; lia]).
  exists op. split; [exact Hop|].
  apply (@cf2if_row_is_evalvec reference_externals 1 [1%R] Boson true op 1 Hop).
  pose proof (ctor_niom_length _ _ _ _ _ Hop) as Hlen.
  destruct (ctor_extents _ _ _ _ _ Hop) as [_ [Hn _]].
  unfold get_ifnodes. rewrite Hlen, Hn. cbv. lia.
Defined.
